(** * backtrader.plus: the computation core

    A shallow embedding of the C++ engine and the properties proved of it:
    line buffers ([include/bt/linebuffer.hpp]), the vector kernels
    ([include/bt/simd.hpp]), the line operations
    ([include/bt/indicator.hpp]), the SMA, EMA and RSI indicators
    ([include/bt/indicators/sma.hpp], [include/bt/indicators/ema.hpp],
    [include/bt/indicators/rsi.hpp]), orders, positions and trades
    ([include/bt/order.hpp]), commissions ([include/bt/comminfo.hpp]), the
    broker ([src/broker.cpp], [include/bt/broker.hpp]), the parameter store
    ([include/bt/params.hpp]), the parameter grid and the chunked loop
    ([include/bt/threadpool.hpp]), the result summary
    ([include/bt/optimizer.hpp]) and the optimisation driver
    ([src/cerebro.cpp]).

    [Value] is C++ [double]: the kernel's binary64 floats, so that every
    arithmetic step rounds as the program's does.  [Size] is [std::size_t]
    and is modelled by [nat]: a length of an array held in memory never
    reaches 2^64.  Where the source computes with sizes that are not such
    lengths the wrap-around is written out: a difference that wraps
    ([window - 1] at [window = 0]) as a case, the product of the numbers
    of parameter values and the chunk bounds of the parallel loop with
    [Size_mul] and [Size_add], which reduce modulo 2^64.
    [Index] is [std::ptrdiff_t], modelled by [Z]; signed overflow, which C++
    leaves undefined, is not modelled.  A C array is a list; a read
    [data[i]] past its end, undefined in C++, gives a default, and a write
    past its end is dropped.  The only kernel modelled here that writes past the
    end of an array of the stated length is [simd::rsi] with a period
    above the data length, and nothing is stated for that range.  Running out of
    memory ([std::bad_alloc], or [std::length_error] from a container that
    is asked to grow beyond its [max_size()]) is not modelled. *)

From Stdlib Require Import ZArith Uint63 Floats Lia Bool Sorted Permutation.
From stdpp Require Import gmap strings list fin_maps.

Set Default Proof Using "Type".

(** Decimal literals denote the nearest binary64 value, as they do in the
    C++ sources. *)
Set Warnings "-inexact-float".
Set Warnings "-abstract-large-number".

(* ===================================================================== *)
(** * Part I: the program                                                 *)
(* ===================================================================== *)

(** ** common.hpp *)

Abbreviation Value := float (only parsing).
Abbreviation Index := Z (only parsing).
Abbreviation Size := nat (only parsing).
Definition NaN : Value := nan.

(** [std::size_t] has 64 bits.  A size that is the length of a container
    is used as the natural number it is; a sum or a product of sizes that
    the caller supplies wraps modulo 2^64, as unsigned arithmetic does. *)
Definition SIZE_MAX : Z := (2 ^ 64 - 1)%Z.
Definition Size_wrap (z : Z) : Size := Z.to_nat (z mod 2 ^ 64).
Definition Size_add (a b : Size) : Size := Size_wrap (Z.of_nat a + Z.of_nat b).
Definition Size_mul (a b : Size) : Size := Size_wrap (Z.of_nat a * Z.of_nat b).

(** C++ exceptions that the modelled code throws. *)
Inductive exception : Set :=
| out_of_range (what : string)
| runtime_error (what : string)
| bad_variant_access.

(** The result of a call that may throw. *)
Inductive outcome (A : Type) : Type :=
| Returns (a : A)
| Throws (e : exception).
Arguments Returns {A} a.
Arguments Throws {A} e.

(** The counted loop [for (Size i = lo; i < lo + n; ++i) s = body i s]. *)
Fixpoint for_range {S : Type} (lo n : nat) (body : nat -> S -> S) (s : S) : S :=
  match n with
  | O => s
  | Datatypes.S n' => for_range (Datatypes.S lo) n' body (body lo s)
  end.

(** [for (Size i = lo; i < hi; ++i)]: no iteration when [hi <= lo]. *)
Definition for_loop {S : Type} (lo hi : nat) (body : nat -> S -> S) (s : S) : S :=
  for_range lo (hi - lo) body s.

(** ** linebuffer.hpp *)

Module UnboundedStorage.

Record t : Set := mk { data_ : list Value; pos_ : Index }.

Definition init : t := mk [] 0%Z.

Definition push_back (v : Value) (s : t) : t := mk (data_ s ++ [v]) (pos_ s).

Definition size (s : t) : Size := length (data_ s).
Definition length (s : t) : Size := Datatypes.length (data_ s).
Definition position (s : t) : Index := pos_ s.

(** [actual = pos_ - idx]; the test of both [at] overloads. *)
Definition actual (s : t) (idx : Index) : Z := (pos_ s - idx)%Z.

(** [Value& at(Index idx)]: the mutable overload, read through. *)
Definition at_mut (s : t) (idx : Index) : outcome Value :=
  if (actual s idx <? 0)%Z || (actual s idx >=? Z.of_nat (size s))%Z
  then Throws (out_of_range "LineBuffer index out of range")
  else Returns (nth (Z.to_nat (actual s idx)) (data_ s) NaN).

(** [Value at(Index idx) const]. *)
Definition at_const (s : t) (idx : Index) : Value :=
  if (actual s idx <? 0)%Z || (actual s idx >=? Z.of_nat (size s))%Z
  then NaN
  else nth (Z.to_nat (actual s idx)) (data_ s) NaN.

Definition advance (s : t) : t :=
  if (pos_ s <? Z.of_nat (size s) - 1)%Z then mk (data_ s) (pos_ s + 1)%Z else s.
Definition rewind (s : t) : t :=
  if (pos_ s >? 0)%Z then mk (data_ s) (pos_ s - 1)%Z else s.
Definition home (s : t) : t := mk (data_ s) 0%Z.

Definition clear (s : t) : t := mk [] 0%Z.

(** A call of the [IBufferStorage] interface that changes the buffer
    ([reserve] changes nothing that can be observed). *)
Inductive op : Set :=
| Push (v : Value)
| Advance
| Rewind
| Home
| Clear.

Definition exec (o : op) (s : t) : t :=
  match o with
  | Push v => push_back v s
  | Advance => advance s
  | Rewind => rewind s
  | Home => home s
  | Clear => clear s
  end.

(** A sequence of calls, in order. *)
Definition run (os : list op) (s : t) : t := foldl (fun s o => exec o s) s os.

End UnboundedStorage.

Module QBufferStorage.

Record t : Set := mk {
  data_ : list Value;      (* std::deque<Value> *)
  maxlen_ : Size;
  pos_ : Index;
  total_pushed_ : Size
}.

Definition init (maxlen : Size) : t := mk [] maxlen 0%Z 0.

(** [std::deque::pop_front]: undefined on an empty deque ([None]). *)
Definition pop_front (d : list Value) : option (list Value) :=
  match d with
  | [] => None
  | _ :: d' => Some d'
  end.

Definition push_back (v : Value) (s : t) : option t :=
  d ← (if maxlen_ s <=? Datatypes.length (data_ s)
       then pop_front (data_ s) else Some (data_ s));
  Some (mk (d ++ [v]) (maxlen_ s) (pos_ s) (Datatypes.S (total_pushed_ s))).

Definition size (s : t) : Size := Datatypes.length (data_ s).
Definition length (s : t) : Size := total_pushed_ s.
Definition position (s : t) : Index := pos_ s.

(** [actual = size - 1 - idx]: relative to the tail, the cursor is not read. *)
Definition actual (s : t) (idx : Index) : Z := (Z.of_nat (size s) - 1 - idx)%Z.

Definition at_mut (s : t) (idx : Index) : outcome Value :=
  if (actual s idx <? 0)%Z || (actual s idx >=? Z.of_nat (size s))%Z
  then Throws (out_of_range "QBuffer index out of range")
  else Returns (nth (Z.to_nat (actual s idx)) (data_ s) NaN).

Definition at_const (s : t) (idx : Index) : Value :=
  if (actual s idx <? 0)%Z || (actual s idx >=? Z.of_nat (size s))%Z
  then NaN
  else nth (Z.to_nat (actual s idx)) (data_ s) NaN.

Definition advance (s : t) : t :=
  mk (data_ s) (maxlen_ s) (pos_ s + 1)%Z (total_pushed_ s).
Definition rewind (s : t) : t :=
  if (pos_ s >? 0)%Z then mk (data_ s) (maxlen_ s) (pos_ s - 1)%Z (total_pushed_ s) else s.
Definition home (s : t) : t := mk (data_ s) (maxlen_ s) 0%Z (total_pushed_ s).

Definition clear (s : t) : t := mk [] (maxlen_ s) 0%Z 0.

(** A call of the [IBufferStorage] interface that changes the buffer
    ([reserve] does nothing). *)
Inductive op : Set :=
| Push (v : Value)
| Advance
| Rewind
| Home
| Clear.

Definition exec (o : op) (s : t) : option t :=
  match o with
  | Push v => push_back v s
  | Advance => Some (advance s)
  | Rewind => Some (rewind s)
  | Home => Some (home s)
  | Clear => Some (clear s)
  end.

(** A sequence of calls, in order. *)
Fixpoint run (os : list op) (s : t) : option t :=
  match os with
  | [] => Some s
  | o :: os' => s' ← exec o s; run os' s'
  end.

(** The values pushed by a sequence of calls since the buffer was last
    cleared, oldest first; [pre] are those pushed before the sequence. *)
Fixpoint pushed_after (pre : list Value) (os : list op) : list Value :=
  match os with
  | [] => pre
  | Push v :: os' => pushed_after (pre ++ [v]) os'
  | Clear :: os' => pushed_after [] os'
  | _ :: os' => pushed_after pre os'
  end.

Definition pushed (os : list op) : list Value := pushed_after [] os.

End QBufferStorage.

(** ** linebuffer.hpp: [LineBuffer], which forwards to its storage *)

Module LineBuffer.

Inductive storage : Set :=
| Unbounded (s : UnboundedStorage.t)
| QBuffer (q : QBufferStorage.t).

Record t : Set := mk { storage_ : storage; minperiod_ : Size }.

(** [LineBuffer()] and [LineBuffer(Size qbuffer)]. *)
Definition new : t := mk (Unbounded UnboundedStorage.init) 1.
Definition new_qbuffer (qbuffer : Size) : t := mk (QBuffer (QBufferStorage.init qbuffer)) 1.

(** [Value& operator[](Index idx)], read through. *)
Definition index_mut (b : t) (idx : Index) : outcome Value :=
  match storage_ b with
  | Unbounded s => UnboundedStorage.at_mut s idx
  | QBuffer q => QBufferStorage.at_mut q idx
  end.

Definition push (v : Value) (b : t) : option t :=
  match storage_ b with
  | Unbounded s => Some (mk (Unbounded (UnboundedStorage.push_back v s)) (minperiod_ b))
  | QBuffer q => q' ← QBufferStorage.push_back v q; Some (mk (QBuffer q') (minperiod_ b))
  end.

Fixpoint extend (values : list Value) (b : t) : option t :=
  match values with
  | [] => Some b
  | v :: values' => b' ← push v b; extend values' b'
  end.

Definition advance (b : t) : t :=
  match storage_ b with
  | Unbounded s => mk (Unbounded (UnboundedStorage.advance s)) (minperiod_ b)
  | QBuffer q => mk (QBuffer (QBufferStorage.advance q)) (minperiod_ b)
  end.

Definition home (b : t) : t :=
  match storage_ b with
  | Unbounded s => mk (Unbounded (UnboundedStorage.home s)) (minperiod_ b)
  | QBuffer q => mk (QBuffer (QBufferStorage.home q)) (minperiod_ b)
  end.

Definition position (b : t) : Index :=
  match storage_ b with
  | Unbounded s => UnboundedStorage.position s
  | QBuffer q => QBufferStorage.position q
  end.

(** [rawData()]: the vector of an unbounded buffer, [nullptr] otherwise. *)
Definition rawData (b : t) : option (list Value) :=
  match storage_ b with
  | Unbounded s => Some (UnboundedStorage.data_ s)
  | QBuffer _ => None
  end.

(** [Value operator[](Index idx) const].  Its body is [storage_->at(idx)]
    and [storage_] is a [std::unique_ptr<IBufferStorage>]: inside a const
    member the pointer is const, the storage it points to is not, so the
    call resolves to the mutable overload of [at]. *)
Definition index_const (b : t) (idx : Index) : outcome Value :=
  match storage_ b with
  | Unbounded s => UnboundedStorage.at_mut s idx
  | QBuffer q => QBufferStorage.at_mut q idx
  end.

Definition rewind (b : t) : t :=
  match storage_ b with
  | Unbounded s => mk (Unbounded (UnboundedStorage.rewind s)) (minperiod_ b)
  | QBuffer q => mk (QBuffer (QBufferStorage.rewind q)) (minperiod_ b)
  end.

Definition size (b : t) : Size :=
  match storage_ b with
  | Unbounded s => UnboundedStorage.size s
  | QBuffer q => QBufferStorage.size q
  end.

Definition length (b : t) : Size :=
  match storage_ b with
  | Unbounded s => UnboundedStorage.length s
  | QBuffer q => QBufferStorage.length q
  end.

Definition minperiod (b : t) : Size := minperiod_ b.
Definition setMinperiod (mp : Size) (b : t) : t := mk (storage_ b) mp.
Definition updateMinperiod (mp : Size) (b : t) : t :=
  if (minperiod_ b <? mp)%nat then mk (storage_ b) mp else b.

(** [current()]: the const [operator[]] at offset 0. *)
Definition current (b : t) : outcome Value := index_const b 0.

Definition ready (b : t) : bool := (minperiod_ b <=? length b)%nat.

(** [isValidIndex(buf, idx)]: the buffer is read twice inside a [try]
    whose [catch (...)] returns [false]. *)
Definition isValidIndex (buf : t) (idx : Index) : bool :=
  match index_const buf idx with
  | Throws _ => false
  | Returns _ =>
      match index_const buf idx with
      | Returns v => negb (is_nan v)
      | Throws _ => false
      end
  end.

End LineBuffer.

(** ** simd.hpp *)

Module simd.

Local Open Scope float_scope.

(** [BT_SIMD_LEVEL], fixed when the library is compiled: 256 and above
    select the AVX routines, 128 the SSE2 ones, 0 the scalar ones. *)
Inductive level : Set := Scalar | SSE2 | AVX.

(** [data[i]] on an array held as a list. *)
Definition rd (data : list Value) (i : nat) : Value := nth i data NaN.

(** [static_cast<double>(n)] for a [Size]. *)
Definition Value_of_Size (n : Size) : Value :=
  of_uint63 (Uint63.of_Z (Z.of_nat n)).

Definition sumScalar (data : list Value) (count : Size) : Value :=
  for_loop 0 count (fun i result => result + rd data i) 0.

(** Two lanes; [vsum] is the pair of lane accumulators. *)
Definition sumSSE (data : list Value) (count : Size) : Value :=
  let simdCount := (count - count mod 2)%nat in
  let vsum :=
    for_range 0 (simdCount / 2)
      (fun j '(v0, v1) =>
         let i := (2 * j)%nat in (v0 + rd data i, v1 + rd data (i + 1)))
      (0, 0) in
  let result := fst vsum + snd vsum in
  for_loop simdCount count (fun i result => result + rd data i) result.

(** Four lanes; the horizontal sum adds the high half onto the low half
    and then the two remaining lanes. *)
Definition sumAVX (data : list Value) (count : Size) : Value :=
  let simdCount := (count - count mod 4)%nat in
  let vsum :=
    for_range 0 (simdCount / 4)
      (fun j '(v0, v1, v2, v3) =>
         let i := (4 * j)%nat in
         (v0 + rd data i, v1 + rd data (i + 1),
          v2 + rd data (i + 2), v3 + rd data (i + 3)))
      (0, 0, 0, 0) in
  let '(v0, v1, v2, v3) := vsum in
  let vlow := (v0 + v2, v1 + v3) in
  let result := fst vlow + snd vlow in
  for_loop simdCount count (fun i result => result + rd data i) result.

Definition sum (lvl : level) (data : list Value) (count : Size) : Value :=
  match lvl with
  | AVX => sumAVX data count
  | SSE2 => sumSSE data count
  | Scalar => sumScalar data count
  end.

(** The kernels write into a caller-supplied [result] array; the array
    after the call is returned.  [dataLen] is the length of [data]. *)
Definition slidingSum (lvl : level) (data result : list Value)
    (dataLen window : Size) : list Value :=
  if (dataLen =? 0)%nat || (window =? 0)%nat then result else
  let result :=
    for_loop 0 (Nat.min (window - 1) dataLen) (fun i r => <[i := NaN]> r) result in
  if (dataLen <? window)%nat then result else
  let windowSum := sum lvl data window in
  let result := <[(window - 1)%nat := windowSum]> result in
  snd (for_loop window dataLen
         (fun i '(windowSum, r) =>
            let windowSum := windowSum - rd data (i - window) + rd data i in
            (windowSum, <[i := windowSum]> r))
         (windowSum, result)).

Definition slidingMean (lvl : level) (data result : list Value)
    (dataLen window : Size) : list Value :=
  let result := slidingSum lvl data result dataLen window in
  let divisor := Value_of_Size window in
  (* [i] starts at [window - 1], which is SIZE_MAX when [window = 0]:
     the loop then has no iteration. *)
  if (window =? 0)%nat then result else
  for_loop (window - 1) dataLen (fun i r => <[i := rd r i / divisor]> r) result.

Definition ema (lvl : level) (data result : list Value)
    (dataLen period : Size) : list Value :=
  if (dataLen =? 0)%nat || (period =? 0)%nat then result else
  let alpha := 2 / (Value_of_Size period + 1) in
  let result :=
    for_loop 0 (Nat.min (period - 1) dataLen) (fun i r => <[i := NaN]> r) result in
  if (dataLen <? period)%nat then result else
  let result :=
    <[(period - 1)%nat := sum lvl data period / Value_of_Size period]> result in
  let oneMinusAlpha := 1 - alpha in
  for_loop period dataLen
    (fun i r => <[i := alpha * rd data i + oneMinusAlpha * rd r (i - 1)]> r)
    result.

(** [std::vector<double> v(n)]: [n] zeros. *)
Definition zeros (n : Size) : list Value := replicate n 0.

(** [simd::rsi].  With [period > dataLen] the loop that sets
    [result[0 .. period-1]] to NaN runs past the [dataLen] elements of
    [result], which is undefined in C++; here those writes are dropped. *)
Definition rsi (lvl : level) (data result : list Value)
    (dataLen period : Size) : list Value :=
  if (dataLen <? 2)%nat || (period =? 0)%nat
  then for_loop 0 dataLen (fun i r => <[i := NaN]> r) result
  else
  let changes :=
    for_loop 0 (dataLen - 1)
      (fun i c => <[i := rd data (i + 1) - rd data i]> c) (zeros (dataLen - 1)) in
  let '(gains, losses) :=
    for_loop 0 (dataLen - 1)
      (fun i '(g, l) =>
         (<[i := if 0 <? rd changes i then rd changes i else 0]> g,
          <[i := if rd changes i <? 0 then - rd changes i else 0]> l))
      (zeros (dataLen - 1), zeros (dataLen - 1)) in
  let avgGain := ema lvl gains (zeros (dataLen - 1)) (dataLen - 1) period in
  let avgLoss := ema lvl losses (zeros (dataLen - 1)) (dataLen - 1) period in
  let result := for_loop 0 period (fun i r => <[i := NaN]> r) result in
  for_loop period dataLen
    (fun i r =>
       let idx := (i - 1)%nat in
       if (idx <? period - 1)%nat then <[i := NaN]> r else
       let ag := rd avgGain idx in
       let al := rd avgLoss idx in
       if al =? 0 then <[i := 100]> r
       else if ag =? 0 then <[i := 0]> r
       else let rs := ag / al in <[i := 100 - 100 / (1 + rs)]> r)
    result.

(** The element-wise kernels.  At the AVX level each has a vector loop
    that loads four lanes at [i], applies the packed operation and stores
    the four results, and a scalar loop for the elements left; at the SSE2
    level the same with two lanes.  [packed i] is the value the vector
    loop stores at [i] and [tail i] the value the scalar loop stores. *)
Definition lanesAVX (packed tail : nat -> Value) (result : list Value) (count : Size)
    : list Value :=
  let simdCount := (count - count mod 4)%nat in
  let result :=
    for_range 0 (simdCount / 4)
      (fun j r =>
         let i := (4 * j)%nat in
         <[(i + 3)%nat := packed (i + 3)%nat]>
           (<[(i + 2)%nat := packed (i + 2)%nat]>
              (<[(i + 1)%nat := packed (i + 1)%nat]> (<[i := packed i]> r))))
      result in
  for_loop simdCount count (fun i r => <[i := tail i]> r) result.

Definition lanesSSE (packed tail : nat -> Value) (result : list Value) (count : Size)
    : list Value :=
  let simdCount := (count - count mod 2)%nat in
  let result :=
    for_range 0 (simdCount / 2)
      (fun j r =>
         let i := (2 * j)%nat in
         <[(i + 1)%nat := packed (i + 1)%nat]> (<[i := packed i]> r))
      result in
  for_loop simdCount count (fun i r => <[i := tail i]> r) result.

Definition addAVX (a b result : list Value) (count : Size) : list Value :=
  lanesAVX (fun i => rd a i + rd b i) (fun i => rd a i + rd b i) result count.
Definition subAVX (a b result : list Value) (count : Size) : list Value :=
  lanesAVX (fun i => rd a i - rd b i) (fun i => rd a i - rd b i) result count.
Definition mulAVX (a b result : list Value) (count : Size) : list Value :=
  lanesAVX (fun i => rd a i * rd b i) (fun i => rd a i * rd b i) result count.
(** Only the scalar loop of [divAVX] and [divSSE] tests the divisor. *)
Definition divAVX (a b result : list Value) (count : Size) : list Value :=
  lanesAVX (fun i => rd a i / rd b i)
           (fun i => if negb (rd b i =? 0) then rd a i / rd b i else NaN) result count.
Definition mulScalarAVX (a : list Value) (scalar : Value) (result : list Value)
    (count : Size) : list Value :=
  lanesAVX (fun i => rd a i * scalar) (fun i => rd a i * scalar) result count.

Definition addSSE (a b result : list Value) (count : Size) : list Value :=
  lanesSSE (fun i => rd a i + rd b i) (fun i => rd a i + rd b i) result count.
Definition subSSE (a b result : list Value) (count : Size) : list Value :=
  lanesSSE (fun i => rd a i - rd b i) (fun i => rd a i - rd b i) result count.
Definition mulSSE (a b result : list Value) (count : Size) : list Value :=
  lanesSSE (fun i => rd a i * rd b i) (fun i => rd a i * rd b i) result count.
Definition divSSE (a b result : list Value) (count : Size) : list Value :=
  lanesSSE (fun i => rd a i / rd b i)
           (fun i => if negb (rd b i =? 0) then rd a i / rd b i else NaN) result count.
Definition mulScalarSSE (a : list Value) (scalar : Value) (result : list Value)
    (count : Size) : list Value :=
  lanesSSE (fun i => rd a i * scalar) (fun i => rd a i * scalar) result count.

Definition addScalar (a b result : list Value) (count : Size) : list Value :=
  for_loop 0 count (fun i r => <[i := rd a i + rd b i]> r) result.
Definition subScalar (a b result : list Value) (count : Size) : list Value :=
  for_loop 0 count (fun i r => <[i := rd a i - rd b i]> r) result.
Definition mulScalar (a b result : list Value) (count : Size) : list Value :=
  for_loop 0 count (fun i r => <[i := rd a i * rd b i]> r) result.
Definition divScalar (a b result : list Value) (count : Size) : list Value :=
  for_loop 0 count
    (fun i r => <[i := if negb (rd b i =? 0) then rd a i / rd b i else NaN]> r) result.
Definition mulScalarVal (a : list Value) (scalar : Value) (result : list Value)
    (count : Size) : list Value :=
  for_loop 0 count (fun i r => <[i := rd a i * scalar]> r) result.

(** The unified interface: the implementation of the compiled level. *)
Definition add (lvl : level) (a b result : list Value) (count : Size) : list Value :=
  match lvl with
  | AVX => addAVX a b result count
  | SSE2 => addSSE a b result count
  | Scalar => addScalar a b result count
  end.
Definition sub (lvl : level) (a b result : list Value) (count : Size) : list Value :=
  match lvl with
  | AVX => subAVX a b result count
  | SSE2 => subSSE a b result count
  | Scalar => subScalar a b result count
  end.
Definition mul (lvl : level) (a b result : list Value) (count : Size) : list Value :=
  match lvl with
  | AVX => mulAVX a b result count
  | SSE2 => mulSSE a b result count
  | Scalar => mulScalar a b result count
  end.
Definition div (lvl : level) (a b result : list Value) (count : Size) : list Value :=
  match lvl with
  | AVX => divAVX a b result count
  | SSE2 => divSSE a b result count
  | Scalar => divScalar a b result count
  end.
Definition mulByScalar (lvl : level) (a : list Value) (scalar : Value)
    (result : list Value) (count : Size) : list Value :=
  match lvl with
  | AVX => mulScalarAVX a scalar result count
  | SSE2 => mulScalarSSE a scalar result count
  | Scalar => mulScalarVal a scalar result count
  end.

(** [simd::max] and [simd::min]. *)
Definition max (data : list Value) (count : Size) : Value :=
  if (count =? 0)%nat then NaN else
  for_loop 1 count (fun i result => if result <? rd data i then rd data i else result)
    (rd data 0).

Definition min (data : list Value) (count : Size) : Value :=
  if (count =? 0)%nat then NaN else
  for_loop 1 count (fun i result => if rd data i <? result then rd data i else result)
    (rd data 0).

End simd.

(** ** Indicators *)

(** [static_cast<double>(n)] for an [int]. *)
Definition Value_of_int (n : Z) : Value :=
  if (n <? 0)%Z then (- of_uint63 (Uint63.of_Z (- n)))%float
  else of_uint63 (Uint63.of_Z n).

(** ** indicators/sma.hpp *)

Module SMA.

Local Open Scope float_scope.

(** The state an SMA works on: its [period] parameter, the bound input
    line [singleLine_] (owned and moved by the caller) and its output line
    [lines0()], which [addLine] creates unbounded. *)

(** [Indicator::dataValue(idx)] with a single line bound: the mutable
    [operator[]] of the pointed-to buffer. *)
Definition dataValue (singleLine_ : LineBuffer.t) (idx : Index) : outcome Value :=
  LineBuffer.index_mut singleLine_ idx.

(** [SMA::next()]. *)
Definition next (period : Z) (singleLine_ : LineBuffer.t)
    (lines0 : UnboundedStorage.t) : outcome UnboundedStorage.t :=
  let sum :=
    for_range 0 (Z.to_nat period)
      (fun i acc =>
         match acc with
         | Returns sum =>
             match dataValue singleLine_ (Z.of_nat i) with
             | Returns v => Returns (sum + v)
             | Throws e => Throws e
             end
         | Throws e => Throws e
         end)
      (Returns 0) in
  match sum with
  | Returns sum => Returns (UnboundedStorage.push_back (sum / Value_of_int period) lines0)
  | Throws e => Throws e
  end.

(** [Indicator::once(start, end)], the default: [next(); advance();] per
    index, where [advance] moves the indicator's own lines. *)
Definition Indicator_once (period : Z) (singleLine_ : LineBuffer.t)
    (lines0 : UnboundedStorage.t) (start end_ : Size) : outcome UnboundedStorage.t :=
  for_loop start end_
    (fun _ acc =>
       match acc with
       | Returns l =>
           match next period singleLine_ l with
           | Returns l' => Returns (UnboundedStorage.advance l')
           | Throws e => Throws e
           end
       | Throws e => Throws e
       end)
    (Returns lines0).

(** [SMA::once(start, end)]. *)
Definition once (lvl : simd.level) (period : Z) (singleLine_ : LineBuffer.t)
    (lines0 : UnboundedStorage.t) (start end_ : Size) : outcome UnboundedStorage.t :=
  match LineBuffer.rawData singleLine_ with
  | None | Some [] => Indicator_once period singleLine_ lines0 start end_
  | Some rawInput =>
      let len := length rawInput in
      (* [static_cast<Size>(period)] of a negative [int] exceeds every length *)
      if (period <? 0)%Z then Returns lines0 else
      if (len <? Z.to_nat period)%nat then Returns lines0 else
      let tempOutput :=
        simd.slidingMean lvl rawInput (simd.zeros len) len (Z.to_nat period) in
      (* [i] starts at [period - 1] as a [Size]: SIZE_MAX when [period = 0] *)
      if (period =? 0)%Z then Returns lines0 else
      Returns (for_loop (Z.to_nat period - 1) len
                 (fun i l => UnboundedStorage.push_back (simd.rd tempOutput i) l)
                 lines0)
  end.

(** Event-driven use, as the indicator tests drive it: the input cursor
    is taken home and advanced [period - 1] times, to the first bar with
    a full window; then [next()] and an advance of the input, [calls]
    times. *)
Definition position_input (period : Z) (input : LineBuffer.t) : LineBuffer.t :=
  for_loop 0 (Z.to_nat (period - 1)) (fun _ b => LineBuffer.advance b)
    (LineBuffer.home input).

Definition run_next_from (period : Z) (calls : nat) (input : LineBuffer.t)
    (lines0 : UnboundedStorage.t) : outcome UnboundedStorage.t :=
  snd (for_range 0 calls
         (fun _ '(b, acc) =>
            (LineBuffer.advance b,
             match acc with
             | Returns l => next period b l
             | Throws e => Throws e
             end))
         (input, Returns lines0)).

Definition run_next (period : Z) (calls : nat) (input : LineBuffer.t)
    (lines0 : UnboundedStorage.t) : outcome UnboundedStorage.t :=
  run_next_from period calls (position_input period input) lines0.

End SMA.

(** ** indicators/rsi.hpp *)

Module RSI.

Local Open Scope float_scope.

(** The private members of [RSI]. *)
Record t : Set := mk {
  alpha_ : Value;
  avgGain_ : Value;
  avgLoss_ : Value;
  sumGain_ : Value;
  sumLoss_ : Value;
  initialized_ : bool;
  barCount_ : Size
}.

(** The member initialisers of a fresh object. *)
Definition fresh : t := mk 0 0 0 0 0 false 0.

(** [RSI::init()]. *)
Definition init (period : Z) (r : t) : t :=
  mk (1 / Value_of_int period) 0 0 (sumGain_ r) (sumLoss_ r) false 0.

(** [RSI::next()]: the new members and output line. *)
Definition next (period : Z) (singleLine_ : LineBuffer.t) (r : t)
    (lines0 : UnboundedStorage.t) : outcome (t * UnboundedStorage.t) :=
  match LineBuffer.index_mut singleLine_ 0 with
  | Throws e => Throws e
  | Returns current =>
  match LineBuffer.index_mut singleLine_ 1 with
  | Throws e => Throws e
  | Returns prev =>
    let change := current - prev in
    let gain := if 0 <? change then change else 0 in
    let loss := if change <? 0 then - change else 0 in
    let barCount := S (barCount_ r) in
    if negb (initialized_ r) then
      let sumGain := sumGain_ r + gain in
      let sumLoss := sumLoss_ r + loss in
      if (Z.to_nat period <=? barCount)%nat && (0 <=? period)%Z then
        let avgGain := sumGain / Value_of_int period in
        let avgLoss := sumLoss / Value_of_int period in
        let rsi :=
          if avgLoss =? 0 then 100
          else let rs := avgGain / avgLoss in 100 - 100 / (1 + rs) in
        Returns (mk (alpha_ r) avgGain avgLoss sumGain sumLoss true barCount,
                 UnboundedStorage.push_back rsi lines0)
      else
        Returns (mk (alpha_ r) (avgGain_ r) (avgLoss_ r) sumGain sumLoss false barCount,
                 UnboundedStorage.push_back NaN lines0)
    else
      (* Wilder smoothing *)
      let avgGain := alpha_ r * gain + (1 - alpha_ r) * avgGain_ r in
      let avgLoss := alpha_ r * loss + (1 - alpha_ r) * avgLoss_ r in
      let rsi :=
        if avgLoss =? 0 then 100
        else let rs := avgGain / avgLoss in 100 - 100 / (1 + rs) in
      Returns (mk (alpha_ r) avgGain avgLoss (sumGain_ r) (sumLoss_ r) true barCount,
               UnboundedStorage.push_back rsi lines0)
  end
  end.

(** [RSI::once(start, end)] on an unbounded input: the kernel's array with
    its first [period] slots erased. *)
Definition once (lvl : simd.level) (period : nat) (rawInput : list Value) : list Value :=
  let len := length rawInput in
  let rawOutput := simd.rsi lvl rawInput (simd.zeros len) len period in
  let validStart := period in
  (* [len - validStart] is unsigned: it wraps above every size when
     [validStart > len], and nothing is erased then *)
  if (0 <? validStart)%nat && (validStart <=? len)%nat
     && (len - validStart <? length rawOutput)%nat
  then drop validStart rawOutput else rawOutput.

(** Event-driven use: [next()] once per bar, the input cursor advanced after
    each call, starting from the given cursor position. *)
Definition run_next (period : Z) (calls : nat) (input : LineBuffer.t)
    : outcome (t * UnboundedStorage.t) :=
  snd (for_range 0 calls
         (fun _ '(b, acc) =>
            (LineBuffer.advance b,
             match acc with
             | Returns (r, l) => next period b r l
             | Throws e => Throws e
             end))
         (input, Returns (init period fresh, UnboundedStorage.init))).

End RSI.

(** ** indicator.hpp: operations on lines *)

Module LineOp.

Local Open Scope float_scope.

Inductive OpType : Set :=
| Add | Sub | Mul | Div
| Gt | Lt | Ge | Le | Eq | Ne
| And | Or | Not
| Max | Min | Abs | Neg.

(** [LineOp::compute]; [std::max(l, r)] is [(l < r) ? r : l] and
    [std::min(l, r)] is [(r < l) ? r : l]. *)
Definition compute (op_ : OpType) (l r : Value) : Value :=
  match op_ with
  | Add => l + r
  | Sub => l - r
  | Mul => l * r
  | Div => if negb (r =? 0) then l / r else NaN
  | Gt => if r <? l then 1 else 0
  | Lt => if l <? r then 1 else 0
  | Ge => if r <=? l then 1 else 0
  | Le => if l <=? r then 1 else 0
  | Eq => if l =? r then 1 else 0
  | Ne => if negb (l =? r) then 1 else 0
  | And => if negb (l =? 0) && negb (r =? 0) then 1 else 0
  | Or => if negb (l =? 0) || negb (r =? 0) then 1 else 0
  | Max => if l <? r then r else l
  | Min => if r <? l then r else l
  | _ => NaN
  end.

(** [LineOp::next()]: the left line, and the right line or the constant
    when no right line is bound, read at offset 0 through the mutable
    [operator[]]. *)
Definition next (op_ : OpType) (left_ : LineBuffer.t) (right_ : option LineBuffer.t)
    (rightValue_ : Value) (lines0 : UnboundedStorage.t) : outcome UnboundedStorage.t :=
  match LineBuffer.index_mut left_ 0 with
  | Throws e => Throws e
  | Returns l =>
      match
        match right_ with
        | Some line => LineBuffer.index_mut line 0
        | None => Returns rightValue_
        end
      with
      | Throws e => Throws e
      | Returns r => Returns (UnboundedStorage.push_back (compute op_ l r) lines0)
      end
  end.

(** The value [LineUnaryOp::next()] pushes for the input value [v]. *)
Definition unary (op_ : OpType) (v : Value) : Value :=
  match op_ with
  | Neg => - v
  | Abs => abs v
  | Not => if v =? 0 then 1 else 0
  | _ => NaN
  end.

End LineOp.

(** ** indicators/ema.hpp *)

Module EMA.

Local Open Scope float_scope.

(** The private members of [EMA]. *)
Record t : Set := mk {
  alpha_ : Value;
  prevEma_ : Value;
  initialized_ : bool
}.

(** The member initialisers of a fresh object. *)
Definition fresh : t := mk 0 0 false.

(** [EMA::init()]: [period + 1] is computed in [int]. *)
Definition init (period : Z) (r : t) : t :=
  mk (2 / Value_of_int (period + 1)) (prevEma_ r) false.

(** [Indicator::dataValue(idx)] with a single line bound. *)
Definition dataValue (singleLine_ : LineBuffer.t) (idx : Index) : outcome Value :=
  LineBuffer.index_mut singleLine_ idx.

(** [EMA::next()]: the new members and output line. *)
Definition next (period : Z) (singleLine_ : LineBuffer.t) (r : t)
    (lines0 : UnboundedStorage.t) : outcome (t * UnboundedStorage.t) :=
  match dataValue singleLine_ 0 with
  | Throws e => Throws e
  | Returns current =>
      let prevEma :=
        if negb (initialized_ r) then
          (* the first value is seeded with the SMA *)
          let sum :=
            for_range 0 (Z.to_nat period)
              (fun i acc =>
                 match acc with
                 | Returns sum =>
                     match dataValue singleLine_ (Z.of_nat i) with
                     | Returns v => Returns (sum + v)
                     | Throws e => Throws e
                     end
                 | Throws e => Throws e
                 end)
              (Returns 0) in
          match sum with
          | Returns sum => Returns (sum / Value_of_int period)
          | Throws e => Throws e
          end
        else Returns (prevEma_ r) in
      match prevEma with
      | Throws e => Throws e
      | Returns prevEma =>
          let ema := alpha_ r * current + (1 - alpha_ r) * prevEma in
          Returns (mk (alpha_ r) ema true, UnboundedStorage.push_back ema lines0)
      end
  end.

(** Event-driven use: [init()], then [next()] once per bar, the input
    cursor advanced after each call. *)
Definition run_next (period : Z) (calls : nat) (input : LineBuffer.t)
    : outcome (t * UnboundedStorage.t) :=
  snd (for_range 0 calls
         (fun _ '(b, acc) =>
            (LineBuffer.advance b,
             match acc with
             | Returns (r, l) => next period b r l
             | Throws e => Throws e
             end))
         (input, Returns (init period fresh, UnboundedStorage.init))).

End EMA.

(** ** order.hpp *)

Inductive OrderType : Set :=
| Market | Close | Limit | Stop | StopLimit | StopTrail | StopTrailLimit | Historical.

Inductive OrderSide : Set := Buy | Sell.

Inductive OrderStatus : Set :=
| Created | Submitted | Accepted | Partial | Completed
| Canceled | Expired | Margin | Rejected.

Definition OrderStatus_eqb (a b : OrderStatus) : bool :=
  match a, b with
  | Created, Created | Submitted, Submitted | Accepted, Accepted
  | Partial, Partial | Completed, Completed | Canceled, Canceled
  | Expired, Expired | Margin, Margin | Rejected, Rejected => true
  | _, _ => false
  end.

(** [static_cast<Size>(v)] for a [double]: truncation toward zero.  The
    conversion is undefined in C++ for negative, infinite and NaN values;
    the model gives 0 there. *)
Definition Size_of_Value (v : Value) : Size :=
  match Prim2SF v with
  | S754_finite false m e =>
      Z.to_nat (if (0 <=? e)%Z then Z.pos m * 2 ^ e else Z.pos m / 2 ^ (- e))%Z
  | _ => 0
  end.

Module Order.

Record OrderExecInfo : Set := mkExecInfo {
  exec_price : Value;
  exec_size : Value;
  exec_value : Value;
  exec_commission : Value;
  exec_pnl : Value;
  exec_barIndex : Size
}.

(** The members of [Order] that the broker reads and writes. *)
Record t : Set := mk {
  ref_ : Size;
  side_ : OrderSide;
  type_ : OrderType;
  status_ : OrderStatus;
  size_ : Value;
  price_ : Value;
  data_ : string;
  execInfo_ : OrderExecInfo
}.

Definition isBuy (o : t) : bool :=
  match side_ o with Buy => true | Sell => false end.

Definition isAlive (o : t) : bool :=
  match status_ o with
  | Created | Submitted | Accepted | Partial => true
  | _ => false
  end.

Definition setStatus (status : OrderStatus) (o : t) : t :=
  mk (ref_ o) (side_ o) (type_ o) status (size_ o) (price_ o) (data_ o) (execInfo_ o).

End Order.

(** [OrderData] of order.hpp: the accumulated execution data. *)
Module OrderData.

Local Open Scope float_scope.

(** [OrderExecutionBit]: one (partial) execution.  Its fields are, in
    order, the arguments of its constructor and of [OrderData::add]. *)
Record OrderExecutionBit : Set := mkBit {
  bit_dt : Value;
  bit_size : Value;
  bit_price : Value;
  bit_closed : Value;
  bit_closedValue : Value;
  bit_closedComm : Value;
  bit_opened : Value;
  bit_openedValue : Value;
  bit_openedComm : Value;
  bit_pnl : Value;
  bit_psize : Value;
  bit_pprice : Value
}.

Record t : Set := mk {
  dt : Value;
  size : Value;
  remsize : Value;
  price : Value;
  value : Value;
  margin : Value;
  pnl : Value;
  psize : Value;
  pprice : Value;
  closed : Value;
  closedValue : Value;
  closedComm : Value;
  opened : Value;
  openedValue : Value;
  openedComm : Value;
  comm : Value;
  exbits : list OrderExecutionBit
}.

(** The default member initialisers. *)
Definition init : t := mk 0 0 0 0 0 0 0 0 0 0 0 0 0 0 0 0 [].

(** [OrderData::add], called with the fields of [bit]. *)
Definition add (bit : OrderExecutionBit) (d : t) : t :=
  let sz := bit_size bit in
  let pr := bit_price bit in
  let exbits := exbits d ++ [bit] in
  (* Update aggregate values *)
  let '(price, size) :=
    if negb (is_nan sz) && negb (sz =? 0) then
      (if size d =? 0 then pr else (size d * price d + sz * pr) / (size d + sz),
       size d + sz)
    else (price d, size d) in
  let remsize := abs (remsize d - sz) in
  let closed := closed d + bit_closed bit in
  let closedValue := closedValue d + bit_closedValue bit in
  let closedComm := closedComm d + bit_closedComm bit in
  let opened := opened d + bit_opened bit in
  let openedValue := openedValue d + bit_openedValue bit in
  let openedComm := openedComm d + bit_openedComm bit in
  mk (bit_dt bit) size remsize price (size * price) (margin d) (pnl d + bit_pnl bit)
     (bit_psize bit) (bit_pprice bit) closed closedValue closedComm
     opened openedValue openedComm (closedComm + openedComm) exbits.

End OrderData.

(** [Order::execute] and [Order::trailAdjust] of order.hpp. *)
Module OrderExecution.

Local Open Scope float_scope.

(** The members of [Order] that [execute] reads and writes. *)
Record t : Set := mk {
  executed_ : OrderData.t;
  execInfo_ : Order.OrderExecInfo;
  status_ : OrderStatus
}.

(** A new order: no execution data, [Created]. *)
Definition init : t := mk OrderData.init (Order.mkExecInfo 0 0 0 0 0 0) Created.

(** [Order::execute]; its arguments are the fields of [bit], with
    [marginUsed] between [openedComm] and [pnl]. *)
Definition execute (bit : OrderData.OrderExecutionBit) (marginUsed : Value) (o : t) : t :=
  if OrderData.bit_size bit =? 0 then o else
  let e := OrderData.add bit (executed_ o) in
  let e :=
    OrderData.mk (OrderData.dt e) (OrderData.size e) (OrderData.remsize e)
      (OrderData.price e) (OrderData.value e) marginUsed (OrderData.pnl e)
      (OrderData.psize e) (OrderData.pprice e) (OrderData.closed e)
      (OrderData.closedValue e) (OrderData.closedComm e) (OrderData.opened e)
      (OrderData.openedValue e) (OrderData.openedComm e) (OrderData.comm e)
      (OrderData.exbits e) in
  (* Update legacy exec info *)
  let info :=
    Order.mkExecInfo (OrderData.price e) (OrderData.size e) (OrderData.value e)
      (OrderData.comm e) (OrderData.pnl e) (Order.exec_barIndex (execInfo_ o)) in
  (* Update status *)
  mk e info (if 0 <? OrderData.remsize e then Partial else Completed).

(** The members of [Order] that [trailAdjust] reads and writes;
    [created_price] is [created_.price]. *)
Record trail : Set := mkTrail {
  side_ : OrderSide;
  type_ : OrderType;
  trailAmount_ : Value;
  trailPercent_ : Value;
  limitOffset_ : Value;
  limitPrice_ : Value;
  created_price : Value
}.

Definition isStopTrailLimit (ty : OrderType) : bool :=
  match ty with StopTrailLimit => true | _ => false end.

(** [Order::trailAdjust]. *)
Definition trailAdjust (currentPrice : Value) (o : trail) : trail :=
  let pamount :=
    if 0 <? trailAmount_ o then trailAmount_ o
    else if 0 <? trailPercent_ o then currentPrice * trailPercent_ o
    else 0 in
  if pamount =? 0 then o else
  let moved (newPrice : Value) :=
    mkTrail (side_ o) (type_ o) (trailAmount_ o) (trailPercent_ o) (limitOffset_ o)
      (if isStopTrailLimit (type_ o) then newPrice - limitOffset_ o else limitPrice_ o)
      newPrice in
  match side_ o with
  | Buy =>
      let newPrice := currentPrice + pamount in
      if (created_price o =? 0) || (newPrice <? created_price o)
      then moved newPrice else o
  | Sell =>
      let newPrice := currentPrice - pamount in
      if (created_price o =? 0) || (created_price o <? newPrice)
      then moved newPrice else o
  end.

End OrderExecution.

(** [Position] of order.hpp. *)
Module Position.

Local Open Scope float_scope.

Record t : Set := mk { size_ : Value; price_ : Value }.

Definition init : t := mk 0 0.

Definition update (deltaSize execPrice : Value) (p : t) : t :=
  if size_ p =? 0 then
    mk deltaSize execPrice
  else if ((0 <? size_ p) && (0 <? deltaSize)) || ((size_ p <? 0) && (deltaSize <? 0)) then
    (* Adding to position - calculate average price *)
    let totalValue := size_ p * price_ p + deltaSize * execPrice in
    let size := size_ p + deltaSize in
    mk size (totalValue / size)
  else
    (* Reducing position *)
    let size := size_ p + deltaSize in
    if abs size <? 1e-10 then mk 0 0 else mk size (price_ p).

Definition close (p : t) : t := mk 0 0.

End Position.

(** [Trade] of order.hpp. *)
Module Trade.

Local Open Scope float_scope.

Record t : Set := mk {
  ref : Size;
  dataName : string;
  barOpen : Size;
  barClose : Size;
  priceOpen : Value;
  priceClose : Value;
  price : Value;
  size : Value;
  pnl : Value;
  pnlComm : Value;
  commission : Value;
  isLong : bool;
  isOpen : bool
}.

(** The default member initialisers. *)
Definition init : t := mk 0 "" 0 0 0 0 0 0 0 0 0 true true.

Definition close (bar : Size) (closePrice comm : Value) (tr : t) : t :=
  let commission := commission tr + comm in
  let pnl :=
    if isLong tr then (closePrice - priceOpen tr) * abs (size tr)
    else (priceOpen tr - closePrice) * abs (size tr) in
  mk (ref tr) (dataName tr) (barOpen tr) bar (priceOpen tr) closePrice
     (price tr) (size tr) pnl (pnl - commission) commission (isLong tr) false.

End Trade.

(** ** comminfo.hpp *)

Module CommInfo.

Local Open Scope float_scope.

Inductive CommType : Set := Percentage | Fixed | PerTrade.

(** The parameters that [getCommission] reads. *)
Record Params : Set := mkParams {
  commission : Value;
  mult : Value;
  commtype : CommType;
  percabs : bool
}.

Definition getCommissionRate (params_ : Params) : Value :=
  match commtype params_ with
  | Percentage => if percabs params_ then commission params_ else commission params_ / 100
  | _ => 0
  end.

Definition getCommission (params_ : Params) (size price : Value) : Value :=
  let size := abs size in
  match commtype params_ with
  | Percentage => size * price * mult params_ * getCommissionRate params_
  | Fixed => size * commission params_
  | PerTrade => commission params_
  end.

(** [CommInfoStock(commission, percabs)]. *)
Definition CommInfoStock (commission : Value) (percabs : bool) : Params :=
  mkParams commission 1 Percentage percabs.

End CommInfo.

(** ** broker.hpp, broker.cpp *)

Module Broker.

Local Open Scope float_scope.

Record SlippageConfig : Set := mkSlip {
  perc : Value;
  fixed : Value;
  slipOpen : bool;
  slipMatch : bool;
  slipLimit : bool;
  slipOut : bool
}.

Definition noSlippage : SlippageConfig := mkSlip 0 0 false true true false.

Record PositionInfo : Set := mkPos { size : Value; price : Value }.

(** What the broker reads of a registered data feed: the values of its
    lines at the cursor. *)
Record Bar : Set := mkBar {
  open : Value; high : Value; low : Value; close : Value; volume : Value
}.

Record t : Type := mk {
  slip : SlippageConfig;                          (* params_.slip *)
  cash_ : Value;
  orderId_ : Size;
  dataFeeds_ : gmap string Bar;
  positions_ : gmap string PositionInfo;
  orders_ : list Order.t;
  trades_ : list Trade.t;
  commInfo_ : option (Value -> Value -> Value);   (* getCommission(size, price) *)
  filler_ : option (Order.t -> Value -> Value -> Size)
}.

(** [DefaultFiller::fill]. *)
Definition DefaultFiller (order : Order.t) (_ _ : Value) : Size :=
  Size_of_Value (abs (Order.size_ order)).

Definition applySlippage (price : Value) (isBuy : bool) (slip : SlippageConfig) : Value :=
  let slipAmount :=
    if 0 <? perc slip then price * perc slip
    else if 0 <? fixed slip then fixed slip
    else 0 in
  (* Slippage goes against the trader *)
  if isBuy then price + slipAmount else price - slipAmount.

(** The position update inside [executeOrder]. *)
Definition updatePosition (isBuy : bool) (price size : Value) (pos : PositionInfo)
    : PositionInfo :=
  if isBuy then
    if 0 <=? Broker.size pos then
      let total := Broker.price pos * Broker.size pos + price * size in
      let sz := Broker.size pos + size in
      mkPos sz (if 0 <? sz then total / sz else 0)
    else
      let sz := Broker.size pos + size in
      mkPos sz (if 0 <=? sz then price else Broker.price pos)
  else
    if Broker.size pos <=? 0 then
      let total := Broker.price pos * abs (Broker.size pos) + price * size in
      let sz := Broker.size pos - size in
      mkPos sz (if sz <? 0 then total / abs sz else 0)
    else
      let sz := Broker.size pos - size in
      mkPos sz (if sz <=? 0 then (if sz <? 0 then price else 0) else Broker.price pos).

(** The trade record that [executeOrder] appends. *)
Definition tradeRecord (nTrades : Size) (data : string) (isBuy : bool)
    (price size comm oldSize : Value) (pos : PositionInfo) : Trade.t :=
  let tsize := if isBuy then size else - size in
  let wasFlat := oldSize =? 0 in
  let isFlat := Broker.size pos =? 0 in
  if negb wasFlat && isFlat then
    let pnl := (price - Broker.price pos) * abs oldSize in
    let pnl := if oldSize <? 0 then - pnl else pnl in
    Trade.mk (nTrades + 1) data 0 0 0 0 price tsize pnl (pnl - comm) comm true false
  else
    Trade.mk (nTrades + 1) data 0 0 0 0 price tsize 0 0 comm true true.

Definition executeOrder (b : t) (order : Order.t) (price : Value) (fillSize : Size)
    : t * Order.t :=
  let data := Order.data_ order in
  let size := simd.Value_of_Size fillSize in
  (* Commission *)
  let comm := match commInfo_ b with Some getCommission => getCommission size price | None => 0 end in
  (* Update cash *)
  let cost := price * size in
  let cash :=
    if Order.isBuy order then cash_ b - (cost + comm) else cash_ b + (cost - comm) in
  (* Update position: [positions_[data]] creates a flat entry when absent *)
  let pos := default (mkPos 0 0) (positions_ b !! data) in
  let oldSize := Broker.size pos in
  let pos := updatePosition (Order.isBuy order) price size pos in
  (* Trade record *)
  let trade :=
    tradeRecord (length (trades_ b)) data (Order.isBuy order) price size comm oldSize pos in
  let info := Order.execInfo_ order in
  (mk (slip b) cash (orderId_ b) (dataFeeds_ b) (<[data := pos]> (positions_ b))
      (orders_ b) (trades_ b ++ [trade]) (commInfo_ b) (filler_ b),
   Order.mk (Order.ref_ order) (Order.side_ order) (Order.type_ order) Completed
     (Order.size_ order) (Order.price_ order) (Order.data_ order)
     (Order.mkExecInfo price size (Order.exec_value info) comm
        (Order.exec_pnl info) (Order.exec_barIndex info))).

(** The [switch] of [tryExecute]: the chosen price when the order triggers
    on the bar. *)
Definition matchPrice (order : Order.t) (feed : Bar) : option Value :=
  match Order.type_ order with
  | Market => Some (open feed)
  | Limit =>
      if Order.isBuy order && (low feed <=? Order.price_ order) then
        Some (if open feed <? Order.price_ order then open feed else Order.price_ order)
      else if negb (Order.isBuy order) && (Order.price_ order <=? high feed) then
        Some (if Order.price_ order <? open feed then open feed else Order.price_ order)
      else None
  | _ => None
  end.

Definition tryExecute (b : t) (order : Order.t) : bool * (t * Order.t) :=
  match dataFeeds_ b !! Order.data_ order with
  | None => (false, (b, order))
  | Some feed =>
      match matchPrice order feed with
      | Some execPrice =>
          let fillSize := Size_of_Value (Order.size_ order) in
          (* Apply filler if available *)
          let fillSize :=
            match filler_ b with
            | Some fill => fill order execPrice (volume feed)
            | None => fillSize
            end in
          (* Apply slippage *)
          let execPrice := applySlippage execPrice (Order.isBuy order) (slip b) in
          (true, executeOrder b order execPrice fillSize)
      | None => (false, (b, order))
      end
  end.

(** [Broker::next]: every order still [Submitted] is tried, in order; the
    orders are the broker's own, so each is replaced by its new state. *)
Definition next (b : t) : t :=
  let '(b, done) :=
    foldl (fun '(b, done) order =>
             if OrderStatus_eqb (Order.status_ order) Submitted
             then let '(_, (b', order')) := tryExecute b order in (b', done ++ [order'])
             else (b, done ++ [order]))
          (b, []) (orders_ b) in
  mk (slip b) (cash_ b) (orderId_ b) (dataFeeds_ b) (positions_ b) done (trades_ b)
     (commInfo_ b) (filler_ b).

(** [Broker::buy] and [Broker::sell]: a new order, [Submitted], appended to
    the broker's orders. *)
Definition submit (side : OrderSide) (data : string) (size : Size) (price : Value)
    (type : OrderType) (b : t) : t :=
  let order :=
    Order.mk (S (orderId_ b)) side type Submitted (simd.Value_of_Size size) price data
      (Order.mkExecInfo 0 0 0 0 0 0) in
  mk (slip b) (cash_ b) (S (orderId_ b)) (dataFeeds_ b) (positions_ b)
     (orders_ b ++ [order]) (trades_ b) (commInfo_ b) (filler_ b).

Definition buy := submit Buy.
Definition sell := submit Sell.

(** The broker of [Broker(cash)], with a commission scheme and one feed
    registered. *)
Definition new (cash : Value) (commInfo : option (Value -> Value -> Value))
    (data : string) (feed : Bar) : t :=
  mk noSlippage cash 0 {[ data := feed ]} ∅ [] [] commInfo (Some DefaultFiller).

(** The cursor of a registered feed moves to another bar. *)
Definition feedMovesTo (data : string) (feed : Bar) (b : t) : t :=
  mk (slip b) (cash_ b) (orderId_ b) (<[data := feed]> (dataFeeds_ b)) (positions_ b)
     (orders_ b) (trades_ b) (commInfo_ b) (filler_ b).

(** [Broker::cancel]: every order with that reference that is still alive
    becomes [Canceled]. *)
Definition cancel (orderId : Size) (b : t) : t :=
  mk (slip b) (cash_ b) (orderId_ b) (dataFeeds_ b) (positions_ b)
     (map (fun order =>
             if (Order.ref_ order =? orderId)%nat && Order.isAlive order
             then Order.setStatus Canceled order else order)
          (orders_ b))
     (trades_ b) (commInfo_ b) (filler_ b).

(** [getPosition] and [getPositionPrice]: 0 for a feed without position. *)
Definition getPosition (data : string) (b : t) : Value :=
  match positions_ b !! data with Some pos => size pos | None => 0 end.
Definition getPositionPrice (data : string) (b : t) : Value :=
  match positions_ b !! data with Some pos => price pos | None => 0 end.

(** A call on the broker between two bars, or the move to the next bar. *)
Inductive op : Type :=
| OpBuy (data : string) (size : Size) (price : Value) (type : OrderType)
| OpSell (data : string) (size : Size) (price : Value) (type : OrderType)
| OpCancel (orderId : Size)
| OpNext
| OpFeed (data : string) (feed : Bar).

Definition exec (o : op) (b : t) : t :=
  match o with
  | OpBuy data size price type => buy data size price type b
  | OpSell data size price type => sell data size price type b
  | OpCancel orderId => cancel orderId b
  | OpNext => next b
  | OpFeed data feed => feedMovesTo data feed b
  end.

Definition run (os : list op) (b : t) : t := foldl (fun b o => exec o b) b os.

End Broker.

(** ** params.hpp *)

Module Params.

(** [ParamValue]: [std::variant<bool, int, long, double, std::string, std::nullptr_t>]. *)
Inductive ParamValue : Set :=
| PBool (b : bool)
| PInt (n : Z)
| PLong (n : Z)
| PDouble (v : Value)
| PString (s : string)
| PNull.

(** The alternative asked for by the template argument [T] of [get<T>]. *)
Inductive alt : Set := TBool | TInt | TLong | TDouble | TString | TNull.

Definition alt_type (T : alt) : Set :=
  match T with
  | TBool => bool
  | TInt | TLong => Z
  | TDouble => Value
  | TString => string
  | TNull => unit
  end.

(** The alternative a stored value holds. *)
Definition holds (v : ParamValue) : alt :=
  match v with
  | PBool _ => TBool
  | PInt _ => TInt
  | PLong _ => TLong
  | PDouble _ => TDouble
  | PString _ => TString
  | PNull => TNull
  end.

(** [ParamValue(value)] for a [value] of type [T]. *)
Definition inject (T : alt) : alt_type T -> ParamValue :=
  match T with
  | TBool => PBool
  | TInt => PInt
  | TLong => PLong
  | TDouble => PDouble
  | TString => PString
  | TNull => fun _ => PNull
  end.

(** [std::get<T>(v)]: throws [std::bad_variant_access] when [v] holds
    another alternative. *)
Definition std_get (T : alt) (v : ParamValue) : outcome (alt_type T) :=
  match T, v with
  | TBool, PBool b => Returns b
  | TInt, PInt n => Returns n
  | TLong, PLong n => Returns n
  | TDouble, PDouble x => Returns x
  | TString, PString s => Returns s
  | TNull, PNull => Returns tt
  | _, _ => Throws bad_variant_access
  end.

(** [params_]: [std::unordered_map<std::string, ParamValue>]. *)
Abbreviation t := (gmap string ParamValue) (only parsing).

Definition set (T : alt) (name : string) (value : alt_type T) (p : t) : t :=
  <[name := inject T value]> p.

(** [T get(const std::string& name) const]. *)
Definition get (T : alt) (name : string) (p : t) : outcome (alt_type T) :=
  match p !! name with
  | None => Throws (runtime_error ("Parameter not found: " +:+ name))
  | Some v => std_get T v
  end.

(** [T get(const std::string& name, T defaultValue) const]: the [catch (...)]
    around [std::get] returns the default. *)
Definition get_default (T : alt) (name : string) (defaultValue : alt_type T) (p : t)
    : alt_type T :=
  match p !! name with
  | None => defaultValue
  | Some v =>
      match std_get T v with
      | Returns x => x
      | Throws _ => defaultValue
      end
  end.

Definition has (name : string) (p : t) : bool :=
  match p !! name with Some _ => true | None => false end.

(** [merge] and [override]: a loop over the entries of [other]; [merge]
    writes a key only when it is absent, [override] always. *)
Definition merge (other p : t) : t :=
  map_fold (fun key value params_ =>
              match params_ !! key with
              | None => <[key := value]> params_
              | Some _ => params_
              end)
           p other.
Definition override (other p : t) : t :=
  map_fold (fun key value params_ => <[key := value]> params_) p other.

End Params.

(** ** threadpool.hpp: the parallel loops *)

(** [parallelForChunked(pool, start, end, chunkSize, f)]: the calls
    [f(i, chunkEnd)] that the loop
    [for (Size i = start; i < end; i += chunkSize)] submits to the pool, in
    the order of submission.  [i + chunkSize] and [i += chunkSize] are
    unsigned and wrap.  With [chunkSize = 0] the loop does not end: a loop
    still running when the fuel is spent gives [None]. *)
Fixpoint parallelForChunked (fuel : nat) (i end_ chunkSize : Size)
    (futures : list (Size * Size)) : option (list (Size * Size)) :=
  match fuel with
  | O => if (i <? end_)%nat then None else Some futures
  | S fuel' =>
      if (i <? end_)%nat then
        let chunkEnd := Nat.min (Size_add i chunkSize) end_ in
        parallelForChunked fuel' (Size_add i chunkSize) end_ chunkSize
          (futures ++ [(i, chunkEnd)])
      else Some futures
  end.

(** ** threadpool.hpp: [ParameterGrid] *)

Module ParameterGrid.

Import Params.

(** [ParamSet]: [std::map<std::string, ParamValue>]. *)
Abbreviation ParamSet := (gmap string ParamValue) (only parsing).

Record t : Set := mk {
  paramNames_ : list string;
  paramValues_ : list (list ParamValue)
}.

Definition init : t := mk [] [].

Definition addParam (name : string) (values : list ParamValue) (g : t) : t :=
  mk (paramNames_ g ++ [name]) (paramValues_ g ++ [values]).

(** [addParamInt(name, start, end, step)]: the loop
    [for (int v = start; v <= end; v += step) values.push_back(v)].
    [int] has 32 bits and its overflow is undefined; a loop that overflows
    or is still running when the fuel is spent gives [None]. *)
Definition INT_MIN : Z := (-2147483648)%Z.
Definition INT_MAX : Z := 2147483647%Z.

Fixpoint addParamInt_loop (fuel : nat) (v end_ step : Z) (values : list ParamValue)
    : option (list ParamValue) :=
  match fuel with
  | O => if (v <=? end_)%Z then None else Some values
  | S fuel' =>
      if (v <=? end_)%Z then
        let values := values ++ [PInt v] in
        let v := (v + step)%Z in
        if (INT_MIN <=? v)%Z && (v <=? INT_MAX)%Z
        then addParamInt_loop fuel' v end_ step values
        else None
      else Some values
  end.

Definition addParamInt (fuel : nat) (name : string) (start end_ step : Z) (g : t)
    : option t :=
  values ← addParamInt_loop fuel start end_ step []; Some (addParam name values g).

(** [total *= values.size()] is unsigned and wraps. *)
Definition totalCombinations (g : t) : Size :=
  foldl (fun total values => Size_mul total (length values)) 1 (paramValues_ g).

(** The assignment built from the current indices:
    [paramSet[paramNames_[j]] = paramValues_[j][indices[j]]] for each [j]. *)
Definition paramSetAt (g : t) (indices : list Size) : ParamSet :=
  for_loop 0 (length (paramNames_ g))
    (fun j paramSet =>
       <[nth j (paramNames_ g) "" := nth (nth j indices 0) (nth j (paramValues_ g) []) PNull]>
         paramSet)
    ∅.

(** The index update, [for (Size j = n; j > 0; --j)]: the index at [j - 1]
    is incremented, and the loop ends unless it ran past its value list, in
    which case it is reset and the loop goes on to the left. *)
Fixpoint updateIndices (g : t) (j : nat) (indices : list Size) : list Size :=
  match j with
  | O => indices
  | S idx =>
      let indices := <[idx := S (nth idx indices 0)]> indices in
      if nth idx indices 0 <? length (nth idx (paramValues_ g) [])
      then indices
      else updateIndices g idx (<[idx := 0]> indices)
  end.

Definition generate (g : t) : list ParamSet :=
  match paramNames_ g with
  | [] => []
  | _ :: _ =>
      let totalCombinations :=
        foldl (fun total values => Size_mul total (length values)) 1 (paramValues_ g) in
      let indices := replicate (length (paramNames_ g)) 0 in
      fst (for_loop 0 totalCombinations
             (fun _ '(results, indices) =>
                (results ++ [paramSetAt g indices],
                 updateIndices g (length (paramNames_ g)) indices))
             ([], indices))
  end.

End ParameterGrid.

(** ** cerebro.cpp: [Cerebro::runOptimize] *)

Module Cerebro.

Import Params ParameterGrid.
Local Open Scope float_scope.

(** The members of [RunResult] that the optimisation reads. *)
Record RunResult : Type := mkRun {
  endValue : Value;
  run_pnl : Value;
  run_pnlPct : Value;
  run_totalTrades : Size;
  trades : list Trade.t;
  analysis : gmap string Value
}.

Record OptResult : Type := mkOpt {
  params : gmap string ParamValue;
  finalValue : Value;
  pnl : Value;
  pnlPct : Value;
  sharpeRatio : Value;
  maxDrawdown : Value;
  totalTrades : Size;
  winningTrades : Size;
  winRate : Value
}.

(** [OptResult::operator>]. *)
Definition OptResult_gt (a b : OptResult) : bool := pnlPct b <? pnlPct a.

(** The optimisation state of a [Cerebro].  The strategy factory is held
    through what it is used for: the back-test of a fresh local [Cerebro] on
    the strategy it builds with a parameter assignment applied, which gives
    the run results or throws. *)
Record t : Type := mk {
  doOptimize_ : bool;
  optGrid_ : ParameterGrid.t;
  optStrategyFactory_ : option (gmap string ParamValue -> outcome (list RunResult))
}.

Definition init : t := mk false ParameterGrid.init None.

(** [optStrategy<T>(grid)]. *)
Definition optStrategy (grid : ParameterGrid.t)
    (factory : gmap string ParamValue -> outcome (list RunResult)) (c : t) : t :=
  mk true grid (Some factory).

(** The task submitted to the pool for one assignment. *)
Definition optTask (localRun : gmap string ParamValue -> outcome (list RunResult))
    (params : gmap string ParamValue) : OptResult :=
  match localRun params with
  | Throws _ => mkOpt params 0 (-1e10) (-1e10) NaN NaN 0 0 0
  | Returns [] => mkOpt params 0 0 0 NaN NaN 0 0 0
  | Returns (runResult :: _) =>
      let sharpe := default NaN (analysis runResult !! "sharpe_ratio") in
      let drawdown := default NaN (analysis runResult !! "max_drawdown") in
      let winCount :=
        foldl (fun n trade => if 0 <? Trade.pnl trade then S n else n) 0%nat
          (trades runResult) in
      if (0 <? run_totalTrades runResult)%nat then
        mkOpt params (endValue runResult) (run_pnl runResult) (run_pnlPct runResult)
          sharpe drawdown (run_totalTrades runResult) winCount
          (simd.Value_of_Size winCount / simd.Value_of_Size (run_totalTrades runResult) * 100)
      else
        mkOpt params (endValue runResult) (run_pnl runResult) (run_pnlPct runResult)
          sharpe drawdown (run_totalTrades runResult) 0 0
  end.

(** [std::sort(first, last, comp)] requires [comp] to be a strict weak
    ordering of the elements: irreflexive and transitive, with a
    transitive incomparability.  [operator>] on a NaN percent P&L beside
    two values that differ is none. *)
Definition strict_weak {A : Type} (comp : A -> A -> bool) (l : list A) : bool :=
  let equiv a b := negb (comp a b) && negb (comp b a) in
  forallb (fun a => negb (comp a a)) l
  && forallb (fun a => forallb (fun b => forallb (fun c =>
       implb (comp a b && comp b c) (comp a c)
       && implb (equiv a b && equiv b c) (equiv a c)) l) l) l.

(** When the requirement holds the result is a permutation ordered by
    [comp]; the order among elements that [comp] does not separate is
    unspecified, and is here the one insertion from the right gives. *)
Fixpoint sort_insert {A : Type} (comp : A -> A -> bool) (x : A) (l : list A) : list A :=
  match l with
  | [] => [x]
  | y :: l' => if comp y x then y :: sort_insert comp x l' else x :: l
  end.

Definition insertion_sort {A : Type} (comp : A -> A -> bool) (l : list A) : list A :=
  foldr (sort_insert comp) [] l.

(** The behaviour is undefined ([None]) when the requirement fails. *)
Definition std_sort {A : Type} (comp : A -> A -> bool) (l : list A) : option (list A) :=
  if strict_weak comp l then Some (insertion_sort comp l) else None.

(** [runOptimize()].  The futures are collected in the order the tasks were
    submitted, so the results before sorting are in the order of the
    parameter sets.  [None] when the call of [std::sort] is undefined. *)
Definition runOptimize (c : t) : option (list OptResult) :=
  match doOptimize_ c, optStrategyFactory_ c with
  | true, Some factory =>
      match generate (optGrid_ c) with
      | [] => Some []
      | paramSets => std_sort OptResult_gt (map (optTask factory) paramSets)
      end
  | _, _ => Some []
  end.

End Cerebro.

(** ** optimizer.hpp *)

Module Optimizer.

Import Params.
Local Open Scope float_scope.

(** [ParamValue::index()]: the position of the held alternative in
    [std::variant<bool, int, long, double, std::string, std::nullptr_t>]. *)
Definition index (v : ParamValue) : nat :=
  match v with
  | PBool _ => 0
  | PInt _ => 1
  | PLong _ => 2
  | PDouble _ => 3
  | PString _ => 4
  | PNull => 5
  end.

(** [ParamValueComparator::operator()]: by index first; within one
    alternative by [<] of the values, and two [nullptr] are equal.  [<] on
    [bool] puts [false] first, on [std::string] it is lexicographic on the
    bytes. *)
Definition ParamValueComparator (a b : ParamValue) : bool :=
  if negb (index a =? index b)%nat then (index a <? index b)%nat
  else
    match a, b with
    | PBool valA, PBool valB => negb valA && valB
    | PInt valA, PInt valB => (valA <? valB)%Z
    | PLong valA, PLong valB => (valA <? valB)%Z
    | PDouble valA, PDouble valB => valA <? valB
    | PString valA, PString valB => String.ltb valA valB
    | _, _ => false
    end.

(** [OptResultAnalyzer::Summary], with its member initialisers. *)
Record Summary : Set := mkSummary {
  totalRuns : Size;
  profitableRuns : Size;
  avgPnlPct : Value;
  maxPnlPct : Value;
  minPnlPct : Value;
  stdPnlPct : Value;
  avgWinRate : Value;
  avgTrades : Value
}.

Definition Summary_init : Summary := mkSummary 0 0 0 (-1e10) 1e10 0 0 0.

(** What the first loop of [summary()] carries from one result to the
    next. *)
Record sums : Set := mkSums {
  sumPnl : Value;
  sumWinRate : Value;
  sumTrades : Value;
  profitable : Size;
  maxSeen : Value;
  minSeen : Value
}.

Definition summary_step (a : sums) (r : Cerebro.OptResult) : sums :=
  mkSums (sumPnl a + Cerebro.pnlPct r)
         (sumWinRate a + Cerebro.winRate r)
         (sumTrades a + simd.Value_of_Size (Cerebro.totalTrades r))
         (if 0 <? Cerebro.pnlPct r then S (profitable a) else profitable a)
         (if maxSeen a <? Cerebro.pnlPct r then Cerebro.pnlPct r else maxSeen a)
         (if Cerebro.pnlPct r <? minSeen a then Cerebro.pnlPct r else minSeen a).

(** [OptResultAnalyzer::summary()]. *)
Definition summary (results_ : list Cerebro.OptResult) : Summary :=
  let totalRuns := length results_ in
  if (totalRuns =? 0)%nat then Summary_init else
  let a := foldl summary_step (mkSums 0 0 0 0 (-1e10) 1e10) results_ in
  let avgPnlPct := sumPnl a / simd.Value_of_Size totalRuns in
  let avgWinRate := sumWinRate a / simd.Value_of_Size totalRuns in
  let avgTrades := sumTrades a / simd.Value_of_Size totalRuns in
  let sumSqDiff :=
    foldl (fun sumSqDiff r =>
             let diff := Cerebro.pnlPct r - avgPnlPct in sumSqDiff + diff * diff)
          0 results_ in
  mkSummary totalRuns (profitable a) avgPnlPct (maxSeen a) (minSeen a)
            (sqrt (sumSqDiff / simd.Value_of_Size totalRuns)) avgWinRate avgTrades.

End Optimizer.


(** ** Scenario data *)

(** The closing prices of scenario S1. *)
Definition close_S1 : list Value :=
  [100; 101; 102; 101; 103; 104.5; 105; 104; 106; 107.5;
   108; 107; 109; 110.5; 111; 110; 112; 113.5; 114; 113]%float.

(** The unbounded line buffer holding them, cursor at the start. *)
Definition input_S1 : LineBuffer.t :=
  LineBuffer.mk (LineBuffer.Unbounded (UnboundedStorage.mk close_S1 0)) 1.



(** A broker with one feed whose current bar is (open 100, high 106,
    low 94, close 100, volume 1000), fixed slippage 0.5, no commission, and
    the default filler. *)
Definition bar_100 : Broker.Bar := Broker.mkBar 100 106 94 100 1000.

Definition broker_100_idle : Broker.t :=
  Broker.mk (Broker.mkSlip 0 0.5 false true true false) 100000 0
    {[ "DATA" := bar_100 ]} ∅ [] [] None (Some Broker.DefaultFiller).

(** A buy limit order for 10 units at 95 on that feed, and the broker after
    it was submitted. *)
Definition buy_limit_95 : Order.t :=
  Order.mk 1 Buy Limit Submitted 10 95 "DATA" (Order.mkExecInfo 0 0 0 0 0 0).

Definition broker_100 : Broker.t := Broker.buy "DATA" 10 95 Limit broker_100_idle.


(** Scenario S4: a broker with 100000 in cash and the stock commission of
    0.1 percent buys 100 units at the open 50 of one bar and sells them at
    the open 55 of a later bar. *)
Definition broker_S4_start : Broker.t :=
  Broker.new 100000
    (Some (CommInfo.getCommission (CommInfo.CommInfoStock 0.001 true)))
    "DATA" (Broker.mkBar 50 50 50 50 1000).

Definition broker_S4_bought : Broker.t :=
  Broker.next (Broker.buy "DATA" 100 0 Market broker_S4_start).

Definition broker_S4_sold : Broker.t :=
  Broker.next
    (Broker.sell "DATA" 100 0 Market
       (Broker.feedMovesTo "DATA" (Broker.mkBar 55 55 55 55 1000) broker_S4_bought)).

(** A round trip on the short side, without commission: 10 units sold at
    the open 100 of one bar and bought back at the open 90 of a later bar. *)
Definition broker_short_opened : Broker.t :=
  Broker.next
    (Broker.sell "DATA" 10 0 Market
       (Broker.new 100000 None "DATA" (Broker.mkBar 100 100 100 100 1000))).

Definition broker_short_closed : Broker.t :=
  Broker.next
    (Broker.buy "DATA" 10 0 Market
       (Broker.feedMovesTo "DATA" (Broker.mkBar 90 90 90 90 1000) broker_short_opened)).


(** Scenario S5: the grid [{fast: [5, 10, 15], slow: [20, 30]}], and a
    stand-in for the back-test whose percent P&L is [slow - 2 * fast]. *)
Definition decls_S5 : list (string * list Params.ParamValue) :=
  [("fast", [Params.PInt 5; Params.PInt 10; Params.PInt 15]);
   ("slow", [Params.PInt 20; Params.PInt 30])].

Definition factory_S5 (ps : gmap string Params.ParamValue)
    : outcome (list Cerebro.RunResult) :=
  let fast := Params.get_default Params.TInt "fast" 0%Z ps in
  let slow := Params.get_default Params.TInt "slow" 0%Z ps in
  Returns [Cerebro.mkRun 100000 0 (Value_of_int (slow - 2 * fast)) 0 [] ∅].

(* ===================================================================== *)
(** * Part II: the properties                                             *)
(* ===================================================================== *)

(** Closes a conjunction of closed equations by evaluation, left to right. *)
Ltac conj_compute :=
  repeat lazymatch goal with |- _ /\ _ => split end; (vm_compute; reflexivity).

(** ** Line buffers *)

Section LineBufferFacts.

Lemma nth_lookup_Some {A} (l : list A) (i : nat) (d v : A) :
  l !! i = Some v -> nth i l d = v.
Proof.
  revert i; induction l as [|x l IH]; intros [|i]; simpl; try discriminate.
  - now intros [= ->].
  - apply IH.
Qed.

Lemma last_drop_lt {A} (l : list A) (n : nat) :
  n < length l -> last (drop n l) = last l.
Proof.
  intros Hn. rewrite <- (take_drop n l) at 2. rewrite last_app.
  destruct (last (drop n l)) eqn:E; [done|].
  apply last_None in E. apply (f_equal length) in E.
  rewrite length_drop in E. simpl in E. lia.
Qed.

(** Both overloads of [UnboundedStorage::at], by the test they share. *)
Lemma unbounded_at_out (s : UnboundedStorage.t) (k : Index) :
  (UnboundedStorage.pos_ s - k < 0 \/
   Z.of_nat (length (UnboundedStorage.data_ s)) <= UnboundedStorage.pos_ s - k)%Z ->
  UnboundedStorage.at_const s k = NaN /\
  UnboundedStorage.at_mut s k = Throws (out_of_range "LineBuffer index out of range").
Proof.
  intros H. unfold UnboundedStorage.at_const, UnboundedStorage.at_mut,
    UnboundedStorage.actual, UnboundedStorage.size.
  destruct (orb_true_iff (UnboundedStorage.pos_ s - k <? 0)%Z
    (UnboundedStorage.pos_ s - k >=? Z.of_nat (length (UnboundedStorage.data_ s)))%Z)
    as [_ Hor].
  rewrite Hor; [done|]. destruct H; [left|right]; lia.
Qed.

Lemma unbounded_at_in (s : UnboundedStorage.t) (k : Index) (v : Value) :
  (0 <= UnboundedStorage.pos_ s - k)%Z ->
  UnboundedStorage.data_ s !! Z.to_nat (UnboundedStorage.pos_ s - k) = Some v ->
  UnboundedStorage.at_const s k = v /\ UnboundedStorage.at_mut s k = Returns v.
Proof.
  intros H0 Hv. pose proof (lookup_lt_Some _ _ _ Hv) as Hlt.
  unfold UnboundedStorage.at_const, UnboundedStorage.at_mut,
    UnboundedStorage.actual, UnboundedStorage.size.
  replace (UnboundedStorage.pos_ s - k <? 0)%Z with false by lia.
  replace (UnboundedStorage.pos_ s - k >=? _)%Z with false by lia.
  simpl. now rewrite (nth_lookup_Some _ _ NaN v Hv).
Qed.

Lemma qbuffer_at_out (q : QBufferStorage.t) (k : Index) :
  (Z.of_nat (length (QBufferStorage.data_ q)) - 1 - k < 0 \/
   Z.of_nat (length (QBufferStorage.data_ q))
     <= Z.of_nat (length (QBufferStorage.data_ q)) - 1 - k)%Z ->
  QBufferStorage.at_const q k = NaN /\
  QBufferStorage.at_mut q k = Throws (out_of_range "QBuffer index out of range").
Proof.
  intros H. unfold QBufferStorage.at_const, QBufferStorage.at_mut,
    QBufferStorage.actual, QBufferStorage.size.
  set (a := (Z.of_nat (length (QBufferStorage.data_ q)) - 1 - k)%Z) in *.
  destruct (orb_true_iff (a <? 0)%Z
    (a >=? Z.of_nat (length (QBufferStorage.data_ q)))%Z) as [_ Hor].
  rewrite Hor; [done|]. destruct H; [left|right]; lia.
Qed.

Lemma qbuffer_at_in (q : QBufferStorage.t) (k : Index) (v : Value) :
  (0 <= Z.of_nat (length (QBufferStorage.data_ q)) - 1 - k)%Z ->
  QBufferStorage.data_ q
    !! Z.to_nat (Z.of_nat (length (QBufferStorage.data_ q)) - 1 - k) = Some v ->
  QBufferStorage.at_const q k = v /\ QBufferStorage.at_mut q k = Returns v.
Proof.
  intros H0 Hv. pose proof (lookup_lt_Some _ _ _ Hv) as Hlt.
  unfold QBufferStorage.at_const, QBufferStorage.at_mut,
    QBufferStorage.actual, QBufferStorage.size.
  set (a := (Z.of_nat (length (QBufferStorage.data_ q)) - 1 - k)%Z) in *.
  replace (a <? 0)%Z with false by lia.
  replace (a >=? _)%Z with false by lia.
  simpl. now rewrite (nth_lookup_Some _ _ NaN v Hv).
Qed.

End LineBufferFacts.

(** C3 (as the code has it).  A read at offset [k] addresses the slot
    [pos_ - k] in an unbounded buffer and the slot [size - 1 - k], counted
    from the tail and independent of the cursor, in a bounded one.  When
    that slot is outside [0, size) the const overload of [at] returns NaN
    and the mutable overload throws [std::out_of_range]; when it is inside,
    both return the element stored in the slot. *)
Theorem C3_at_by_addressed_slot :
  (forall (s : UnboundedStorage.t) (k : Index),
      let a := (UnboundedStorage.pos_ s - k)%Z in
      ((a < 0 \/ Z.of_nat (UnboundedStorage.size s) <= a)%Z ->
       UnboundedStorage.at_const s k = NaN /\
       exists e, UnboundedStorage.at_mut s k = Throws e) /\
      (forall v, (0 <= a)%Z ->
                 UnboundedStorage.data_ s !! Z.to_nat a = Some v ->
                 UnboundedStorage.at_const s k = v /\
                 UnboundedStorage.at_mut s k = Returns v)) /\
  (forall (q : QBufferStorage.t) (k : Index),
      let a := (Z.of_nat (QBufferStorage.size q) - 1 - k)%Z in
      ((a < 0 \/ Z.of_nat (QBufferStorage.size q) <= a)%Z ->
       QBufferStorage.at_const q k = NaN /\
       exists e, QBufferStorage.at_mut q k = Throws e) /\
      (forall v, (0 <= a)%Z ->
                 QBufferStorage.data_ q !! Z.to_nat a = Some v ->
                 QBufferStorage.at_const q k = v /\
                 QBufferStorage.at_mut q k = Returns v)).
Proof.
  split.
  - intros s k a; split.
    + intros H. destruct (unbounded_at_out s k H) as [Hc Hm]. eauto.
    + intros v H0 Hv. now apply unbounded_at_in.
  - intros q k a; split.
    + intros H. destruct (qbuffer_at_out q k H) as [Hc Hm]. eauto.
    + intros v H0 Hv. now apply qbuffer_at_in.
Qed.

(** The unbounded buffer [1, 2, 3] with the cursor on its second slot, and
    the bounded buffer that received the same values: offsets 5 (outside)
    and 1 (inside) on each. *)
Lemma C3_at_by_addressed_slot_witness :
  let s := UnboundedStorage.advance
             (UnboundedStorage.push_back 3 (UnboundedStorage.push_back 2
               (UnboundedStorage.push_back 1 UnboundedStorage.init))) in
  let q := QBufferStorage.mk [1; 2; 3]%float 3 0 3 in
  (UnboundedStorage.at_const s 5 = NaN /\
   exists e, UnboundedStorage.at_mut s 5 = Throws e) /\
  (UnboundedStorage.at_const s 1 = 1%float /\
   UnboundedStorage.at_mut s 1 = Returns 1%float) /\
  (QBufferStorage.at_const q 5 = NaN /\
   exists e, QBufferStorage.at_mut q 5 = Throws e) /\
  (QBufferStorage.at_const q 1 = 2%float /\
   QBufferStorage.at_mut q 1 = Returns 2%float).
Proof.
  intros s q.
  destruct C3_at_by_addressed_slot as [HU HQ].
  destruct (HU s 5%Z) as [HUout _], (HU s 1%Z) as [_ HUin].
  destruct (HQ q 5%Z) as [HQout _], (HQ q 1%Z) as [_ HQin].
  split; [apply HUout; vm_compute; left; reflexivity|].
  split; [apply HUin; [vm_compute; discriminate | reflexivity]|].
  split; [apply HQout; vm_compute; left; reflexivity|].
  apply HQin; [vm_compute; discriminate | reflexivity].
Defined.

(** C3 as stated fails on the bounded buffer: it holds three values and its
    cursor is at 0.  At offset 1 the cursor position minus the offset is -1,
    outside [0, 3), yet both overloads return the stored 2; at offset -1 the
    cursor position minus the offset is 1, inside [0, 3), yet the const
    overload returns NaN and the mutable one throws. *)
Lemma C3_bounded_reads_ignore_cursor :
  exists q,
    QBufferStorage.run
      [QBufferStorage.Push 1%float; QBufferStorage.Push 2%float;
       QBufferStorage.Push 3%float] (QBufferStorage.init 3) = Some q /\
    QBufferStorage.size q = 3 /\
    (QBufferStorage.position q - 1 <? 0)%Z = true /\
    QBufferStorage.at_const q 1 = 2%float /\
    is_nan (QBufferStorage.at_const q 1) = false /\
    QBufferStorage.at_mut q 1 = Returns 2%float /\
    (0 <=? QBufferStorage.position q - -1)%Z = true /\
    (QBufferStorage.position q - -1 <? 3)%Z = true /\
    QBufferStorage.at_const q (-1) = NaN /\
    QBufferStorage.at_mut q (-1) = Throws (out_of_range "QBuffer index out of range").
Proof. eexists; split; [reflexivity|]. repeat split. Qed.

(** ** The bounded ring *)

Section QBufferInvariant.

Import QBufferStorage.

Variable N : Size.
Hypothesis N_pos : 0 < N.

(** What the ring holds after the values [vs] were pushed, whatever the
    cursor did meanwhile. *)
Definition ring_holds (vs : list Value) (q : t) : Prop :=
  data_ q = drop (Datatypes.length vs - N) vs /\
  total_pushed_ q = Datatypes.length vs /\
  maxlen_ q = N.

Lemma ring_holds_init : ring_holds [] (init N).
Proof. now repeat split. Qed.

Lemma ring_holds_push vs q v :
  ring_holds vs q -> exists q', push_back v q = Some q' /\ ring_holds (vs ++ [v]) q'.
Proof using N_pos.
  intros (Hd & Ht & Hm). unfold push_back. rewrite Hm, Hd, length_drop.
  destruct (Nat.leb_spec N (Datatypes.length vs - (Datatypes.length vs - N))) as [Hfull|Hroom].
  - assert (Hle : N <= Datatypes.length vs) by lia.
    destruct (drop (Datatypes.length vs - N) vs) as [|x d] eqn:Hdrop.
    { apply (f_equal Datatypes.length) in Hdrop. rewrite length_drop in Hdrop.
      simpl in Hdrop. lia. }
    simpl. eexists; split; [reflexivity|]. repeat split; simpl; auto.
    + rewrite length_app; simpl.
      replace (Datatypes.length vs + 1 - N) with (Datatypes.S (Datatypes.length vs - N)) by lia.
      rewrite drop_app_le by lia. f_equal.
      now rewrite <- Nat.add_1_r, <- drop_drop, Hdrop.
    + rewrite length_app; simpl; lia.
  - simpl. eexists; split; [reflexivity|]. repeat split; simpl; auto.
    + rewrite length_app; simpl.
      replace (Datatypes.length vs - N) with 0 by lia.
      replace (Datatypes.length vs + 1 - N) with 0 by lia. reflexivity.
    + rewrite length_app; simpl; lia.
Qed.

Lemma ring_holds_move vs q :
  ring_holds vs q ->
  ring_holds vs (advance q) /\ ring_holds vs (rewind q) /\ ring_holds vs (home q).
Proof.
  intros (Hd & Ht & Hm). unfold advance, rewind, home, ring_holds.
  destruct (pos_ q >? 0)%Z; simpl; auto 10.
Qed.

Lemma ring_holds_clear vs q : ring_holds vs q -> ring_holds [] (clear q).
Proof. intros (_ & _ & Hm). now repeat split. Qed.

Lemma ring_holds_run os : forall pre q,
  ring_holds pre q ->
  exists q', run os q = Some q' /\ ring_holds (pushed_after pre os) q'.
Proof using N_pos.
  induction os as [|o os IH]; intros pre q Hq; simpl.
  - now exists q.
  - destruct (ring_holds_move _ _ Hq) as (Ha & Hr & Hh).
    pose proof (ring_holds_clear _ _ Hq) as Hc.
    destruct o as [v| | | |]; simpl; auto.
    destruct (ring_holds_push pre q v Hq) as (q1 & -> & H1). simpl.
    now apply IH.
Qed.

(** Offset 0 reads the tail of the deque. *)
Lemma ring_reads_tail vs q v :
  ring_holds vs q -> last vs = Some v ->
  at_const q 0 = v /\ at_mut q 0 = Returns v.
Proof using N_pos.
  intros (Hd & _ & _) Hv.
  assert (Hlast : last (data_ q) = Some v).
  { rewrite Hd, last_drop_lt; [done|]. destruct vs; [discriminate|simpl; lia]. }
  assert (Hne : 0 < Datatypes.length (data_ q)).
  { destruct (data_ q); [discriminate|simpl; lia]. }
  apply qbuffer_at_in; [lia|].
  rewrite <- Hlast, last_lookup. f_equal. lia.
Qed.

End QBufferInvariant.

(** C4.  A bounded buffer of capacity [N] (at least 1: with capacity 0 the
    first push pops an empty deque, which C++ leaves undefined) receives
    [N + k] pushes, interleaved in any way with advance, rewind and home
    (and counted from the last [clear], if the buffer was cleared).
    Every call is defined, and then the deque holds exactly the last [N]
    pushed values, [size()] is [N], [length()] is [N + k], and offset 0
    reads the most recently pushed value through either overload. *)
Theorem C4_bounded_ring_retains_tail (N k : nat) (os : list QBufferStorage.op) :
  0 < N ->
  length (QBufferStorage.pushed os) = N + k ->
  exists q,
    QBufferStorage.run os (QBufferStorage.init N) = Some q /\
    QBufferStorage.data_ q = drop k (QBufferStorage.pushed os) /\
    QBufferStorage.size q = N /\
    QBufferStorage.length q = N + k /\
    forall v, last (QBufferStorage.pushed os) = Some v ->
              QBufferStorage.at_const q 0 = v /\
              QBufferStorage.at_mut q 0 = Returns v.
Proof.
  intros HN Hlen.
  destruct (ring_holds_run N HN os [] _ (ring_holds_init N)) as (q & Hrun & Hq).
  change (ring_holds N (QBufferStorage.pushed os) q) in Hq. exists q. split; [done|].
  pose proof Hq as (Hd & Ht & Hm).
  replace (length (QBufferStorage.pushed os) - N) with k in Hd by lia.
  repeat split.
  - done.
  - unfold QBufferStorage.size. rewrite Hd, length_drop. lia.
  - unfold QBufferStorage.length. lia.
  - eapply ring_reads_tail; eauto.
  - eapply ring_reads_tail; eauto.
Qed.

(** Capacity 3, five pushes with cursor moves in between. *)
Lemma C4_bounded_ring_retains_tail_witness :
  let os := [QBufferStorage.Push 1; QBufferStorage.Advance; QBufferStorage.Push 2;
             QBufferStorage.Push 3; QBufferStorage.Home; QBufferStorage.Push 4;
             QBufferStorage.Rewind; QBufferStorage.Push 5; QBufferStorage.Advance;
             QBufferStorage.Advance] in
  exists q,
    QBufferStorage.run os (QBufferStorage.init 3) = Some q /\
    QBufferStorage.data_ q = [3; 4; 5]%float /\
    QBufferStorage.size q = 3 /\
    QBufferStorage.length q = 5 /\
    QBufferStorage.at_const q 0 = 5%float /\
    QBufferStorage.at_mut q 0 = Returns 5%float.
Proof.
  intros os.
  destruct (C4_bounded_ring_retains_tail 3 2 os) as (q & Hrun & Hd & Hs & Hl & Hr);
    [lia | reflexivity |].
  exists q. repeat split; try assumption; apply (Hr 5%float); reflexivity.
Defined.

(** ** SMA(5) on scenario S1: event-driven against bulk *)



(** C1 (as the code has it).  On the S1 series, for each SIMD level,
    [once(0, 20)] and sixteen [next()] calls, one per bar from bar 4 (the
    first with a full window) to bar 19, leave the same output line.  The
    line holds 16 values and no NaN: [once] pushes only the valid suffix of
    the kernel's array.  That array has NaN at indices 0..3, 101.4 at index
    4 and 112.5 at index 19; they are the first and last value of the line. *)
Theorem C1_sma5_next_equals_once (lvl : simd.level) :
  LineBuffer.extend close_S1 LineBuffer.new = Some input_S1 /\
  let kernel := simd.slidingMean lvl close_S1 (simd.zeros 20) 20 5 in
  let out := UnboundedStorage.mk (drop 4 kernel) 0 in
  SMA.once lvl 5 input_S1 UnboundedStorage.init 0 20 = Returns out /\
  SMA.run_next 5 16 input_S1 UnboundedStorage.init = Returns out /\
  length (UnboundedStorage.data_ out) = 16 /\
  forallb (fun v => negb (is_nan v)) (UnboundedStorage.data_ out) = true /\
  take 4 kernel = [NaN; NaN; NaN; NaN] /\
  kernel !! 4 = Some 101.4%float /\
  kernel !! 19 = Some 112.5%float /\
  UnboundedStorage.data_ out !! 0 = Some 101.4%float /\
  UnboundedStorage.data_ out !! 15 = Some 112.5%float.
Proof. destruct lvl; cbv zeta; conj_compute. Qed.

(** C1 as stated fails.  After [once(0, 20)] the output line has 16 values:
    its first is 101.4 and not NaN, its value at index 4 is 104.5, and it
    has no index 19.  The mean of the last five prices, in the kernel's
    array at index 19, is 112.5 and not 111.6.  Called on the first bar,
    [next()] reads before the start of the input and throws. *)
Lemma C1_no_nan_prefix_and_last_mean :
  exists out,
    SMA.once simd.Scalar 5 input_S1 UnboundedStorage.init 0 20 = Returns out /\
    length (UnboundedStorage.data_ out) = 16 /\
    UnboundedStorage.data_ out !! 0 = Some 101.4%float /\
    is_nan 101.4 = false /\
    UnboundedStorage.data_ out !! 4 = Some 104.5%float /\
    UnboundedStorage.data_ out !! 19 = None /\
    simd.slidingMean simd.Scalar close_S1 (simd.zeros 20) 20 5 !! 19
      = Some 112.5%float /\
    (112.5 =? 111.6)%float = false /\
    SMA.next 5 (LineBuffer.home input_S1) UnboundedStorage.init
      = Throws (out_of_range "LineBuffer index out of range").
Proof.
  exists (UnboundedStorage.mk
            (drop 4 (simd.slidingMean simd.Scalar close_S1 (simd.zeros 20) 20 5)) 0).
  conj_compute.
Qed.

(** ** Counted loops *)

Section Loops.

Context {S : Type}.

(** Invariant rule for [for_range]: [P i s] relates the loop variable on
    entry to an iteration with the state it sees. *)
Lemma for_range_inv (P : nat -> S -> Prop) (body : nat -> S -> S) (n : nat) :
  forall (lo : nat) (s : S),
    P lo s ->
    (forall i s, lo <= i < lo + n -> P i s -> P (Datatypes.S i) (body i s)) ->
    P (lo + n) (for_range lo n body s).
Proof.
  induction n as [|n IH]; intros lo s H0 Hstep; simpl.
  - now rewrite Nat.add_0_r.
  - rewrite <- Nat.add_succ_comm. apply IH.
    + apply Hstep; [lia | done].
    + intros i s' Hi. apply Hstep. lia.
Qed.

Lemma for_loop_inv (P : nat -> S -> Prop) (body : nat -> S -> S) (lo hi : nat) (s : S) :
  lo <= hi ->
  P lo s ->
  (forall i s, lo <= i < hi -> P i s -> P (Datatypes.S i) (body i s)) ->
  P hi (for_loop lo hi body s).
Proof.
  intros Hle H0 Hstep. unfold for_loop.
  replace hi with (lo + (hi - lo)) at 1 by lia.
  apply for_range_inv; [done|]. intros i s' Hi. apply Hstep. lia.
Qed.

End Loops.

(** ** The EMA kernel *)

Section EmaKernel.

Import simd.
Local Open Scope float_scope.

Lemma rd_lookup (l : list Value) (i : nat) (v : Value) :
  l !! i = Some v -> rd l i = v.
Proof. apply nth_lookup_Some. Qed.

(** The loop that fills a prefix with NaN. *)
Lemma nan_fill (m : nat) (result : list Value) :
  let r := for_loop 0 m (fun i r => <[i := NaN]> r) result in
  length r = length result /\
  (forall j, (j < m)%nat -> (j < length result)%nat -> r !! j = Some NaN) /\
  (forall j, (m <= j)%nat -> r !! j = result !! j).
Proof.
  apply (for_loop_inv
    (fun i r => length r = length result /\
                (forall j, (j < i)%nat -> (j < length result)%nat -> r !! j = Some NaN) /\
                (forall j, (i <= j)%nat -> r !! j = result !! j))); [lia| |].
  - split; [done|]. split; [intros; lia|done].
  - intros i r _ (Hlen & Hlo & Hhi). split; [|split].
    + now rewrite length_insert.
    + intros j Hj Hjn. destruct (decide (j = i)) as [->|Hne].
      * apply list_lookup_insert_eq. lia.
      * rewrite list_lookup_insert_ne by done. apply Hlo; [lia|done].
    + intros j Hj. rewrite list_lookup_insert_ne by lia. apply Hhi. lia.
Qed.

Variable lvl : level.
Variables data result : list Value.
Variable period : Size.

Let n := length data.
Let alpha : Value := 2 / (Value_of_Size period + 1).
Let seed : Value := sum lvl data period / Value_of_Size period.

Hypothesis period_pos : (1 <= period)%nat.
Hypothesis period_le : (period <= n)%nat.
Hypothesis result_len : length result = n.

(** What holds of the array when the recursion loop is about to write
    index [i]. *)
Definition ema_upto (i : nat) (r : list Value) : Prop :=
  length r = n /\
  (forall j, (j < period - 1)%nat -> r !! j = Some NaN) /\
  r !! (period - 1)%nat = Some seed /\
  (forall j, (period <= j < i)%nat ->
     exists prev, r !! (j - 1)%nat = Some prev /\
                  r !! j = Some (alpha * rd data j + (1 - alpha) * prev)).

Lemma ema_upto_final : ema_upto n (ema lvl data result n period).
Proof using period_pos period_le result_len.
  unfold ema.
  replace (n =? 0)%nat with false by (symmetry; apply Nat.eqb_neq; lia).
  replace (period =? 0)%nat with false by (symmetry; apply Nat.eqb_neq; lia).
  replace (n <? period)%nat with false by (symmetry; apply Nat.ltb_ge; lia).
  simpl orb. cbv iota.
  replace (Nat.min (period - 1) n) with (period - 1)%nat by lia.
  destruct (nan_fill (period - 1) result) as (Hlen & Hnan & _).
  set (r0 := for_loop 0 (period - 1) _ result) in *.
  apply (for_loop_inv ema_upto); [done| |].
  - split; [|split; [|split]].
    + rewrite length_insert. lia.
    + intros j Hj. rewrite list_lookup_insert_ne by lia. apply Hnan; lia.
    + apply list_lookup_insert_eq. lia.
    + intros j Hj. lia.
  - intros i r Hi (Hl & Hn & Hs & Hrec).
    assert (Hprev : exists prev, r !! (i - 1)%nat = Some prev).
    { apply lookup_lt_is_Some. lia. }
    destruct Hprev as (prev & Hprev).
    split; [|split; [|split]].
    + now rewrite length_insert.
    + intros j Hj. rewrite list_lookup_insert_ne by lia. now apply Hn.
    + rewrite list_lookup_insert_ne by lia. done.
    + intros j Hj. destruct (decide (j = i)) as [->|Hne].
      * exists prev. split.
        -- rewrite list_lookup_insert_ne by lia. done.
        -- rewrite list_lookup_insert_eq by lia. now rewrite (rd_lookup _ _ _ Hprev).
      * destruct (Hrec j) as (p & Hp1 & Hp2); [lia|].
        exists p. rewrite !list_lookup_insert_ne by lia. done.
Qed.

End EmaKernel.

(** The scalar sum adds the inputs from left to right, starting from 0. *)
Lemma sumScalar_from (data : list Value) (k : nat) : forall (lo : nat) (acc : Value),
  lo + k <= length data ->
  for_range lo k (fun i r => (r + simd.rd data i)%float) acc
  = foldl PrimFloat.add acc (take k (drop lo data)).
Proof.
  induction k as [|k IH]; intros lo acc Hlen; simpl.
  - done.
  - destruct (lookup_lt_is_Some_2 data lo) as [x Hx]; [lia|].
    rewrite (drop_S _ _ _ Hx). simpl. rewrite (rd_lookup _ _ _ Hx).
    apply IH. lia.
Qed.

Lemma sumScalar_foldl (data : list Value) (count : nat) :
  count <= length data ->
  simd.sumScalar data count = foldl PrimFloat.add 0%float (take count data).
Proof.
  intros H. unfold simd.sumScalar, for_loop. rewrite Nat.sub_0_r.
  now rewrite sumScalar_from by lia.
Qed.

(** The sum of one lane of a vector accumulator with [k] lanes: the [m]
    inputs at the indices [r], [k + r], [2k + r], ... added from left to
    right, starting from 0. *)
Definition lane (k r m : nat) (data : list Value) : Value :=
  foldl PrimFloat.add 0%float (map (fun j => simd.rd data (k * j + r)) (seq 0 m)).

Lemma lane_S (k r m : nat) (data : list Value) :
  lane k r (S m) data = (lane k r m data + simd.rd data (k * m + r))%float.
Proof. unfold lane. now rewrite seq_S, map_app, foldl_app. Qed.

(** The scalar loop that adds the elements left over by the vector loop. *)
Lemma sum_tail (data : list Value) (lo count : nat) (acc : Value) :
  lo <= count -> count <= length data ->
  for_loop lo count (fun i result => (result + simd.rd data i)%float) acc
  = foldl PrimFloat.add acc (take (count - lo) (drop lo data)).
Proof. intros Hlo Hc. unfold for_loop. apply sumScalar_from. lia. Qed.

(** The SSE2 sum: two lanes over the pairs, added to each other, and then
    the element left over when the count is odd. *)
Lemma sumSSE_lanes (data : list Value) (count : nat) :
  count <= length data ->
  simd.sumSSE data count
  = foldl PrimFloat.add (lane 2 0 (count / 2) data + lane 2 1 (count / 2) data)%float
      (take (count mod 2) (drop (count - count mod 2) data)).
Proof.
  intros Hc. unfold simd.sumSSE. cbv zeta.
  pose proof (Nat.div_mod_eq count 2) as Hdm.
  replace ((count - count mod 2) / 2) with (count / 2)
    by (apply (Nat.div_unique _ 2 _ 0); lia).
  assert (Hl : for_range 0 (count / 2)
                 (fun j '(v0, v1) =>
                    (v0 + simd.rd data (2 * j), v1 + simd.rd data (2 * j + 1))%float)
                 (0%float, 0%float)
               = (lane 2 0 (count / 2) data, lane 2 1 (count / 2) data)).
  { apply (for_range_inv (fun i s => s = (lane 2 0 i data, lane 2 1 i data))
             _ (count / 2) 0); [reflexivity|].
    intros i s _ ->. rewrite !lane_S. now rewrite Nat.add_0_r. }
  rewrite Hl. cbn [fst snd]. rewrite sum_tail by lia.
  now replace (count - (count - count mod 2)) with (count mod 2) by lia.
Qed.

(** The AVX sum: four lanes over the quadruples; lanes 0 and 2 and lanes 1
    and 3 are added, then the two halves, and then the elements left
    over. *)
Lemma sumAVX_lanes (data : list Value) (count : nat) :
  count <= length data ->
  simd.sumAVX data count
  = foldl PrimFloat.add
      ((lane 4 0 (count / 4) data + lane 4 2 (count / 4) data)
       + (lane 4 1 (count / 4) data + lane 4 3 (count / 4) data))%float
      (take (count mod 4) (drop (count - count mod 4) data)).
Proof.
  intros Hc. unfold simd.sumAVX. cbv zeta.
  pose proof (Nat.div_mod_eq count 4) as Hdm.
  replace ((count - count mod 4) / 4) with (count / 4)
    by (apply (Nat.div_unique _ 4 _ 0); lia).
  assert (Hl : for_range 0 (count / 4)
                 (fun j '(v0, v1, v2, v3) =>
                    (v0 + simd.rd data (4 * j), v1 + simd.rd data (4 * j + 1),
                     v2 + simd.rd data (4 * j + 2), v3 + simd.rd data (4 * j + 3))%float)
                 (0%float, 0%float, 0%float, 0%float)
               = (lane 4 0 (count / 4) data, lane 4 1 (count / 4) data,
                  lane 4 2 (count / 4) data, lane 4 3 (count / 4) data)).
  { apply (for_range_inv
             (fun i s => s = (lane 4 0 i data, lane 4 1 i data,
                              lane 4 2 i data, lane 4 3 i data))
             _ (count / 4) 0); [reflexivity|].
    intros i s _ ->. rewrite !lane_S. now rewrite Nat.add_0_r. }
  rewrite Hl. cbn [fst snd]. rewrite sum_tail by lia.
  now replace (count - (count - count mod 4)) with (count mod 4) by lia.
Qed.

(** C5.  For an input of length [n >= period >= 1] and a result array of the
    same length, the EMA kernel writes NaN at indices [0 .. period-2], the
    sum of the first [period] inputs divided by [period] at index
    [period-1], and [alpha * x[i] + (1 - alpha) * out[i-1]] at every
    [i >= period], where [alpha = 2 / (period + 1)].  The sum is taken in
    the order of the compiled level: with the scalar routines the inputs
    are added from left to right; with the SSE2 routines the inputs at
    even and at odd indices are added in two lanes, the lanes to each
    other, and then the input left over when [period] is odd; with the AVX
    routines there are four lanes, added as (0 + 2) + (1 + 3), and then up
    to three inputs left over. *)
Theorem C5_ema_kernel (lvl : simd.level) (data result : list Value) (period : nat) :
  1 <= period ->
  period <= length data ->
  length result = length data ->
  let n := length data in
  let alpha := (2 / (simd.Value_of_Size period + 1))%float in
  let out := simd.ema lvl data result n period in
  length out = n /\
  (forall i, i < period - 1 -> out !! i = Some NaN) /\
  out !! (period - 1) = Some (simd.sum lvl data period / simd.Value_of_Size period)%float /\
  simd.sum simd.Scalar data period = foldl PrimFloat.add 0%float (take period data) /\
  simd.sum simd.SSE2 data period
  = foldl PrimFloat.add
      (lane 2 0 (period / 2) data + lane 2 1 (period / 2) data)%float
      (take (period mod 2) (drop (period - period mod 2) data)) /\
  simd.sum simd.AVX data period
  = foldl PrimFloat.add
      ((lane 4 0 (period / 4) data + lane 4 2 (period / 4) data)
       + (lane 4 1 (period / 4) data + lane 4 3 (period / 4) data))%float
      (take (period mod 4) (drop (period - period mod 4) data)) /\
  (forall i, period <= i < n ->
     exists prev,
       out !! (i - 1) = Some prev /\
       out !! i = Some (alpha * simd.rd data i + (1 - alpha) * prev)%float).
Proof.
  intros Hpos Hle Hres n alpha out.
  destruct (ema_upto_final lvl data result period Hpos Hle Hres) as (Hl & Hn & Hs & Hrec).
  split; [done|]. split; [done|]. split; [done|].
  split; [now apply sumScalar_foldl|].
  split; [now apply sumSSE_lanes|].
  split; [now apply sumAVX_lanes|done].
Qed.

(** Period 3 on the inputs 1, 2, 4, 8 with the SSE2 routines: the seed is
    ((1 + 2) + 4) / 3, the lanes holding 1 and 2 and the 4 left over, alpha
    is 1/2 and the output is NaN, NaN, 7/3, 8/2 + (7/3)/2. *)
Lemma C5_ema_kernel_witness :
  let data := [1; 2; 4; 8]%float in
  let out := simd.ema simd.SSE2 data (simd.zeros 4) 4 3 in
  out = [NaN; NaN; (7 / 3); (0.5 * 8 + 0.5 * (7 / 3))]%float /\
  length out = 4 /\
  (forall i, i < 3 - 1 -> out !! i = Some NaN) /\
  out !! (3 - 1) = Some (simd.sum simd.SSE2 data 3 / simd.Value_of_Size 3)%float /\
  simd.sum simd.SSE2 data 3 = ((0 + 1) + (0 + 2) + 4)%float /\
  (forall i, 3 <= i < 4 ->
     exists prev,
       out !! (i - 1) = Some prev /\
       out !! i = Some (2 / (simd.Value_of_Size 3 + 1) * simd.rd data i
                        + (1 - 2 / (simd.Value_of_Size 3 + 1)) * prev)%float).
Proof.
  intros data out.
  destruct (C5_ema_kernel simd.SSE2 data (simd.zeros 4) 3)
    as (Hlen & Hnan & Hseed & _ & Hsse & _ & Hrec);
    [lia | simpl; lia | reflexivity |].
  split; [vm_compute; reflexivity|].
  split; [exact Hlen|]. split; [exact Hnan|]. split; [exact Hseed|].
  split; [rewrite Hsse; reflexivity|exact Hrec].
Defined.

(** ** The RSI kernel *)

(** C6 (the code's divergence).  On the prices 10, 11, 10, 12 with period 2
    the gains are 1, 0, 2 and the losses 0, 1, 0.  The kernel smooths both
    with [simd::ema], whose factor is 2/(period+1) = 2/3: the averages at
    the last bar are 1.5 and 1/6 and the RSI is 90.  Wilder smoothing, with
    factor 1/period = 1/2 as the class documentation says and [RSI::next]
    does, gives 1.25 and 0.25 and the RSI 83.33.  Both agree on the seed
    bar, where the averages are plain means. *)
Theorem C6_rsi_kernel_not_wilder :
  let data := [10; 11; 10; 12]%float in
  simd.rsi simd.Scalar data (simd.zeros 4) 4 2 = [NaN; NaN; 50; 90]%float /\
  simd.ema simd.Scalar [1; 0; 2]%float (simd.zeros 3) 3 2 = [NaN; 0.5; 1.5]%float /\
  simd.ema simd.Scalar [0; 1; 0]%float (simd.zeros 3) 3 2
    = [NaN; 0.5; (2 / 3 * 0 + (1 - 2 / 3) * 0.5)]%float /\
  (100 - 100 / (1 + (1 / 2 * 2 + (1 - 1 / 2) * 0.5) / (1 / 2 * 0 + (1 - 1 / 2) * 0.5)))%float
    = 83.333333333333329%float /\
  (exists r,
     RSI.run_next 2 3 (LineBuffer.advance (LineBuffer.mk
         (LineBuffer.Unbounded (UnboundedStorage.mk data 0)) 1))
     = Returns (r, UnboundedStorage.mk [NaN; 50; 83.333333333333329]%float 0) /\
     RSI.avgGain_ r = 1.25%float /\ RSI.avgLoss_ r = 0.25%float) /\
  RSI.once simd.Scalar 2 data = [50; 90]%float /\
  (90 =? 83.333333333333329)%float = false.
Proof.
  cbv zeta. split; [vm_compute; reflexivity|]. split; [vm_compute; reflexivity|].
  split; [vm_compute; reflexivity|]. split; [vm_compute; reflexivity|].
  split; [|split; vm_compute; reflexivity].
  eexists. split; [vm_compute; reflexivity|]. split; vm_compute; reflexivity.
Qed.

(** ** The order of binary64 values *)

Section FloatOrder.

Local Open Scope float_scope.

Lemma SFcompare_antisym (x y : spec_float) :
  SFcompare y x = option_map CompOpp (SFcompare x y).
Proof.
  destruct x as [sx|sx| |sx mx ex], y as [sy|sy| |sy my ey]; simpl;
    try destruct sx; try destruct sy; simpl; try reflexivity.
  - rewrite (Z.compare_antisym ex ey).
    destruct (ex ?= ey)%Z; simpl; try reflexivity.
    now rewrite CompOpp_involutive, (Pos.compare_cont_antisym my mx Eq).
  - rewrite (Z.compare_antisym ex ey).
    destruct (ex ?= ey)%Z; simpl; try reflexivity.
    now rewrite (Pos.compare_cont_antisym mx my Eq).
Qed.

Lemma SFcompare_refl (x : spec_float) :
  x <> S754_nan -> SFcompare x x = Some Eq.
Proof.
  destruct x as [s|s| |s m e]; simpl; intros H; try congruence.
  - now destruct s.
  - destruct s; rewrite Z.compare_refl, Pos.compare_cont_refl; reflexivity.
Qed.

(** [SFcompare] on finite values is the lexicographic order of the sign,
    the exponent and the mantissa; the three facts about [Pos.compare_cont]
    that its transitivity needs. *)
Lemma compare_cont_Eq_Lt (p q : positive) :
  Pos.compare_cont Eq p q = Lt <-> (p < q)%positive.
Proof. reflexivity. Qed.

Lemma compare_cont_Eq_Gt (p q : positive) :
  Pos.compare_cont Eq p q = Gt <-> (q < p)%positive.
Proof. fold (Pos.compare p q). rewrite Pos.compare_gt_iff. reflexivity. Qed.

Lemma compare_cont_Eq_Eq (p q : positive) :
  Pos.compare_cont Eq p q = Eq <-> p = q.
Proof. apply Pos.compare_eq_iff. Qed.

Definition SFle (x y : spec_float) : Prop := SFleb x y = true.

Lemma SFle_trans (x y z : spec_float) : SFle x y -> SFle y z -> SFle x z.
Proof.
  unfold SFle, SFleb.
  destruct x as [sx|sx| |sx mx ex], y as [sy|sy| |sy my ey], z as [sz|sz| |sz mz ez];
    simpl; try destruct sx; try destruct sy; try destruct sz; simpl;
    try reflexivity; try discriminate.
  all: destruct (Z.compare_spec ex ey) as [Exy|Exy|Exy];
       destruct (Z.compare_spec ey ez) as [Eyz|Eyz|Eyz];
       destruct (Z.compare_spec ex ez) as [Exz|Exz|Exz];
       simpl; try reflexivity; try congruence; try lia.
  all: destruct (Pos.compare_cont Eq mx my) eqn:Cxy;
       destruct (Pos.compare_cont Eq my mz) eqn:Cyz;
       destruct (Pos.compare_cont Eq mx mz) eqn:Cxz;
       simpl; try reflexivity; try congruence; intros _ _.
  all: repeat lazymatch goal with
       | H : Pos.compare_cont Eq ?p ?q = Lt |- _ => change (p < q)%positive in H
       | H : Pos.compare_cont Eq ?p ?q = Gt |- _ =>
           apply (proj1 (compare_cont_Eq_Gt p q)) in H
       | H : Pos.compare_cont Eq ?p ?q = Eq |- _ =>
           apply (proj1 (compare_cont_Eq_Eq p q)) in H
       end; subst; lia.
Qed.

Lemma is_nan_false_spec (x : float) : is_nan x = false -> Prim2SF x <> S754_nan.
Proof.
  unfold is_nan. rewrite FloatAxioms.eqb_spec. unfold SFeqb. intros H E.
  rewrite E in H. discriminate.
Qed.

Lemma ltb_leb (x y : float) : (x <? y) = true -> (x <=? y) = true.
Proof.
  rewrite FloatAxioms.ltb_spec, FloatAxioms.leb_spec. unfold SFltb, SFleb.
  now destruct (SFcompare (Prim2SF x) (Prim2SF y)) as [[]|].
Qed.

Lemma leb_refl (x : float) : is_nan x = false -> (x <=? x) = true.
Proof.
  intros H. rewrite FloatAxioms.leb_spec. unfold SFleb.
  now rewrite SFcompare_refl by now apply is_nan_false_spec.
Qed.

Lemma SFcompare_not_nan (x y : spec_float) :
  x <> S754_nan -> y <> S754_nan -> SFcompare x y <> None.
Proof.
  destruct x as [sx|sx| |sx mx ex], y as [sy|sy| |sy my ey]; simpl; congruence.
Qed.

Lemma not_ltb_leb (x y : float) :
  is_nan x = false -> is_nan y = false -> (x <? y) = false -> (y <=? x) = true.
Proof.
  intros Hx Hy. rewrite FloatAxioms.ltb_spec, FloatAxioms.leb_spec. unfold SFltb, SFleb.
  rewrite (SFcompare_antisym (Prim2SF x) (Prim2SF y)).
  pose proof (SFcompare_not_nan _ _ (is_nan_false_spec x Hx) (is_nan_false_spec y Hy)).
  now destruct (SFcompare (Prim2SF x) (Prim2SF y)) as [[]|].
Qed.

Lemma leb_trans (x y z : float) :
  (x <=? y) = true -> (y <=? z) = true -> (x <=? z) = true.
Proof. rewrite !FloatAxioms.leb_spec. apply SFle_trans. Qed.

Lemma leb_not_nan (x y : float) :
  (x <=? y) = true -> is_nan x = false /\ is_nan y = false.
Proof.
  unfold is_nan. rewrite FloatAxioms.leb_spec, !FloatAxioms.eqb_spec.
  unfold SFleb, SFeqb. intros H.
  assert (Prim2SF x <> S754_nan /\ Prim2SF y <> S754_nan) as [Hx Hy].
  { destruct (Prim2SF x), (Prim2SF y); simpl in H; try discriminate; split; congruence. }
  now rewrite !SFcompare_refl by assumption.
Qed.

Lemma ltb_irrefl (x : float) : (x <? x) = false.
Proof.
  rewrite FloatAxioms.ltb_spec. unfold SFltb.
  destruct (Prim2SF x) as [s|s| |s m e] eqn:E; [now destruct s|now destruct s|done|].
  now rewrite SFcompare_refl.
Qed.

Lemma ltb_not_leb (x y : float) : (x <? y) = true -> (y <=? x) = false.
Proof.
  rewrite FloatAxioms.ltb_spec, FloatAxioms.leb_spec. unfold SFltb, SFleb.
  rewrite (SFcompare_antisym (Prim2SF x) (Prim2SF y)).
  now destruct (SFcompare (Prim2SF x) (Prim2SF y)) as [[]|].
Qed.

Lemma leb_ltb_or_leb (x y : float) :
  (x <=? y) = true -> (x <? y) = true \/ (y <=? x) = true.
Proof.
  rewrite FloatAxioms.ltb_spec, !FloatAxioms.leb_spec. unfold SFltb, SFleb.
  rewrite (SFcompare_antisym (Prim2SF x) (Prim2SF y)).
  destruct (SFcompare (Prim2SF x) (Prim2SF y)) as [[]|]; simpl; auto.
Qed.

Lemma ltb_asym (x y : float) : (x <? y) = true -> (y <? x) = false.
Proof.
  intros H. apply ltb_not_leb in H.
  destruct (y <? x) eqn:E; [|done]. apply ltb_leb in E. congruence.
Qed.

Lemma ltb_trans (x y z : float) : (x <? y) = true -> (y <? z) = true -> (x <? z) = true.
Proof.
  intros Hxy Hyz.
  pose proof (leb_trans x y z (ltb_leb x y Hxy) (ltb_leb y z Hyz)) as Hxz.
  destruct (leb_ltb_or_leb x z Hxz) as [H|H]; [done|].
  pose proof (leb_trans z x y H (ltb_leb x y Hxy)) as Hzy.
  apply ltb_not_leb in Hyz. congruence.
Qed.

End FloatOrder.

(** ** Limit orders *)

Section LimitOrders.

Import Broker.
Local Open Scope float_scope.





(** What of the broker an order's fate depends on; executions leave it
    as it is. *)
Definition market (b : t) :=
  (slip b, dataFeeds_ b, commInfo_ b, filler_ b).

Lemma tryExecute_market (b : t) (order : Order.t) :
  market (tryExecute b order).2.1 = market b.
Proof.
  unfold tryExecute. destruct (dataFeeds_ b !! Order.data_ order); [|done].
  now destruct (matchPrice order b0).
Qed.

Lemma tryExecute_order (b b' : t) (order : Order.t) :
  market b = market b' -> (tryExecute b order).2.2 = (tryExecute b' order).2.2.
Proof.
  unfold market. intros [= Hs Hd Hc Hf]. unfold tryExecute, executeOrder.
  rewrite Hs, Hd, Hc, Hf. destruct (dataFeeds_ b' !! Order.data_ order); [|done].
  now destruct (matchPrice order b0).
Qed.

(** The state in which [next] leaves an order. *)
Definition processed (b : t) (order : Order.t) : Order.t :=
  if OrderStatus_eqb (Order.status_ order) Submitted
  then (tryExecute b order).2.2 else order.

Lemma next_fold (b0 : t) (os : list Order.t) : forall (b : t) (done : list Order.t),
  market b = market b0 ->
  let r := foldl (fun '(b, done) order =>
                    if OrderStatus_eqb (Order.status_ order) Submitted
                    then let '(_, (b', order')) := tryExecute b order in
                         (b', done ++ [order'])
                    else (b, done ++ [order]))
                 (b, done) os in
  r.2 = done ++ map (processed b0) os /\ market r.1 = market b0.
Proof.
  induction os as [|o os IH]; intros b done Hb; simpl.
  - now rewrite app_nil_r.
  - assert (Hp : processed b0 o =
                 if OrderStatus_eqb (Order.status_ o) Submitted
                 then (tryExecute b0 o).2.2 else o) by reflexivity.
    rewrite Hp. clear Hp.
    destruct (OrderStatus_eqb (Order.status_ o) Submitted).
    + pose proof (tryExecute_market b o) as Hm.
      pose proof (tryExecute_order b b0 o Hb) as Ho.
      destruct (tryExecute b o) as [e [b' o']]. simpl in Hm, Ho.
      destruct (IH b' (done ++ [o'])) as [H1 H2]; [congruence|].
      split; [|exact H2]. rewrite H1, <- app_assoc. simpl. now rewrite Ho.
    + destruct (IH b (done ++ [o])) as [H1 H2]; [done|].
      split; [|exact H2]. now rewrite H1, <- app_assoc.
Qed.

(** [Broker::next] leaves every order as [tryExecute] on the bar leaves it,
    if it was [Submitted], and untouched otherwise. *)
Lemma next_orders (b : t) : orders_ (next b) = map (processed b) (orders_ b).
Proof.
  unfold next. pose proof (next_fold b (orders_ b) b [] eq_refl) as [H1 _].
  simpl in H1. destruct (foldl _ _ _) as [b' done']. simpl in *. done.
Qed.




End LimitOrders.



(** ** Positions and trades *)

(** What [Position::update] does where the claim and the code agree:
    opening from flat takes the execution as it is, and an addition on the
    same side takes the volume-weighted average. *)
Lemma Position_update_open (delta price : float) (p : Position.t) :
  (Position.size_ p =? 0)%float = true ->
  Position.update delta price p = Position.mk delta price.
Proof. intros H. unfold Position.update. now rewrite H. Qed.

Lemma Position_update_add_long (delta price : float) (p : Position.t) :
  (0 <? Position.size_ p)%float = true -> (0 <? delta)%float = true ->
  (Position.size_ p =? 0)%float = false ->
  Position.update delta price p
  = Position.mk (Position.size_ p + delta)
      ((Position.size_ p * Position.price_ p + delta * price)
       / (Position.size_ p + delta))%float.
Proof. intros H1 H2 H3. unfold Position.update. now rewrite H3, H1, H2. Qed.

(** [Trade::close]: gross and net profit of a closed trade. *)
Lemma Trade_close_pnl (bar : nat) (closePrice comm : float) (tr : Trade.t) :
  let tr' := Trade.close bar closePrice comm tr in
  Trade.isOpen tr' = false /\
  Trade.commission tr' = (Trade.commission tr + comm)%float /\
  Trade.pnl tr' =
    (if Trade.isLong tr
     then (closePrice - Trade.priceOpen tr) * abs (Trade.size tr)
     else (Trade.priceOpen tr - closePrice) * abs (Trade.size tr))%float /\
  Trade.pnlComm tr' = (Trade.pnl tr' - Trade.commission tr')%float.
Proof. now cbv zeta. Qed.

(** C7 (the code's divergence).  [Position::update] on a long position of
    10 at 100 with an execution of -15 at 110 crosses zero to -5 and keeps
    the average price 100; the broker's own update resets it to 110 on the
    same execution.  The broker's update, buying 10 at 90 against a short
    position of 10 at 100, closes the position and leaves the average price
    at 90; its sell side closing a long position, and [Position::update],
    leave 0. *)
Theorem C7_position_update_divergence :
  Position.update (-15) 110 (Position.mk 10 100) = Position.mk (-5) 100 /\
  Broker.updatePosition false 110 15 (Broker.mkPos 10 100) = Broker.mkPos (-5) 110 /\
  Broker.positions_ broker_short_opened !! "DATA" = Some (Broker.mkPos (-10) 100) /\
  Broker.positions_ broker_short_closed !! "DATA" = Some (Broker.mkPos 0 90) /\
  Broker.positions_ broker_S4_bought !! "DATA" = Some (Broker.mkPos 100 50) /\
  Broker.positions_ broker_S4_sold !! "DATA" = Some (Broker.mkPos 0 0) /\
  Position.update 10 90 (Position.mk (-10) 100) = Position.mk 0 0.
Proof. conj_compute. Qed.

(** C8 (the code's divergence).  The trade record that the broker appends
    when a position returns to flat takes its profit from the position's
    average price after the update.  In scenario S4 (long 100 from 50 to 55,
    commission 5 and 5.5) the record has gross profit 5500, commission 5.5
    and net profit 5494.5, where the claim gives 500, 10.5 and 489.5; on the
    short round trip from 100 to 90 the record has gross profit -0 where
    the claim gives 100.  [Trade::close] computes the claim's values: the
    long trade of 10 from 100 to 110 with commission 1 gets 100 and 99. *)
Theorem C8_closed_trade_pnl_divergence :
  (exists opened closed,
     Broker.trades_ broker_S4_sold = [opened; closed] /\
     Trade.isOpen opened = true /\ Trade.commission opened = 5%float /\
     Trade.isOpen closed = false /\
     Trade.pnl closed = 5500%float /\
     Trade.commission closed = 5.5%float /\
     Trade.pnlComm closed = 5494.5%float /\
     ((55 - 50) * abs 100)%float = 500%float) /\
  (exists opened closed,
     Broker.trades_ broker_short_closed = [opened; closed] /\
     Trade.isOpen closed = false /\
     Trade.pnl closed = (-0)%float /\
     ((100 - 90) * abs (-10))%float = 100%float) /\
  (let tr := Trade.close 10 110 1 (Trade.mk 0 "" 0 0 100 0 0 10 0 0 0 true true) in
   Trade.pnl tr = 100%float /\ Trade.pnlComm tr = 99%float).
Proof.
  split; [|split].
  - do 2 eexists. split; [vm_compute; reflexivity|]. conj_compute.
  - do 2 eexists. split; [vm_compute; reflexivity|]. conj_compute.
  - cbv zeta. conj_compute.
Qed.

(** ** The parameter store *)

Section ParamsFacts.

Import Params.

Lemma std_get_holds (T : alt) (v : ParamValue) :
  holds v = T -> exists x, std_get T v = Returns x /\ inject T x = v.
Proof. intros <-. destruct v; simpl; eauto. Qed.

Lemma std_get_mismatch (T : alt) (v : ParamValue) :
  holds v <> T -> std_get T v = Throws bad_variant_access.
Proof. destruct T, v; simpl; congruence. Qed.

End ParamsFacts.

(** C10.  [get(name, defaultValue)] never throws: it returns the default
    when the key is absent and also when the stored value holds another
    alternative than the one asked for, and the stored value otherwise.
    [get(name)] throws [std::runtime_error] on a missing key, and lets
    [std::bad_variant_access] out on a mismatch. *)
Theorem C10_get_default_swallows_mismatch
    (T : Params.alt) (name : string) (d : Params.alt_type T)
    (p : gmap string Params.ParamValue) :
  (p !! name = None ->
   Params.get_default T name d p = d /\
   Params.get T name p = Throws (runtime_error ("Parameter not found: " +:+ name))) /\
  (forall v, p !! name = Some v -> Params.holds v <> T ->
             Params.get_default T name d p = d /\
             Params.get T name p = Throws bad_variant_access) /\
  (forall v, p !! name = Some v -> Params.holds v = T ->
             exists x, Params.inject T x = v /\
                       Params.get_default T name d p = x /\
                       Params.get T name p = Returns x).
Proof.
  unfold Params.get_default, Params.get. split; [|split].
  - now intros ->.
  - intros v -> Hne. now rewrite (std_get_mismatch T v Hne).
  - intros v -> Heq. destruct (std_get_holds T v Heq) as (x & -> & Hx). eauto.
Qed.

(** The store with [period] set to the [int] 14, read as a [double] with
    default 2.5, as an [int] with default 7, and at a missing key. *)
Lemma C10_get_default_swallows_mismatch_witness :
  let p := Params.set Params.TInt "period" 14%Z ∅ in
  (Params.get_default Params.TDouble "period" 2.5%float p = 2.5%float /\
   Params.get Params.TDouble "period" p = Throws bad_variant_access) /\
  (Params.get_default Params.TInt "period" 7%Z p = 14%Z /\
   Params.get Params.TInt "period" p = Returns 14%Z) /\
  (Params.get_default Params.TInt "missing" 42%Z p = 42%Z /\
   Params.get Params.TInt "missing" p
     = Throws (runtime_error "Parameter not found: missing")).
Proof.
  intros p.
  destruct (C10_get_default_swallows_mismatch Params.TDouble "period" 2.5%float p)
    as (_ & Hmis & _).
  destruct (C10_get_default_swallows_mismatch Params.TInt "period" 7%Z p)
    as (_ & _ & Hok).
  destruct (C10_get_default_swallows_mismatch Params.TInt "missing" 42%Z p)
    as (Habs & _ & _).
  split; [apply (Hmis (Params.PInt 14)); [reflexivity | discriminate]|].
  split; [|apply Habs; reflexivity].
  destruct (Hok (Params.PInt 14)) as (x & Hx & Hd & Hg); [reflexivity..|].
  injection Hx as ->. now split.
Defined.

(** ** Sizes *)

Section SizeArithmetic.

Lemma Size_wrap_fits (n : nat) : (Z.of_nat n <= SIZE_MAX)%Z -> Size_wrap (Z.of_nat n) = n.
Proof.
  unfold SIZE_MAX, Size_wrap. intros H. rewrite Z.mod_small by lia. apply Nat2Z.id.
Qed.

Lemma Size_add_fits (a b : nat) :
  (Z.of_nat a + Z.of_nat b <= SIZE_MAX)%Z -> Size_add a b = a + b.
Proof.
  intros H. unfold Size_add. rewrite <- Nat2Z.inj_add. apply Size_wrap_fits.
  now rewrite Nat2Z.inj_add.
Qed.

Lemma Size_wrap_le (n : nat) : Size_wrap (Z.of_nat n) <= n.
Proof.
  unfold Size_wrap.
  assert (0 <= Z.of_nat n mod 2 ^ 64 <= Z.of_nat n)%Z; [|lia].
  split; [apply Z.mod_pos_bound; lia|apply Z.mod_le; lia].
Qed.

(** A product taken step by step in [Size] is the product modulo 2^64. *)
Lemma Size_mul_wrap (z : Z) (k : nat) :
  Size_mul (Size_wrap z) k = Size_wrap (z * Z.of_nat k).
Proof.
  unfold Size_mul, Size_wrap.
  rewrite Z2Nat.id by (apply Z.mod_pos_bound; lia).
  now rewrite Z.mul_mod_idemp_l by lia.
Qed.

End SizeArithmetic.

(** ** The parameter grid *)

(** The Cartesian product of value lists as a list of tuples, in
    lexicographic order: the last list varies fastest. *)
Definition cart_step {A : Type} (tuples : list (list A)) (vs : list A) : list (list A) :=
  flat_map (fun t => map (fun v => t ++ [v]) vs) tuples.

Definition cart {A : Type} (vss : list (list A)) : list (list A) :=
  foldl cart_step [[]] vss.

(** The assignment of a tuple of values to the parameter names, in order. *)
Definition assign (names : list string) (tuple : list Params.ParamValue)
    : gmap string Params.ParamValue :=
  foldl (fun ps nv => <[nv.1 := nv.2]> ps) ∅ (zip names tuple).

(** The product of the numbers of values. *)
Definition product (ks : list nat) : nat := foldr Nat.mul 1 ks.

Section Cart.

Context {A : Type}.

Lemma cart_snoc (vss : list (list A)) (vs : list A) :
  cart (vss ++ [vs]) = cart_step (cart vss) vs.
Proof. unfold cart. now rewrite foldl_app. Qed.

(** The tuples of the product are exactly those that take one value from
    each list. *)
Lemma elem_of_cart (vss : list (list A)) (t : list A) :
  In t (cart vss) <-> Forall2 (fun v vs => In v vs) t vss.
Proof.
  revert t. induction vss as [|vs vss IH] using rev_ind; intros t.
  - simpl. split.
    + intros [<-|[]]. constructor.
    + intros H. apply Forall2_nil_inv_r in H. now left.
  - rewrite cart_snoc. unfold cart_step. rewrite in_flat_map. split.
    + intros (t' & Ht' & Hin). apply in_map_iff in Hin as (v & <- & Hv).
      apply Forall2_app; [now apply IH|]. now repeat constructor.
    + intros H. apply Forall2_app_inv_r in H as (t' & tv & H1 & H2 & ->).
      apply Forall2_cons_inv_r in H2 as (v & tv' & Hv & H2 & ->).
      apply Forall2_nil_inv_r in H2 as ->.
      exists t'. split; [now apply IH|]. apply in_map_iff. eauto.
Qed.

Lemma length_cart_step (tuples : list (list A)) (vs : list A) :
  length (cart_step tuples vs) = length tuples * length vs.
Proof.
  unfold cart_step. induction tuples as [|t ts IH]; simpl; [done|].
  rewrite length_app, length_map, IH. lia.
Qed.

Lemma product_snoc (ks : list nat) (k : nat) : product (ks ++ [k]) = product ks * k.
Proof. unfold product. induction ks as [|k' ks IH]; simpl; [lia|]. rewrite IH. lia. Qed.

Lemma length_cart (vss : list (list A)) :
  length (cart vss) = product (map length vss).
Proof.
  induction vss as [|vs vss IH] using rev_ind; [done|].
  rewrite cart_snoc, length_cart_step, map_app. simpl map.
  now rewrite product_snoc, IH.
Qed.

Lemma cart_tuple_length (vss : list (list A)) (t : list A) :
  In t (cart vss) -> length t = length vss.
Proof. rewrite elem_of_cart. apply Forall2_length. Qed.

End Cart.

Section Iteration.

Context {R X : Type}.

(** [n] rounds of a loop on a pair: an action [f] accumulates on the first
    component what it reads in the second, which [step] then advances. *)
Fixpoint iter (n : nat) (step : X -> X) (f : X -> R -> R) (s : R * X) : R * X :=
  match n with
  | O => s
  | S n' => iter n' step f (f s.2 s.1, step s.2)
  end.

Lemma for_range_iter (step : X -> X) (f : X -> R -> R) (n : nat) :
  forall (lo : nat) (s : R * X),
    for_range lo n (fun _ '(r, x) => (f x r, step x)) s = iter n step f s.
Proof. induction n as [|n IH]; intros lo [r x]; simpl; [done|]. apply IH. Qed.

Lemma iter_add (step : X -> X) (f : X -> R -> R) (a b : nat) (s : R * X) :
  iter (a + b) step f s = iter b step f (iter a step f s).
Proof. revert s. induction a as [|a IH]; intros s; simpl; [done|]. apply IH. Qed.

(** Blocks of [r] rounds that amount to one round of another loop. *)
Lemma iter_block (Inv : X -> Prop) (r : nat) (step step' : X -> X)
    (f F : X -> R -> R) :
  (forall acc x, Inv x -> iter r step f (acc, x) = (F x acc, step' x)) ->
  (forall x, Inv x -> Inv (step' x)) ->
  forall n acc x, Inv x -> iter (n * r) step f (acc, x) = iter n step' F (acc, x).
Proof.
  intros Hblock Hinv. induction n as [|n IH]; intros acc x Hx; simpl; [done|].
  rewrite iter_add, Hblock by done. apply IH. now apply Hinv.
Qed.

End Iteration.

Section FoldFacts.

Context {A B C : Type}.

Lemma foldl_ext_in (g1 g2 : A -> B -> A) (l : list B) :
  (forall a t, In t l -> g1 a t = g2 a t) -> forall a, foldl g1 a l = foldl g2 a l.
Proof.
  induction l as [|t l IH]; intros H a; simpl; [done|].
  rewrite H by now left. apply IH. intros a' t' Ht'. apply H. now right.
Qed.

Lemma foldl_flat_map (g : A -> B -> A) (h : C -> list B) (l : list C) (a : A) :
  foldl g a (flat_map h l) = foldl (fun a t => foldl g a (h t)) a l.
Proof.
  revert a. induction l as [|t l IH]; intros a; simpl; [done|].
  now rewrite foldl_app, IH.
Qed.

Lemma foldl_map (g : A -> B -> A) (k : C -> B) (l : list C) (a : A) :
  foldl g a (map k l) = foldl (fun a c => g a (k c)) a l.
Proof. revert a. induction l as [|c l IH]; intros a; simpl; [done|]. apply IH. Qed.

Lemma flat_map_ext_in (h1 h2 : C -> list B) (l : list C) :
  (forall t, In t l -> h1 t = h2 t) -> flat_map h1 l = flat_map h2 l.
Proof.
  induction l as [|t l IH]; intros H; simpl; [done|].
  rewrite H by now left. f_equal. apply IH. intros t' Ht'. apply H. now right.
Qed.

Lemma map_flat_map (k : B -> A) (h : C -> list B) (l : list C) :
  map k (flat_map h l) = flat_map (fun t => map k (h t)) l.
Proof. induction l as [|t l IH]; simpl; [done|]. now rewrite map_app, IH. Qed.

Lemma flat_map_map (h : B -> list A) (k : C -> B) (l : list C) :
  flat_map h (map k l) = flat_map (fun t => h (k t)) l.
Proof. induction l as [|t l IH]; simpl; [done|]. now rewrite IH. Qed.

End FoldFacts.

Lemma map_seq_nth {A B : Type} (k : A -> B) (vs : list A) (d : A) :
  map (fun i => k (nth i vs d)) (seq 0 (length vs)) = map k vs.
Proof.
  induction vs as [|v vs IH] using rev_ind; [done|].
  rewrite length_app, Nat.add_comm. simpl length. rewrite seq_S, !map_app. simpl.
  rewrite app_nth2, Nat.sub_diag by lia. simpl. f_equal.
  rewrite <- IH. apply map_ext_in. intros i Hi. apply in_seq in Hi.
  now rewrite app_nth1 by lia.
Qed.

Section Odometer.

Import ParameterGrid.

Variable g : ParameterGrid.t.

(** The number of values of parameter [j]. *)
Let radix (j : nat) : nat := length (nth j (paramValues_ g) []).

Lemma nth_insert_eq (x : list nat) (j v : nat) :
  j < length x -> nth j (<[j := v]> x) 0 = v.
Proof. intros H. apply nth_lookup_Some, list_lookup_insert_eq, H. Qed.

Lemma updateIndices_length (j : nat) : forall x : list nat,
  length (updateIndices g j x) = length x.
Proof.
  induction j as [|j IH]; intros x; simpl; [done|].
  destruct (_ <? _); [now rewrite length_insert|].
  now rewrite IH, !length_insert.
Qed.

Lemma updateIndices_above (j : nat) : forall (x : list nat) (i : nat),
  j <= i -> nth i (updateIndices g j x) 0 = nth i x 0.
Proof.
  induction j as [|j IH]; intros x i Hi; simpl; [done|].
  destruct (_ <? _).
  - rewrite !nth_lookup, list_lookup_insert_ne by lia. done.
  - rewrite IH by lia. rewrite !nth_lookup, !list_lookup_insert_ne by lia. done.
Qed.

Lemma updateIndices_no_carry (j i : nat) (x : list nat) :
  j < length x -> S i < radix j ->
  updateIndices g (S j) (<[j := i]> x) = <[j := S i]> x.
Proof.
  intros Hj Hi. simpl. rewrite (nth_insert_eq x j i Hj), list_insert_insert_eq.
  rewrite (nth_insert_eq x j (S i) Hj). fold (radix j).
  now replace (S i <? radix j) with true by (symmetry; apply Nat.ltb_lt; lia).
Qed.

Lemma updateIndices_carry (j i : nat) (x : list nat) :
  j < length x -> S i = radix j ->
  updateIndices g (S j) (<[j := i]> x) = updateIndices g j (<[j := 0]> x).
Proof.
  intros Hj Hi. simpl. rewrite (nth_insert_eq x j i Hj), list_insert_insert_eq.
  rewrite (nth_insert_eq x j (S i) Hj). fold (radix j). rewrite <- Hi.
  replace (S i <? S i) with false by (symmetry; apply Nat.ltb_irrefl).
  now rewrite list_insert_insert_eq.
Qed.

Lemma iter_S {R X : Type} (n : nat) (step : X -> X) (f : X -> R -> R) (acc : R) (x : X) :
  iter (S n) step f (acc, x) = iter n step f (f x acc, step x).
Proof. reflexivity. Qed.

(** Rounds in which the index at [j] moves up without running past its
    value list. *)
Lemma iter_no_carry {R : Type} (f : list nat -> R -> R) (j : nat) (x : list nat) :
  j < length x ->
  forall (m i0 : nat) (acc : R),
    i0 + m < radix j ->
    iter m (updateIndices g (S j)) f (acc, <[j := i0]> x)
    = (foldl (fun acc i => f (<[j := i]> x) acc) acc (seq i0 m), <[j := i0 + m]> x).
Proof.
  intros Hj. induction m as [|m IH]; intros i0 acc Hm.
  - simpl. now rewrite Nat.add_0_r.
  - rewrite iter_S, updateIndices_no_carry by (done || lia).
    rewrite IH by lia. now rewrite Nat.add_succ_r.
Qed.

(** A full turn of the index at [j]: it visits every value and returns to
    0, and the update goes on to the left. *)
Lemma iter_full_turn {R : Type} (f : list nat -> R -> R) (j : nat) (x : list nat)
    (acc : R) :
  j < length x -> nth j x 0 = 0 -> 0 < radix j ->
  iter (radix j) (updateIndices g (S j)) f (acc, x)
  = (foldl (fun acc i => f (<[j := i]> x) acc) acc (seq 0 (radix j)),
     updateIndices g j x).
Proof.
  intros Hj H0 Hr.
  assert (Hx : <[j := 0]> x = x).
  { apply list_insert_id. rewrite <- H0. destruct (nth_lookup_or_length x j 0); [done|lia]. }
  destruct (radix j) as [|r] eqn:Er; [lia|].
  replace (S r) with (r + 1) at 1 by lia. rewrite iter_add.
  rewrite <- Hx at 1. rewrite iter_no_carry by (rewrite ?Er; lia).
  rewrite iter_S. cbn [iter Nat.add].
  rewrite updateIndices_carry by (done || lia).
  rewrite Hx. f_equal. now rewrite seq_S, foldl_app.
Qed.

(** The product of the numbers of values of the first [j] parameters. *)
Let total (j : nat) : nat :=
  foldl (fun total values => total * length values) 1 (take j (paramValues_ g)).

(** The index tuples over the first [j] parameters. *)
Let index_tuples (j : nat) : list (list nat) :=
  cart (map (fun vs : list Params.ParamValue => seq 0 (length vs)) (take j (paramValues_ g))).

Lemma index_tuples_length (j : nat) (t : list nat) :
  j <= length (paramValues_ g) -> In t (index_tuples j) -> length t = j.
Proof.
  intros Hj Ht. apply cart_tuple_length in Ht.
  rewrite length_map, length_take in Ht. lia.
Qed.

(** [total j] rounds of the update on the first [j] indices, started with
    those indices at 0, visit the index tuples in lexicographic order and
    return to the start. *)
Lemma odometer {R : Type} (j : nat) :
  j <= length (paramValues_ g) ->
  (forall i, i < j -> 0 < radix i) ->
  forall (f : list nat -> R -> R) (acc : R) (x : list nat),
    j <= length x ->
    (forall i, i < j -> nth i x 0 = 0) ->
    iter (total j) (updateIndices g j) f (acc, x)
    = (foldl (fun acc t => f (t ++ drop j x) acc) acc (index_tuples j), x).
Proof.
  induction j as [|j IH]; intros Hj Hpos f acc x Hx H0.
  - done.
  - destruct (lookup_lt_is_Some_2 (paramValues_ g) j) as [vs Hvs]; [lia|].
    assert (Hr : radix j = length vs).
    { unfold radix. now rewrite (nth_lookup_Some _ _ [] vs Hvs). }
    unfold total, index_tuples. rewrite (take_S_r _ _ _ Hvs), foldl_app, map_app.
    simpl foldl. simpl map. rewrite cart_snoc. fold (total j). fold (index_tuples j).
    rewrite <- Hr.
    rewrite (iter_block (fun x => j < length x /\ nth j x 0 = 0) (radix j)
               (updateIndices g (S j)) (updateIndices g j) f
               (fun x acc => foldl (fun acc i => f (<[j := i]> x) acc) acc
                               (seq 0 (radix j)))).
    + rewrite IH; [|lia|intros; apply Hpos; lia|lia|intros; apply H0; lia].
      f_equal. unfold cart_step. rewrite foldl_flat_map.
      apply foldl_ext_in. intros a t Ht. rewrite foldl_map.
      apply foldl_ext_in. intros a' i _. f_equal.
      apply index_tuples_length in Ht; [|lia].
      destruct (lookup_lt_is_Some_2 x j) as [xj Hxj]; [lia|].
      rewrite (drop_S _ _ _ Hxj), insert_app_r_alt by lia.
      rewrite Ht, Nat.sub_diag. simpl. now rewrite <- app_assoc.
    + intros acc' x' [Hl Hn]. apply iter_full_turn; [done|done|apply Hpos; lia].
    + intros x' [Hl Hn]. split.
      * now rewrite updateIndices_length.
      * now rewrite updateIndices_above.
    + split; [lia|apply H0; lia].
Qed.

End Odometer.

Section Generate.

Import Params ParameterGrid.

(** The values that a tuple of indices selects. *)
Definition pick (vss : list (list ParamValue)) (idxs : list nat) : list ParamValue :=
  zip_with (fun vs i => nth i vs PNull) vss idxs.

Lemma cart_pick (vss : list (list ParamValue)) :
  map (pick vss) (cart (map (fun vs => seq 0 (length vs)) vss)) = cart vss.
Proof.
  induction vss as [|vs vss IH] using rev_ind; [done|].
  rewrite map_app. simpl map. rewrite !cart_snoc. unfold cart_step.
  rewrite map_flat_map, <- IH, flat_map_map.
  apply flat_map_ext_in. intros t Ht.
  apply cart_tuple_length in Ht. rewrite length_map in Ht.
  rewrite map_map, <- (map_seq_nth (fun v => pick vss t ++ [v]) vs PNull).
  apply map_ext. intros i. unfold pick.
  now rewrite zip_with_app by done.
Qed.

Lemma paramSetAt_from (g : ParameterGrid.t) (idxs : list nat) (k : nat) :
  forall (lo : nat) (acc : gmap string ParamValue),
    lo + k = length (paramNames_ g) ->
    length (paramValues_ g) = length (paramNames_ g) ->
    length idxs = length (paramNames_ g) ->
    for_range lo k
      (fun j paramSet =>
         <[nth j (paramNames_ g) "" :=
             nth (nth j idxs 0) (nth j (paramValues_ g) []) PNull]> paramSet)
      acc
    = foldl (fun ps nv => <[nv.1 := nv.2]> ps) acc
        (zip (drop lo (paramNames_ g))
             (pick (drop lo (paramValues_ g)) (drop lo idxs))).
Proof.
  induction k as [|k IH]; intros lo acc Hlo Hv Hi; simpl.
  - rewrite (drop_ge (paramNames_ g)) by lia. done.
  - destruct (lookup_lt_is_Some_2 (paramNames_ g) lo) as [name Hname]; [lia|].
    destruct (lookup_lt_is_Some_2 (paramValues_ g) lo) as [vs Hvs]; [lia|].
    destruct (lookup_lt_is_Some_2 idxs lo) as [i Hidx]; [lia|].
    rewrite (drop_S _ _ _ Hname), (drop_S _ _ _ Hvs), (drop_S _ _ _ Hidx).
    simpl. rewrite IH by lia.
    now rewrite (nth_lookup_Some _ _ _ _ Hname), (nth_lookup_Some _ _ _ _ Hvs),
      (nth_lookup_Some _ _ _ _ Hidx).
Qed.

Lemma paramSetAt_assign (g : ParameterGrid.t) (idxs : list nat) :
  length (paramValues_ g) = length (paramNames_ g) ->
  length idxs = length (paramNames_ g) ->
  paramSetAt g idxs = assign (paramNames_ g) (pick (paramValues_ g) idxs).
Proof.
  intros Hv Hi. unfold paramSetAt, for_loop. rewrite Nat.sub_0_r.
  now rewrite paramSetAt_from by (done || lia).
Qed.

Lemma foldl_mul_product (vss : list (list ParamValue)) (a : nat) :
  foldl (fun total values => total * length values) a vss
  = a * product (map length vss).
Proof.
  revert a. induction vss as [|vs vss IH]; intros a; simpl; [lia|].
  rewrite IH. lia.
Qed.

Lemma foldl_Size_mul (vss : list (list ParamValue)) : forall z : Z,
  foldl (fun total values => Size_mul total (length values)) (Size_wrap z) vss
  = Size_wrap (z * Z.of_nat (product (map length vss))).
Proof.
  induction vss as [|vs vss IH]; intros z.
  - unfold product. simpl. now rewrite Z.mul_1_r.
  - cbn [foldl map]. rewrite Size_mul_wrap, IH. f_equal.
    unfold product. cbn [foldr]. rewrite Nat2Z.inj_mul. lia.
Qed.

(** [totalCombinations] is the product of the numbers of values, modulo
    2^64. *)
Lemma totalCombinations_wrap (g : ParameterGrid.t) :
  totalCombinations g = Size_wrap (Z.of_nat (product (map length (paramValues_ g)))).
Proof.
  unfold totalCombinations. change 1 with (Size_wrap 1) at 1.
  now rewrite foldl_Size_mul, Z.mul_1_l.
Qed.

Lemma product_pos (ks : list nat) (i : nat) :
  product ks <> 0 -> i < length ks -> 0 < nth i ks 0.
Proof.
  revert i. induction ks as [|k ks IH]; intros i Hp Hi; simpl in *; [lia|].
  destruct i as [|i]; [nia|]. apply IH; [nia|lia].
Qed.

(** A loop that appends one element per round: after [n] rounds it has
    appended [n] elements, and what it has then is a prefix of what it has
    after more rounds. *)
Lemma iter_snoc {X B : Type} (h : X -> B) (step : X -> X) (n : nat) :
  forall (acc : list B) (x : X),
    exists l, fst (iter n step (fun x r => r ++ [h x]) (acc, x)) = acc ++ l /\ length l = n.
Proof.
  induction n as [|n IH]; intros acc x.
  - exists []. now rewrite app_nil_r.
  - rewrite iter_S. destruct (IH (acc ++ [h x]) (step x)) as (l & Hl & Hn).
    exists (h x :: l). rewrite Hl, <- app_assoc. simpl. split; [done|lia].
Qed.

Lemma iter_prefix {X B : Type} (h : X -> B) (step : X -> X) (a b : nat) (x : X) :
  fst (iter a step (fun x r => r ++ [h x]) ([], x))
  = take a (fst (iter (a + b) step (fun x r => r ++ [h x]) ([], x))).
Proof.
  rewrite iter_add.
  destruct (iter_snoc h step a [] x) as (l & Hl & Hn).
  destruct (iter a step _ ([], x)) as [r x']. simpl in Hl. subst r.
  destruct (iter_snoc h step b l x') as (l' & Hl' & _). rewrite Hl'.
  simpl. now rewrite take_app_length' by done.
Qed.

(** As many rounds of [generate]'s loop as the product of the numbers of
    values list the assignments of the Cartesian product of the value
    lists, in lexicographic order. *)
Lemma enumerate_cart (g : ParameterGrid.t) :
  length (paramValues_ g) = length (paramNames_ g) ->
  fst (iter (product (map length (paramValues_ g)))
         (updateIndices g (length (paramNames_ g)))
         (fun x r => r ++ [paramSetAt g x])
         ([], replicate (length (paramNames_ g)) 0))
  = map (assign (paramNames_ g)) (cart (paramValues_ g)).
Proof.
  intros Hlen.
  set (n := length (paramNames_ g)) in *.
  destruct (decide (product (map length (paramValues_ g)) = 0)) as [Hz|Hnz].
  - rewrite Hz. simpl.
    pose proof (length_cart (paramValues_ g)) as Hc. rewrite Hz in Hc.
    now destruct (cart (paramValues_ g)).
  - replace (product (map length (paramValues_ g)))
      with (foldl (fun total values => total * length values) 1
              (take n (paramValues_ g)))
      by (rewrite firstn_all2 by lia; rewrite foldl_mul_product; lia).
    rewrite (odometer g n); [|lia| | |].
    + rewrite firstn_all2 by lia. simpl fst.
      rewrite <- cart_pick, map_map.
      set (tuples := cart _).
      assert (Htuples : forall t, In t tuples -> length t = n).
      { intros t Ht. apply cart_tuple_length in Ht. rewrite length_map in Ht. lia. }
      clearbody tuples. rewrite drop_ge by (rewrite length_replicate; lia).
      assert (Hgen : forall (acc : list (gmap string ParamValue)),
                 foldl (fun acc t => acc ++ [paramSetAt g (t ++ [])]) acc tuples
                 = acc ++ map (fun t => assign (paramNames_ g) (pick (paramValues_ g) t))
                            tuples).
      { induction tuples as [|t ts IH]; intros acc; simpl.
        - now rewrite app_nil_r.
        - rewrite IH by (intros; apply Htuples; now right).
          rewrite app_nil_r, paramSetAt_assign by (done || apply Htuples; now left).
          now rewrite <- app_assoc. }
      apply (Hgen []).
    + intros i Hi. apply (product_pos (map length (paramValues_ g)) i) in Hnz.
      * rewrite nth_lookup, list_lookup_fmap in Hnz. rewrite nth_lookup.
        destruct (paramValues_ g !! i); simpl in *; [done|lia].
      * rewrite length_map. lia.
    + rewrite length_replicate. lia.
    + intros i Hi. apply nth_lookup_Some, lookup_replicate_2. lia.
Qed.

(** [generate] lists the first [totalCombinations] assignments of the
    Cartesian product of the value lists, in lexicographic order, unless
    no parameter was declared. *)
Lemma generate_take (g : ParameterGrid.t) :
  length (paramValues_ g) = length (paramNames_ g) ->
  paramNames_ g <> [] ->
  generate g
  = map (assign (paramNames_ g)) (take (totalCombinations g) (cart (paramValues_ g))).
Proof.
  intros Hlen Hne. unfold generate.
  destruct (paramNames_ g) as [|name names] eqn:Hnames; [done|].
  rewrite <- Hnames in *. clear Hne.
  fold (totalCombinations g).
  unfold for_loop. rewrite Nat.sub_0_r, for_range_iter.
  assert (HW : totalCombinations g <= product (map length (paramValues_ g))).
  { rewrite totalCombinations_wrap. apply Size_wrap_le. }
  rewrite <- firstn_map, <- (enumerate_cart g Hlen).
  replace (product (map length (paramValues_ g)))
    with (totalCombinations g
          + (product (map length (paramValues_ g)) - totalCombinations g)) by lia.
  apply iter_prefix.
Qed.

(** All of them when the product of the numbers of values fits [Size]. *)
Lemma generate_cart (g : ParameterGrid.t) :
  length (paramValues_ g) = length (paramNames_ g) ->
  paramNames_ g <> [] ->
  (Z.of_nat (product (map length (paramValues_ g))) <= SIZE_MAX)%Z ->
  generate g = map (assign (paramNames_ g)) (cart (paramValues_ g)).
Proof.
  intros Hlen Hne Hfit. rewrite generate_take by done.
  rewrite totalCombinations_wrap, Size_wrap_fits by done.
  now rewrite firstn_all2 by (rewrite length_cart; lia).
Qed.

Lemma length_generate (g : ParameterGrid.t) :
  length (paramValues_ g) = length (paramNames_ g) ->
  paramNames_ g <> [] ->
  length (generate g) = totalCombinations g.
Proof.
  intros Hlen Hne. rewrite generate_take by done.
  rewrite length_map, length_take, length_cart.
  pose proof (Size_wrap_le (product (map length (paramValues_ g)))) as HW.
  rewrite <- totalCombinations_wrap in HW. lia.
Qed.

End Generate.

(** ** Sorting the optimisation results *)

Section Sorting.

Import Cerebro.
Local Open Scope float_scope.

(** Descending order of percent P&L. *)
Definition pnlPct_ge (a b : OptResult) : Prop := (pnlPct b <=? pnlPct a) = true.

Lemma sort_insert_perm {A : Type} (comp : A -> A -> bool) (x : A) (l : list A) :
  Permutation (sort_insert comp x l) (x :: l).
Proof.
  induction l as [|y l IH]; simpl; [done|].
  destruct (comp y x); [|done].
  rewrite IH. apply perm_swap.
Qed.

Lemma insertion_sort_perm {A : Type} (comp : A -> A -> bool) (l : list A) :
  Permutation (insertion_sort comp l) l.
Proof.
  induction l as [|x l IH]; simpl; [done|].
  unfold insertion_sort in *. simpl. now rewrite sort_insert_perm, IH.
Qed.

Lemma sort_insert_sorted (x : OptResult) (l : list OptResult) :
  is_nan (pnlPct x) = false ->
  Forall (fun r => is_nan (pnlPct r) = false) l ->
  StronglySorted pnlPct_ge l ->
  StronglySorted pnlPct_ge (sort_insert OptResult_gt x l).
Proof.
  intros Hx Hl Hs. induction l as [|y l IH]; simpl.
  - repeat constructor.
  - apply Forall_cons_1 in Hl as [Hy Hl].
    apply StronglySorted_inv in Hs as [Hs Hyl].
    unfold OptResult_gt at 1. destruct (pnlPct x <? pnlPct y) eqn:E.
    + constructor; [now apply IH|].
      eapply Permutation_Forall; [symmetry; apply sort_insert_perm|].
      constructor; [|done]. now apply ltb_leb.
    + assert (Hxy : pnlPct_ge x y) by now apply not_ltb_leb.
      constructor; [now constructor|].
      constructor; [done|].
      eapply Forall_impl; [exact Hyl|]. intros z Hz.
      unfold pnlPct_ge in *. eapply leb_trans; eassumption.
Qed.

Lemma insertion_sort_sorted (l : list OptResult) :
  Forall (fun r => is_nan (pnlPct r) = false) l ->
  StronglySorted pnlPct_ge (insertion_sort OptResult_gt l).
Proof.
  induction l as [|x l IH]; intros Hl.
  - constructor.
  - apply Forall_cons_1 in Hl as [Hx Hl]. unfold insertion_sort in *. simpl.
    apply sort_insert_sorted; [done| |now apply IH].
    eapply Permutation_Forall; [symmetry; apply (insertion_sort_perm OptResult_gt)|done].
Qed.

(** On values that are not NaN, [>] is a strict weak ordering. *)
Lemma gt_strict_weak (x y z : float) :
  is_nan x = false -> is_nan y = false -> is_nan z = false ->
  implb ((y <? x) && (z <? y)) (z <? x)
  && implb ((negb (y <? x) && negb (x <? y)) && (negb (z <? y) && negb (y <? z)))
       (negb (z <? x) && negb (x <? z)) = true.
Proof.
  intros Hx Hy Hz. apply andb_true_intro. split.
  - destruct (y <? x) eqn:A, (z <? y) eqn:B; simpl; try done.
    now rewrite (ltb_trans z y x B A).
  - destruct (y <? x) eqn:A; [done|]. destruct (x <? y) eqn:B; [done|].
    destruct (z <? y) eqn:C; [done|]. destruct (y <? z) eqn:D; [done|]. simpl.
    pose proof (not_ltb_leb y x Hy Hx A) as Hxy.
    pose proof (not_ltb_leb x y Hx Hy B) as Hyx.
    pose proof (not_ltb_leb z y Hz Hy C) as Hyz.
    pose proof (not_ltb_leb y z Hy Hz D) as Hzy.
    pose proof (leb_trans x y z Hxy Hyz) as Hxz.
    pose proof (leb_trans z y x Hzy Hyx) as Hzx.
    destruct (z <? x) eqn:E; [apply ltb_not_leb in E; congruence|].
    destruct (x <? z) eqn:F; [apply ltb_not_leb in F; congruence|]. done.
Qed.

Lemma strict_weak_no_nan (l : list OptResult) :
  Forall (fun r => is_nan (pnlPct r) = false) l ->
  strict_weak OptResult_gt l = true.
Proof.
  intros Hl. rewrite Forall_forall in Hl.
  assert (Hin : forall r, In r l -> is_nan (pnlPct r) = false).
  { intros r Hr. apply Hl. now apply list_elem_of_In. }
  unfold strict_weak. apply andb_true_intro. split.
  - apply forallb_forall. intros a _. unfold OptResult_gt. now rewrite ltb_irrefl.
  - apply forallb_forall. intros a Ha. apply forallb_forall. intros b Hb.
    apply forallb_forall. intros c Hc. unfold OptResult_gt.
    apply gt_strict_weak; auto.
Qed.

Lemma std_sort_perm {A : Type} (comp : A -> A -> bool) (l r : list A) :
  std_sort comp l = Some r -> Permutation r l.
Proof.
  unfold std_sort. destruct (strict_weak comp l); [|discriminate].
  intros [= <-]. apply insertion_sort_perm.
Qed.

Lemma optTask_params (factory : gmap string Params.ParamValue -> outcome (list RunResult))
    (ps : gmap string Params.ParamValue) :
  params (optTask factory ps) = ps.
Proof.
  unfold optTask. destruct (factory ps) as [[|r rs]|e]; try done.
  now destruct (_ <? _)%nat.
Qed.

End Sorting.

(** The grid built by declaring the parameters one after the other. *)
Definition grid_of (decls : list (string * list Params.ParamValue)) : ParameterGrid.t :=
  foldl (fun g d => ParameterGrid.addParam d.1 d.2 g) ParameterGrid.init decls.

Lemma grid_of_members (decls : list (string * list Params.ParamValue)) :
  ParameterGrid.paramNames_ (grid_of decls) = map fst decls /\
  ParameterGrid.paramValues_ (grid_of decls) = map snd decls.
Proof.
  unfold grid_of. induction decls as [|d decls IH] using rev_ind; [done|].
  rewrite foldl_app, !map_app. simpl. destruct IH as [-> ->]. done.
Qed.

(** C9 (as the code has it).  An optimisation run over the grid that
    declares the parameters [decls], with any strategy factory.  The
    number of combinations is computed in [Size]: it is the product of the
    numbers of values modulo 2^64, hence the product itself when that is
    below 2^64.  When at least one parameter is declared, [generate] lists
    the assignments of that many leading elements of the Cartesian product
    of the value lists (all of them when the product is below 2^64), and
    one task is run per assignment.  When no task result has a NaN percent
    P&L the run returns a permutation of the task results, as many as
    there are combinations, in descending order of percent P&L.  Whenever
    the run is defined its results are such a permutation; it is undefined
    when [operator>] is not a strict weak ordering of the task results.
    When no parameter is declared the result list is empty. *)
Theorem C9_optimize_grid
    (decls : list (string * list Params.ParamValue))
    (factory : gmap string Params.ParamValue -> outcome (list Cerebro.RunResult))
    (c : Cerebro.t) :
  let names := map fst decls in
  let vss := map snd decls in
  let count := Size_wrap (Z.of_nat (product (map length vss))) in
  let tuples := take count (cart vss) in
  let tasks := map (fun t => Cerebro.optTask factory (assign names t)) tuples in
  let run := Cerebro.runOptimize (Cerebro.optStrategy (grid_of decls) factory c) in
  ((Z.of_nat (product (map length vss)) <= SIZE_MAX)%Z ->
   count = product (map length vss) /\ tuples = cart vss) /\
  (decls <> [] ->
   ParameterGrid.generate (grid_of decls) = map (assign names) tuples /\
   Forall2 (fun r t => Cerebro.params r = assign names t) tasks tuples /\
   length tasks = count /\
   (Forall (fun r => is_nan (Cerebro.pnlPct r) = false) tasks ->
    exists results,
      run = Some results /\
      Permutation results tasks /\
      length results = count /\
      StronglySorted pnlPct_ge results) /\
   (forall results,
      run = Some results -> Permutation results tasks /\ length results = count) /\
   (tasks <> [] ->
    Cerebro.strict_weak Cerebro.OptResult_gt tasks = false -> run = None)) /\
  (decls = [] -> run = Some []).
Proof.
  intros names vss count tuples tasks run.
  destruct (grid_of_members decls) as [Hn Hv]. fold names in Hn. fold vss in Hv.
  assert (Hle : count <= product (map length vss)) by apply Size_wrap_le.
  assert (Htl : length tuples = count).
  { unfold tuples. rewrite length_take, length_cart. lia. }
  split; [|split].
  - intros Hfit.
    assert (Hc : count = product (map length vss)) by now apply Size_wrap_fits.
    split; [exact Hc|]. unfold tuples. rewrite Hc.
    apply firstn_all2. rewrite length_cart. lia.
  - intros Hne.
    assert (Hgen : ParameterGrid.generate (grid_of decls) = map (assign names) tuples).
    { rewrite generate_take.
      - now rewrite totalCombinations_wrap, Hn, Hv.
      - rewrite Hn, Hv. unfold names, vss. now rewrite !length_map.
      - rewrite Hn. unfold names. now destruct decls. }
    assert (Hrun : run = match tasks with
                         | [] => Some []
                         | _ => Cerebro.std_sort Cerebro.OptResult_gt tasks
                         end).
    { unfold run, Cerebro.runOptimize, Cerebro.optStrategy.
      cbn [Cerebro.doOptimize_ Cerebro.optStrategyFactory_ Cerebro.optGrid_].
      rewrite Hgen. unfold tasks. rewrite <- (map_map (assign names) (Cerebro.optTask factory)).
      now destruct (map (assign names) tuples). }
    assert (Hlt : length tasks = count) by (unfold tasks; now rewrite length_map).
    split; [exact Hgen|]. split; [|split; [exact Hlt|split; [|split]]].
    + unfold tasks. clear. induction tuples as [|t ts IH]; constructor; [|done].
      apply optTask_params.
    + intros Hnan. exists (Cerebro.insertion_sort Cerebro.OptResult_gt tasks).
      pose proof (insertion_sort_perm Cerebro.OptResult_gt tasks) as Hperm.
      split; [|split; [exact Hperm|split]].
      * rewrite Hrun. destruct tasks as [|r rs] eqn:E; [reflexivity|].
        unfold Cerebro.std_sort. now rewrite strict_weak_no_nan.
      * now rewrite (Permutation_length Hperm).
      * now apply insertion_sort_sorted.
    + intros results Hres. rewrite Hrun in Hres.
      assert (Hperm : Permutation results tasks).
      { destruct tasks as [|r rs] eqn:E.
        - now injection Hres as <-.
        - now apply (std_sort_perm Cerebro.OptResult_gt). }
      split; [exact Hperm|]. now rewrite (Permutation_length Hperm).
    + intros Hnil Hsw. rewrite Hrun. destruct tasks as [|r rs] eqn:E; [done|].
      unfold Cerebro.std_sort. now rewrite Hsw.
  - intros ->. reflexivity.
Qed.

(** Scenario S5: six results, one per pair of a [fast] and a [slow] value,
    in descending order of the percent P&L [slow - 2 * fast]. *)
Lemma C9_optimize_grid_witness :
  exists results,
    Cerebro.runOptimize (Cerebro.optStrategy (grid_of decls_S5) factory_S5 Cerebro.init)
      = Some results /\
    map Cerebro.pnlPct results = [20; 10; 10; 0; 0; -10]%float /\
    length results = 6 /\
    Permutation results
      (map (fun t => Cerebro.optTask factory_S5 (assign ["fast"; "slow"] t))
         (cart [[Params.PInt 5; Params.PInt 10; Params.PInt 15];
                [Params.PInt 20; Params.PInt 30]])) /\
    StronglySorted pnlPct_ge results.
Proof.
  pose proof (C9_optimize_grid decls_S5 factory_S5 Cerebro.init) as H.
  cbv zeta in H. destruct H as (Hfit & Hgrid & _).
  destruct Hfit as [Hcount Htuples]; [vm_compute; intros E; discriminate E|].
  destruct Hgrid as (_ & _ & _ & Hsorted & _); [discriminate|].
  rewrite Htuples, Hcount in Hsorted.
  destruct Hsorted as (results & Hrun & Hperm & Hlen & Hs);
    [vm_compute; repeat constructor|].
  exists results. split; [exact Hrun|]. split; [|split; [exact Hlen|split]].
  - assert (E : option_map (map Cerebro.pnlPct)
                  (Cerebro.runOptimize
                     (Cerebro.optStrategy (grid_of decls_S5) factory_S5 Cerebro.init))
                = Some [20; 10; 10; 0; 0; -10]%float) by (vm_compute; reflexivity).
    rewrite Hrun in E. simpl in E. now injection E.
  - exact Hperm.
  - exact Hs.
Defined.

(** C9 as stated fails on the grid without parameters: the product of no
    numbers is 1, as [totalCombinations] computes it, and the Cartesian
    product of no lists has one element, the empty tuple; [generate] returns
    no assignment and the run no result. *)
Lemma C9_empty_grid_gives_no_result :
  Cerebro.runOptimize (Cerebro.optStrategy (grid_of []) factory_S5 Cerebro.init) = Some [] /\
  ParameterGrid.generate (grid_of []) = [] /\
  ParameterGrid.totalCombinations (grid_of []) = 1 /\
  product (map length (map snd ([] : list (string * list Params.ParamValue)))) = 1 /\
  cart (map snd ([] : list (string * list Params.ParamValue))) = [[]].
Proof. repeat split. Qed.

(* ===================================================================== *)
(** * Part III: further properties of the program                         *)
(* ===================================================================== *)

(** ** Line buffers: the cursor of the unbounded storage *)

Section UnboundedCursor.

Import UnboundedStorage.

(** The cursor is on an element, or at 0 on an empty vector. *)
Definition cursor_inside (s : t) : Prop :=
  (0 <= pos_ s)%Z /\ (pos_ s <= Z.of_nat (size s) - 1 \/ pos_ s = 0)%Z.

Lemma cursor_inside_exec o s : cursor_inside s -> cursor_inside (exec o s).
Proof.
  unfold cursor_inside, size. intros [H0 H1].
  destruct o as [v| | | |]; simpl.
  - rewrite length_app; simpl. lia.
  - unfold advance, size. destruct (Z.ltb_spec (pos_ s) (Z.of_nat (Datatypes.length (data_ s)) - 1));
      simpl; lia.
  - unfold rewind. destruct (Z.gtb_spec (pos_ s) 0); simpl; lia.
  - lia.
  - lia.
Qed.

Lemma cursor_inside_run os : forall s, cursor_inside s -> cursor_inside (run os s).
Proof.
  unfold run. induction os as [|o os IH]; intros s Hs; simpl; [done|].
  apply IH, cursor_inside_exec, Hs.
Qed.

Lemma iter_advance_pos n : forall s,
  (0 <= pos_ s)%Z ->
  pos_ (Nat.iter n advance s)
    = Z.max (pos_ s) (Z.min (pos_ s + Z.of_nat n) (Z.of_nat (size s) - 1)) /\
  data_ (Nat.iter n advance s) = data_ s.
Proof.
  induction n as [|n IH]; intros s Hs.
  - simpl. split; [lia|done].
  - rewrite Nat.iter_succ_r.
    assert (Ha : (0 <= pos_ (advance s))%Z /\ data_ (advance s) = data_ s /\
                 pos_ (advance s) =
                   if (pos_ s <? Z.of_nat (size s) - 1)%Z then (pos_ s + 1)%Z else pos_ s).
    { unfold advance. destruct (pos_ s <? Z.of_nat (size s) - 1)%Z; simpl; repeat split; lia. }
    destruct Ha as (Ha0 & Had & Hap).
    destruct (IH (advance s) Ha0) as [IHp IHd].
    rewrite IHp, IHd, Hap. unfold size. rewrite Had.
    split; [|done].
    destruct (Z.ltb_spec (pos_ s) (Z.of_nat (Datatypes.length (data_ s)) - 1)); lia.
Qed.

Lemma iter_rewind_pos n : forall s,
  pos_ (Nat.iter n rewind s)
    = (if (pos_ s <=? 0)%Z then pos_ s else Z.max 0 (pos_ s - Z.of_nat n)) /\
  data_ (Nat.iter n rewind s) = data_ s.
Proof.
  induction n as [|n IH]; intros s.
  - simpl. split; [|done]. destruct (Z.leb_spec (pos_ s) 0); lia.
  - rewrite Nat.iter_succ_r. destruct (IH (rewind s)) as [IHp IHd].
    rewrite IHp, IHd. unfold rewind.
    destruct (Z.gtb_spec (pos_ s) 0); simpl; (split; [|done]).
    + destruct (Z.leb_spec (pos_ s - 1) 0), (Z.leb_spec (pos_ s) 0); lia.
    + destruct (Z.leb_spec (pos_ s) 0); lia.
Qed.

End UnboundedCursor.

(** The cursor of an unbounded buffer never leaves the data.  After any
    sequence of push, advance, rewind, home and clear calls on a new
    storage the cursor is at 0 or on a stored element; so either the
    vector is empty, or a read at offset 0 returns the element under the
    cursor through both overloads of [at], and the mutable one does not
    throw. *)
Theorem unbounded_cursor_stays_inside (os : list UnboundedStorage.op) :
  let s := UnboundedStorage.run os UnboundedStorage.init in
  (0 <= UnboundedStorage.position s)%Z /\
  (UnboundedStorage.position s <= Z.of_nat (UnboundedStorage.size s) - 1 \/
   UnboundedStorage.position s = 0)%Z /\
  (UnboundedStorage.data_ s = [] \/
   exists v,
     UnboundedStorage.data_ s !! Z.to_nat (UnboundedStorage.position s) = Some v /\
     UnboundedStorage.at_const s 0 = v /\
     UnboundedStorage.at_mut s 0 = Returns v).
Proof.
  intros s.
  assert (H : cursor_inside s).
  { apply cursor_inside_run. unfold cursor_inside; simpl; lia. }
  destruct H as [H0 H1]. unfold UnboundedStorage.position.
  split; [done|]. split; [done|].
  destruct (UnboundedStorage.data_ s) as [|x d] eqn:Hd; [now left|right].
  assert (Hlt : Z.to_nat (UnboundedStorage.pos_ s) < length (UnboundedStorage.data_ s)).
  { unfold UnboundedStorage.size in H1. rewrite Hd in *. simpl in *. lia. }
  destruct (lookup_lt_is_Some_2 _ _ Hlt) as [v Hv].
  exists v. rewrite <- Hd. split; [done|].
  apply unbounded_at_in; [lia|]. now rewrite Z.sub_0_r.
Qed.

(** [advance] stops on the last element and [rewind] on the first.  From
    home, [n] advances leave the cursor on [min(n, size - 1)] (on 0 in an
    empty buffer); from a cursor [p >= 0], [n] rewinds leave it on
    [max(0, p - n)].  Neither changes the data. *)
Theorem unbounded_advance_rewind_saturate (s : UnboundedStorage.t) (n : nat) :
  let a := Nat.iter n UnboundedStorage.advance (UnboundedStorage.home s) in
  let r := Nat.iter n UnboundedStorage.rewind s in
  UnboundedStorage.position a
    = Z.max 0 (Z.min (Z.of_nat n) (Z.of_nat (UnboundedStorage.size s) - 1)) /\
  UnboundedStorage.data_ a = UnboundedStorage.data_ s /\
  UnboundedStorage.position r
    = (if (UnboundedStorage.position s <=? 0)%Z then UnboundedStorage.position s
       else Z.max 0 (UnboundedStorage.position s - Z.of_nat n)) /\
  UnboundedStorage.data_ r = UnboundedStorage.data_ s.
Proof.
  intros a r. unfold UnboundedStorage.position.
  destruct (iter_advance_pos n (UnboundedStorage.home s)) as [Hp Hd]; [simpl; lia|].
  destruct (iter_rewind_pos n s) as [Hrp Hrd].
  subst a r. rewrite Hp, Hd, Hrp, Hrd. simpl. repeat split.
Qed.

(** ** Line buffers: const indexing and [isValidIndex] *)

(** [isValidIndex(buf, idx)] never throws.  It answers [true] exactly when
    the slot that [idx] addresses ([pos_ - idx] in an unbounded buffer,
    [size - 1 - idx] in a bounded one) holds a value and that value is not
    NaN.  The const [operator[]] that it reads through throws on a slot
    outside the data: [current()] on a buffer without data throws. *)
Theorem isValidIndex_iff_stored_not_nan (b : LineBuffer.t) (idx : Index) :
  (LineBuffer.isValidIndex b idx = true <->
   exists v,
     is_nan v = false /\
     match LineBuffer.storage_ b with
     | LineBuffer.Unbounded s =>
         (0 <= UnboundedStorage.pos_ s - idx)%Z /\
         UnboundedStorage.data_ s !! Z.to_nat (UnboundedStorage.pos_ s - idx) = Some v
     | LineBuffer.QBuffer q =>
         (0 <= Z.of_nat (QBufferStorage.size q) - 1 - idx)%Z /\
         QBufferStorage.data_ q
           !! Z.to_nat (Z.of_nat (QBufferStorage.size q) - 1 - idx) = Some v
     end) /\
  (LineBuffer.size b = 0 -> exists e, LineBuffer.current b = Throws e).
Proof.
  split.
  - unfold LineBuffer.isValidIndex, LineBuffer.index_const.
    destruct (LineBuffer.storage_ b) as [s|q].
    + set (a := (UnboundedStorage.pos_ s - idx)%Z).
      destruct (Z.lt_ge_cases a 0) as [Hneg|Hpos].
      { destruct (unbounded_at_out s idx) as [_ ->]; [left; exact Hneg|].
        split; [discriminate|]. intros (v & _ & H0 & _). lia. }
      destruct (UnboundedStorage.data_ s !! Z.to_nat a) as [v|] eqn:Hv.
      * destruct (unbounded_at_in s idx v Hpos Hv) as [_ ->].
        split.
        -- intros H. exists v. apply negb_true_iff in H. auto.
        -- intros (v' & Hn & _ & [= <-]). now rewrite Hn.
      * apply lookup_ge_None in Hv.
        destruct (unbounded_at_out s idx) as [_ ->]; [right; fold a; lia|].
        split; [discriminate|]. intros (v & _ & _ & [=]).
    + set (a := (Z.of_nat (QBufferStorage.size q) - 1 - idx)%Z).
      destruct (Z.lt_ge_cases a 0) as [Hneg|Hpos].
      { destruct (qbuffer_at_out q idx) as [_ ->]; [left; exact Hneg|].
        split; [discriminate|]. intros (v & _ & H0 & _). lia. }
      destruct (QBufferStorage.data_ q !! Z.to_nat a) as [v|] eqn:Hv.
      * destruct (qbuffer_at_in q idx v Hpos Hv) as [_ ->].
        split.
        -- intros H. exists v. apply negb_true_iff in H. auto.
        -- intros (v' & Hn & _ & [= <-]). now rewrite Hn.
      * apply lookup_ge_None in Hv.
        destruct (qbuffer_at_out q idx) as [_ ->];
          [right; unfold a, QBufferStorage.size in *; lia|].
        split; [discriminate|]. intros (v & _ & _ & [=]).
  - unfold LineBuffer.size, LineBuffer.current, LineBuffer.index_const.
    destruct (LineBuffer.storage_ b) as [s|q]; intros Hsz.
    + destruct (unbounded_at_out s 0) as [_ ->]; [|eauto].
      unfold UnboundedStorage.size in Hsz. rewrite Hsz.
      destruct (Z.lt_ge_cases (UnboundedStorage.pos_ s - 0) 0); [left|right]; simpl; lia.
    + destruct (qbuffer_at_out q 0) as [_ ->]; [|eauto].
      unfold QBufferStorage.size in Hsz. rewrite Hsz. left; simpl; lia.
Qed.

(** ** The bounded ring: reads by age *)

Lemma qbuffer_run_app (os os' : list QBufferStorage.op) : forall q,
  QBufferStorage.run (os ++ os') q
  = match QBufferStorage.run os q with
    | Some q' => QBufferStorage.run os' q'
    | None => None
    end.
Proof.
  induction os as [|o os IH]; intros q; simpl; [done|].
  destruct (QBufferStorage.exec o q) as [q1|]; simpl; [apply IH|done].
Qed.

(** A bounded buffer of capacity [N >= 1] after any sequence of
    [push_back], [advance], [rewind], [home] and [clear] calls, of which
    [m] pushes came after the last [clear]: it holds the last [min(m, N)]
    of those values, [length()] is [m], and offset [k] reads the value
    pushed [k] pushes before the last one, for [k < min(m, N)], through
    both overloads.  Older offsets and negative ones are outside: the
    const overload gives NaN, the mutable one throws.  In particular a
    cleared buffer is empty, with [length()] 0. *)
Theorem qbuffer_reads_by_age (N : nat) (os : list QBufferStorage.op) :
  0 < N ->
  exists q,
    QBufferStorage.run os (QBufferStorage.init N) = Some q /\
    QBufferStorage.size q = Nat.min (length (QBufferStorage.pushed os)) N /\
    QBufferStorage.length q = length (QBufferStorage.pushed os) /\
    (forall k : nat,
        k < QBufferStorage.size q ->
        QBufferStorage.at_const q (Z.of_nat k)
          = nth k (rev (QBufferStorage.pushed os)) NaN /\
        QBufferStorage.at_mut q (Z.of_nat k)
          = Returns (nth k (rev (QBufferStorage.pushed os)) NaN)) /\
    (forall idx : Index,
        (idx < 0 \/ Z.of_nat (QBufferStorage.size q) <= idx)%Z ->
        QBufferStorage.at_const q idx = NaN /\
        QBufferStorage.at_mut q idx = Throws (out_of_range "QBuffer index out of range")) /\
    (exists q0,
        QBufferStorage.run (os ++ [QBufferStorage.Clear]) (QBufferStorage.init N) = Some q0 /\
        QBufferStorage.size q0 = 0 /\
        QBufferStorage.length q0 = 0 /\
        QBufferStorage.position q0 = 0%Z /\
        QBufferStorage.maxlen_ q0 = N).
Proof.
  intros HN.
  destruct (ring_holds_run N HN os [] _ (ring_holds_init N)) as (q & Hrun & Hq).
  change (ring_holds N (QBufferStorage.pushed os) q) in Hq. exists q. split; [done|].
  destruct Hq as (Hd & Ht & Hm).
  set (vs := QBufferStorage.pushed os) in *.
  assert (Hsz : QBufferStorage.size q = Nat.min (length vs) N).
  { unfold QBufferStorage.size. rewrite Hd, length_drop. lia. }
  split; [done|]. split; [done|]. split.
  - intros k Hk. rewrite Hsz in Hk.
    assert (Hv : QBufferStorage.data_ q
                   !! Z.to_nat (Z.of_nat (length (QBufferStorage.data_ q)) - 1 - Z.of_nat k)
                 = Some (nth k (rev vs) NaN)).
    { unfold QBufferStorage.size in Hsz. rewrite Hsz.
      rewrite Hd, lookup_drop, rev_nth by lia.
      replace (length vs - N + Z.to_nat (Z.of_nat (Nat.min (length vs) N) - 1 - Z.of_nat k))
        with (length vs - S k) by lia.
      destruct (lookup_lt_is_Some_2 vs (length vs - S k)) as [v Hv]; [lia|].
      rewrite Hv. f_equal. symmetry. now apply nth_lookup_Some. }
    apply qbuffer_at_in; [|done].
    unfold QBufferStorage.size in Hsz. lia.
  - split.
    + intros idx Hidx. apply qbuffer_at_out.
      unfold QBufferStorage.size in *. lia.
    + exists (QBufferStorage.clear q). rewrite qbuffer_run_app, Hrun.
      now repeat split.
Qed.

(** Capacity 2: a push, a clear, and three pushes with cursor moves in
    between.  The buffer holds 3 and 4, [length()] is 3, offsets 0 and 1
    read 4 and 3, offset 2 is outside. *)
Lemma qbuffer_reads_by_age_witness :
  let os := [QBufferStorage.Push 1; QBufferStorage.Clear; QBufferStorage.Push 2;
             QBufferStorage.Advance; QBufferStorage.Push 3; QBufferStorage.Home;
             QBufferStorage.Push 4]%float in
  exists q,
    QBufferStorage.run os (QBufferStorage.init 2) = Some q /\
    QBufferStorage.size q = 2 /\
    QBufferStorage.length q = 3 /\
    QBufferStorage.at_const q 0 = 4%float /\
    QBufferStorage.at_mut q 1 = Returns 3%float /\
    QBufferStorage.at_const q 2 = NaN.
Proof.
  intros os.
  destruct (qbuffer_reads_by_age 2 os) as (q & Hrun & Hs & Hl & Hin & Hout & _); [lia|].
  exists q. split; [done|]. split; [done|]. split; [done|].
  assert (H2 : QBufferStorage.size q = 2) by done.
  split; [|split].
  - apply (Hin 0). lia.
  - apply (Hin 1). lia.
  - apply (Hout 2%Z). lia.
Defined.

(** ** The element-wise kernels *)

Section ElementWise.

Local Open Scope float_scope.

(** What an array holds once [f j] was stored at every [j] in [lo, hi). *)
Definition filled (f : nat -> Value) (lo hi : nat) (result r : list Value) : Prop :=
  length r = length result /\
  forall j, r !! j = if (lo <=? j)%nat && (j <? hi)%nat then Some (f j) else result !! j.

Lemma filled_store (f : nat -> Value) (lo i : nat) (result r : list Value) :
  (lo <= i)%nat -> (i < length result)%nat ->
  filled f lo i result r -> filled f lo (S i) result (<[i := f i]> r).
Proof.
  intros Hlo Hi [Hlen H]. split; [now rewrite length_insert|].
  intros j. destruct (decide (j = i)) as [->|Hne].
  - rewrite list_lookup_insert_eq by lia.
    replace (lo <=? i)%nat with true by (symmetry; apply Nat.leb_le; lia).
    replace (i <? S i)%nat with true by (symmetry; apply Nat.ltb_lt; lia). done.
  - rewrite list_lookup_insert_ne by done. rewrite H.
    destruct (Nat.leb_spec lo j); [|done]. simpl.
    destruct (Nat.ltb_spec j i), (Nat.ltb_spec j (S i)); try done; lia.
Qed.

Lemma filled_refl (f : nat -> Value) (lo : nat) (result : list Value) :
  filled f lo lo result result.
Proof.
  split; [done|]. intros j.
  destruct (Nat.leb_spec lo j), (Nat.ltb_spec j lo); try done; lia.
Qed.

(** The scalar loop. *)
Lemma scalar_loop_filled (f : nat -> Value) (lo hi : nat) (result r : list Value) :
  (lo <= hi)%nat -> (hi <= length result)%nat ->
  filled f 0 lo result r ->
  filled f 0 hi result (for_loop lo hi (fun i r => <[i := f i]> r) r).
Proof.
  intros Hle Hhi H0.
  apply (for_loop_inv (fun i r => filled f 0 i result r)); [done|done|].
  intros i r' Hi Hr'. apply filled_store; [lia|lia|done].
Qed.

Lemma lanesAVX_filled (packed tail : nat -> Value) (result : list Value) (count : nat) :
  (count <= length result)%nat ->
  let vec := (count - count mod 4)%nat in
  filled (fun j => if (j <? vec)%nat then packed j else tail j) 0 count result
         (simd.lanesAVX packed tail result count).
Proof.
  intros Hc vec. unfold simd.lanesAVX. fold vec.
  pose proof (Nat.div_mod_eq count 4) as Hdm.
  pose proof (Nat.mod_upper_bound count 4 ltac:(lia)) as Hm.
  assert (Hvec : vec = (4 * (count / 4))%nat) by (unfold vec; lia).
  assert (Hq : (vec / 4 = count / 4)%nat).
  { rewrite Hvec, Nat.mul_comm. apply Nat.div_mul. lia. }
  set (f := fun j => if (j <? vec)%nat then packed j else tail j).
  assert (Hv : filled f 0 vec result
                 (for_range 0 (vec / 4)
                    (fun j r =>
                       let i := (4 * j)%nat in
                       <[(i + 3)%nat := packed (i + 3)%nat]>
                         (<[(i + 2)%nat := packed (i + 2)%nat]>
                            (<[(i + 1)%nat := packed (i + 1)%nat]> (<[i := packed i]> r))))
                    result)).
  { rewrite Hq. rewrite Hvec at 1.
    apply (for_range_inv (fun j r => filled f 0 (4 * j) result r) _ (count / 4) 0).
    - apply filled_refl.
    - intros j r Hj Hr. cbv zeta.
      assert (Hp : forall k, (k < vec)%nat -> packed k = f k).
      { intros k Hk. unfold f.
        now replace (k <? vec)%nat with true by (symmetry; apply Nat.ltb_lt; lia). }
      rewrite (Hp (4 * j)%nat), (Hp (4 * j + 1)%nat), (Hp (4 * j + 2)%nat),
        (Hp (4 * j + 3)%nat) by lia.
      replace (4 * S j)%nat with (S (4 * j + 3)) by lia.
      apply filled_store; [lia|lia|].
      replace (4 * j + 3)%nat with (S (4 * j + 2)) at 1 by lia.
      apply filled_store; [lia|lia|].
      replace (4 * j + 2)%nat with (S (4 * j + 1)) at 1 by lia.
      apply filled_store; [lia|lia|].
      replace (4 * j + 1)%nat with (S (4 * j)) at 1 by lia.
      apply filled_store; [lia|lia|done]. }
  assert (Ht : forall k, (vec <= k)%nat -> tail k = f k).
  { intros k Hk. unfold f.
    now replace (k <? vec)%nat with false by (symmetry; apply Nat.ltb_ge; lia). }
  apply (for_loop_inv (fun i r => filled f 0 i result r)); [lia|done|].
  intros i r Hi Hr. rewrite (Ht i) by lia. apply filled_store; [lia|lia|done].
Qed.

Lemma lanesSSE_filled (packed tail : nat -> Value) (result : list Value) (count : nat) :
  (count <= length result)%nat ->
  let vec := (count - count mod 2)%nat in
  filled (fun j => if (j <? vec)%nat then packed j else tail j) 0 count result
         (simd.lanesSSE packed tail result count).
Proof.
  intros Hc vec. unfold simd.lanesSSE. fold vec.
  pose proof (Nat.div_mod_eq count 2) as Hdm.
  pose proof (Nat.mod_upper_bound count 2 ltac:(lia)) as Hm.
  assert (Hvec : vec = (2 * (count / 2))%nat) by (unfold vec; lia).
  assert (Hq : (vec / 2 = count / 2)%nat).
  { rewrite Hvec, Nat.mul_comm. apply Nat.div_mul. lia. }
  set (f := fun j => if (j <? vec)%nat then packed j else tail j).
  assert (Hv : filled f 0 vec result
                 (for_range 0 (vec / 2)
                    (fun j r =>
                       let i := (2 * j)%nat in
                       <[(i + 1)%nat := packed (i + 1)%nat]> (<[i := packed i]> r))
                    result)).
  { rewrite Hq. rewrite Hvec at 1.
    apply (for_range_inv (fun j r => filled f 0 (2 * j) result r) _ (count / 2) 0).
    - apply filled_refl.
    - intros j r Hj Hr. cbv zeta.
      assert (Hp : forall k, (k < vec)%nat -> packed k = f k).
      { intros k Hk. unfold f.
        now replace (k <? vec)%nat with true by (symmetry; apply Nat.ltb_lt; lia). }
      rewrite (Hp (2 * j)%nat), (Hp (2 * j + 1)%nat) by lia.
      replace (2 * S j)%nat with (S (2 * j + 1)) by lia.
      apply filled_store; [lia|lia|].
      replace (2 * j + 1)%nat with (S (2 * j)) at 1 by lia.
      apply filled_store; [lia|lia|done]. }
  assert (Ht : forall k, (vec <= k)%nat -> tail k = f k).
  { intros k Hk. unfold f.
    now replace (k <? vec)%nat with false by (symmetry; apply Nat.ltb_ge; lia). }
  apply (for_loop_inv (fun i r => filled f 0 i result r)); [lia|done|].
  intros i r Hi Hr. rewrite (Ht i) by lia. apply filled_store; [lia|lia|done].
Qed.

Lemma filled_same (f g : nat -> Value) (hi : nat) (result r : list Value) :
  (forall j, (j < hi)%nat -> f j = g j) -> filled f 0 hi result r -> filled g 0 hi result r.
Proof.
  intros Hfg [Hlen H]. split; [done|]. intros j. rewrite H. simpl.
  destruct (Nat.ltb_spec j hi); [|done]. now rewrite Hfg.
Qed.

End ElementWise.

(** The element-wise sum, difference, product and product by a scalar do
    not depend on the SIMD level.  On arrays of at least [count] elements
    each kernel stores [a[j] op b[j]] at every [j < count], leaves the
    rest of [result] as it was, and does not change its length. *)
Theorem simd_elementwise_all_levels (lvl : simd.level) (a b result : list Value)
    (scalar : Value) (count : nat) :
  count <= length a -> count <= length b -> count <= length result ->
  let stores (f : nat -> Value) (r : list Value) :=
    length r = length result /\
    forall j, r !! j = if (j <? count)%nat then Some (f j) else result !! j in
  stores (fun j => simd.rd a j + simd.rd b j)%float (simd.add lvl a b result count) /\
  stores (fun j => simd.rd a j - simd.rd b j)%float (simd.sub lvl a b result count) /\
  stores (fun j => simd.rd a j * simd.rd b j)%float (simd.mul lvl a b result count) /\
  stores (fun j => simd.rd a j * scalar)%float (simd.mulByScalar lvl a scalar result count).
Proof.
  intros _ _ Hc stores.
  assert (Hst : forall f r, filled f 0 count result r -> stores f r).
  { intros f r [Hlen H]. split; [done|]. intros j. now rewrite H. }
  assert (Hsame : forall (f : nat -> Value) (vec j : nat),
             (if (j <? vec)%nat then f j else f j) = f j).
  { intros f vec j. now destruct (j <? vec)%nat. }
  destruct lvl; repeat split; try apply Hst;
    unfold simd.add, simd.sub, simd.mul, simd.mulByScalar,
      simd.addAVX, simd.subAVX, simd.mulAVX, simd.mulScalarAVX,
      simd.addSSE, simd.subSSE, simd.mulSSE, simd.mulScalarSSE,
      simd.addScalar, simd.subScalar, simd.mulScalar, simd.mulScalarVal.
  all: try (apply scalar_loop_filled; [lia|done|apply filled_refl]).
  all: try (eapply filled_same; [|apply lanesSSE_filled; exact Hc];
            intros j _; apply Hsame).
  all: eapply filled_same; [|apply lanesAVX_filled; exact Hc]; intros j _; apply Hsame.
Qed.

(** Five elements at the AVX level: one vector iteration and one scalar
    iteration. *)
Lemma simd_elementwise_all_levels_witness :
  let a := [1; 2; 3; 4; 5]%float in
  let b := [10; 20; 30; 40; 50]%float in
  simd.add simd.AVX a b (simd.zeros 6) 5 !! 4 = Some 55%float /\
  simd.add simd.AVX a b (simd.zeros 6) 5 !! 5 = Some 0%float /\
  simd.mulByScalar simd.AVX a 2 (simd.zeros 6) 5 !! 0 = Some 2%float.
Proof.
  intros a b.
  destruct (simd_elementwise_all_levels simd.AVX a b (simd.zeros 6) 2 5)
    as ((_ & Hadd) & _ & _ & _ & Hmul); [simpl; lia ..|].
  split; [apply (Hadd 4)|]. split; [apply (Hadd 5)|apply (Hmul 0)].
Defined.

(** Division tests the divisor only in the scalar loop.  At every [j <
    count] the scalar kernel stores NaN when [b[j]] is zero and the
    quotient otherwise; the SSE2 and AVX kernels do so only for the
    elements left after the last full vector, and store the IEEE quotient
    (an infinity, or NaN for 0/0) in the vector lanes. *)
Theorem simd_div_guards_only_the_tail (lvl : simd.level) (a b result : list Value)
    (count : nat) :
  count <= length a -> count <= length b -> count <= length result ->
  let vec :=
    match lvl with
    | simd.AVX => count - count mod 4
    | simd.SSE2 => count - count mod 2
    | simd.Scalar => 0
    end in
  let r := simd.div lvl a b result count in
  length r = length result /\
  forall j,
    r !! j =
      if (j <? vec)%nat then Some (simd.rd a j / simd.rd b j)%float
      else if (j <? count)%nat
      then Some (if negb (simd.rd b j =? 0)%float
                 then simd.rd a j / simd.rd b j else NaN)%float
      else result !! j.
Proof.
  intros _ _ Hc vec r.
  assert (Hvc : vec <= count) by (destruct lvl; unfold vec; lia).
  assert (H : filled (fun j => if (j <? vec)%nat then (simd.rd a j / simd.rd b j)%float
                               else (if negb (simd.rd b j =? 0)%float
                                     then simd.rd a j / simd.rd b j else NaN)%float)
                0 count result r).
  { subst r vec. destruct lvl; unfold simd.div, simd.divAVX, simd.divSSE, simd.divScalar.
    - apply scalar_loop_filled; [lia|done|apply filled_refl].
    - now apply lanesSSE_filled.
    - now apply lanesAVX_filled. }
  destruct H as [Hlen H]. split; [done|]. intros j. rewrite H. simpl.
  destruct (Nat.ltb_spec j vec), (Nat.ltb_spec j count); try done; lia.
Qed.

(** 1/0 in first position of five elements: NaN at the scalar level,
    infinity in the vector lane of the AVX level; in fifth position, which
    the scalar loop handles, NaN at both. *)
Lemma simd_div_guards_only_the_tail_witness :
  let a := [1; 1; 1; 1; 1]%float in
  let b := [0; 1; 1; 1; 0]%float in
  simd.div simd.Scalar a b (simd.zeros 5) 5 !! 0 = Some NaN /\
  simd.div simd.AVX a b (simd.zeros 5) 5 !! 0 = Some infinity /\
  simd.div simd.AVX a b (simd.zeros 5) 5 !! 4 = Some NaN.
Proof.
  intros a b.
  destruct (simd_div_guards_only_the_tail simd.Scalar a b (simd.zeros 5) 5)
    as [_ Hs]; [simpl; lia ..|].
  destruct (simd_div_guards_only_the_tail simd.AVX a b (simd.zeros 5) 5)
    as [_ Hv]; [simpl; lia ..|].
  split; [apply (Hs 0)|]. split; [apply (Hv 0)|apply (Hv 4)].
Defined.

(** ** Maximum and minimum of an array *)

Section MaxMin.

Local Open Scope float_scope.

Lemma is_nan_true_spec (x : float) : is_nan x = true -> Prim2SF x = S754_nan.
Proof.
  unfold is_nan. rewrite FloatAxioms.eqb_spec. unfold SFeqb. intros H.
  destruct (Prim2SF x) as [s|s| |s m e] eqn:E; try done;
    rewrite SFcompare_refl in H by done; done.
Qed.

Lemma ltb_nan_l (x y : float) : is_nan x = true -> (x <? y) = false.
Proof.
  intros H. rewrite FloatAxioms.ltb_spec, (is_nan_true_spec x H). reflexivity.
Qed.

Lemma ltb_nan_r (x y : float) : is_nan y = true -> (x <? y) = false.
Proof.
  intros H. rewrite FloatAxioms.ltb_spec, (is_nan_true_spec y H).
  unfold SFltb. now destruct (Prim2SF x) as [[]|[]| |[] ? ?].
Qed.

Variable data : list Value.
Variable count : nat.
Hypothesis count_pos : (1 <= count)%nat.
Hypothesis count_le : (count <= length data)%nat.

Lemma max_scan :
  (forall j v, (j < count)%nat -> data !! j = Some v -> is_nan v = false) ->
  (exists j, (j < count)%nat /\ data !! j = Some (simd.max data count)) /\
  (forall j v, (j < count)%nat -> data !! j = Some v -> (v <=? simd.max data count) = true).
Proof using count_pos count_le.
  intros Hnan. unfold simd.max.
  replace (count =? 0)%nat with false by (symmetry; apply Nat.eqb_neq; lia).
  apply (for_loop_inv
    (fun i result =>
       (exists j, (j < i)%nat /\ data !! j = Some result) /\
       (forall j v, (j < i)%nat -> data !! j = Some v -> (v <=? result) = true)));
    [lia| |].
  - destruct (lookup_lt_is_Some_2 data 0) as [v0 H0]; [lia|].
    rewrite (rd_lookup _ _ _ H0). split; [exists 0%nat; split; [lia|done]|].
    intros j v Hj Hv. assert (j = 0)%nat as -> by lia.
    rewrite H0 in Hv. injection Hv as <-. apply leb_refl, (Hnan 0%nat); [lia|done].
  - intros i result Hi ((j0 & Hj0 & Hres) & Hub).
    destruct (lookup_lt_is_Some_2 data i) as [d Hd]; [lia|].
    rewrite (rd_lookup _ _ _ Hd).
    assert (Hdn : is_nan d = false) by (apply (Hnan i); [lia|done]).
    assert (Hrn : is_nan result = false) by (apply (Hnan j0); [lia|done]).
    destruct (result <? d) eqn:Hlt.
    + split; [exists i; split; [lia|done]|].
      intros j v Hj Hv. destruct (decide (j = i)) as [->|Hne].
      * rewrite Hd in Hv. injection Hv as <-. now apply leb_refl.
      * apply (leb_trans _ result); [apply (Hub j); [lia|done]|now apply ltb_leb].
    + split; [exists j0; split; [lia|done]|].
      intros j v Hj Hv. destruct (decide (j = i)) as [->|Hne].
      * rewrite Hd in Hv. injection Hv as <-. now apply not_ltb_leb.
      * apply (Hub j); [lia|done].
Qed.

Lemma min_scan :
  (forall j v, (j < count)%nat -> data !! j = Some v -> is_nan v = false) ->
  (exists j, (j < count)%nat /\ data !! j = Some (simd.min data count)) /\
  (forall j v, (j < count)%nat -> data !! j = Some v -> (simd.min data count <=? v) = true).
Proof using count_pos count_le.
  intros Hnan. unfold simd.min.
  replace (count =? 0)%nat with false by (symmetry; apply Nat.eqb_neq; lia).
  apply (for_loop_inv
    (fun i result =>
       (exists j, (j < i)%nat /\ data !! j = Some result) /\
       (forall j v, (j < i)%nat -> data !! j = Some v -> (result <=? v) = true)));
    [lia| |].
  - destruct (lookup_lt_is_Some_2 data 0) as [v0 H0]; [lia|].
    rewrite (rd_lookup _ _ _ H0). split; [exists 0%nat; split; [lia|done]|].
    intros j v Hj Hv. assert (j = 0)%nat as -> by lia.
    rewrite H0 in Hv. injection Hv as <-. apply leb_refl, (Hnan 0%nat); [lia|done].
  - intros i result Hi ((j0 & Hj0 & Hres) & Hlb).
    destruct (lookup_lt_is_Some_2 data i) as [d Hd]; [lia|].
    rewrite (rd_lookup _ _ _ Hd).
    assert (Hdn : is_nan d = false) by (apply (Hnan i); [lia|done]).
    assert (Hrn : is_nan result = false) by (apply (Hnan j0); [lia|done]).
    destruct (d <? result) eqn:Hlt.
    + split; [exists i; split; [lia|done]|].
      intros j v Hj Hv. destruct (decide (j = i)) as [->|Hne].
      * rewrite Hd in Hv. injection Hv as <-. now apply leb_refl.
      * apply (leb_trans _ result); [now apply ltb_leb|apply (Hlb j); [lia|done]].
    + split; [exists j0; split; [lia|done]|].
      intros j v Hj Hv. destruct (decide (j = i)) as [->|Hne].
      * rewrite Hd in Hv. injection Hv as <-. now apply not_ltb_leb.
      * apply (Hlb j); [lia|done].
Qed.

(** A NaN in first position is never replaced: every comparison with it
    is false. *)
Lemma max_min_nan_first :
  is_nan (simd.rd data 0) = true ->
  simd.max data count = simd.rd data 0 /\ simd.min data count = simd.rd data 0.
Proof using count_pos count_le.
  intros Hn. unfold simd.max, simd.min.
  replace (count =? 0)%nat with false by (symmetry; apply Nat.eqb_neq; lia).
  split.
  - apply (for_loop_inv (fun _ result => result = simd.rd data 0)); [lia|done|].
    intros i result _ ->. now rewrite ltb_nan_l.
  - apply (for_loop_inv (fun _ result => result = simd.rd data 0)); [lia|done|].
    intros i result _ ->. now rewrite ltb_nan_r.
Qed.

End MaxMin.

(** [simd::max] and [simd::min] over the first [count >= 1] elements of an
    array.  When none of them is NaN, the maximum is one of them and no
    element is above it in the binary64 order, and the minimum likewise
    with none below it.  When the first element is NaN both return it,
    whatever follows. *)
Theorem simd_max_min_bounds (data : list Value) (count : nat) :
  1 <= count -> count <= length data ->
  ((forall j v, j < count -> data !! j = Some v -> is_nan v = false) ->
   (exists j, j < count /\ data !! j = Some (simd.max data count)) /\
   (forall j v, j < count -> data !! j = Some v ->
                (v <=? simd.max data count)%float = true) /\
   (exists j, j < count /\ data !! j = Some (simd.min data count)) /\
   (forall j v, j < count -> data !! j = Some v ->
                (simd.min data count <=? v)%float = true)) /\
  (is_nan (simd.rd data 0) = true ->
   is_nan (simd.max data count) = true /\ is_nan (simd.min data count) = true).
Proof.
  intros H1 Hle. split.
  - intros Hnan.
    destruct (max_scan data count H1 Hle Hnan) as [Ha Hb].
    destruct (min_scan data count H1 Hle Hnan) as [Hc Hd]. auto.
  - intros Hn. destruct (max_min_nan_first data count H1 Hle Hn) as [-> ->]. auto.
Qed.

(** Four values without NaN, and the same with NaN put first. *)
Lemma simd_max_min_bounds_witness :
  let data := [3; 7; -2; 5]%float in
  (7 <=? simd.max data 4)%float = true /\
  (simd.min data 4 <=? -2)%float = true /\
  is_nan (simd.max (NaN :: data) 5) = true.
Proof.
  intros data.
  destruct (simd_max_min_bounds data 4) as [H _]; [lia|simpl; lia|].
  destruct H as (_ & Hmax & _ & Hmin).
  { intros j v Hj Hv.
    destruct j as [|[|[|[|j]]]]; simpl in Hv; try lia; injection Hv as <-; reflexivity. }
  destruct (simd_max_min_bounds (NaN :: data) 5) as [_ Hn]; [lia|simpl; lia|].
  split; [apply (Hmax 1); [lia|reflexivity]|].
  split; [apply (Hmin 2); [lia|reflexivity]|].
  apply Hn. reflexivity.
Defined.

(** ** The sliding-window kernels *)

Section SlidingKernel.

Import simd.
Local Open Scope float_scope.

Variable lvl : level.
Variables data result : list Value.
Variable window : Size.

Let n := length data.

Hypothesis result_len : length result = n.

Lemma slidingSum_length : length (slidingSum lvl data result n window) = n.
Proof using result_len.
  unfold slidingSum.
  destruct ((n =? 0)%nat || (window =? 0)%nat); [done|].
  destruct (nan_fill (Nat.min (window - 1) n) result) as (Hlen & _ & _).
  set (r0 := for_loop 0 (Nat.min (window - 1) n) _ result) in *.
  destruct (n <? window)%nat; [lia|].
  unfold for_loop.
  apply (for_range_inv (fun _ s => length (snd s) = n)).
  - simpl. rewrite length_insert. lia.
  - intros i [w r] _ Hr. simpl in *. now rewrite length_insert.
Qed.

Lemma slidingSum_short :
  (n < window)%nat ->
  forall j, (j < n)%nat -> slidingSum lvl data result n window !! j = Some NaN.
Proof using result_len.
  intros Hshort j Hj. unfold slidingSum.
  replace (n =? 0)%nat with false by (symmetry; apply Nat.eqb_neq; lia).
  replace (window =? 0)%nat with false by (symmetry; apply Nat.eqb_neq; lia).
  replace (n <? window)%nat with true by (symmetry; apply Nat.ltb_lt; lia).
  simpl orb. cbv iota.
  destruct (nan_fill (Nat.min (window - 1) n) result) as (_ & Hnan & _).
  apply Hnan; lia.
Qed.

Hypothesis window_pos : (1 <= window)%nat.
Hypothesis window_le : (window <= n)%nat.

(** What holds of the running sum and the array when the incremental loop
    is about to write index [i]. *)
Definition sums_upto (i : nat) (s : Value * list Value) : Prop :=
  length (snd s) = n /\
  snd s !! (i - 1)%nat = Some (fst s) /\
  (forall j, (j < window - 1)%nat -> snd s !! j = Some NaN) /\
  snd s !! (window - 1)%nat = Some (sum lvl data window) /\
  (forall j, (window <= j < i)%nat ->
     exists prev, snd s !! (j - 1)%nat = Some prev /\
                  snd s !! j = Some (prev - rd data (j - window) + rd data j)).

Lemma slidingSum_full :
  let s := slidingSum lvl data result n window in
  (forall j, (j < window - 1)%nat -> s !! j = Some NaN) /\
  s !! (window - 1)%nat = Some (sum lvl data window) /\
  (forall j, (window <= j < n)%nat ->
     exists prev, s !! (j - 1)%nat = Some prev /\
                  s !! j = Some (prev - rd data (j - window) + rd data j)).
Proof using result_len window_pos window_le.
  unfold slidingSum.
  replace (n =? 0)%nat with false by (symmetry; apply Nat.eqb_neq; lia).
  replace (window =? 0)%nat with false by (symmetry; apply Nat.eqb_neq; lia).
  replace (n <? window)%nat with false by (symmetry; apply Nat.ltb_ge; lia).
  simpl orb. cbv iota.
  replace (Nat.min (window - 1) n) with (window - 1)%nat by lia.
  destruct (nan_fill (window - 1) result) as (Hlen & Hnan & _).
  set (r0 := for_loop 0 (window - 1) _ result) in *.
  cbv zeta.
  assert (H : sums_upto n
    (for_loop window n
       (fun i '(windowSum, r) =>
          let windowSum := windowSum - rd data (i - window) + rd data i in
          (windowSum, <[i := windowSum]> r))
       (sum lvl data window, <[(window - 1)%nat := sum lvl data window]> r0))).
  { apply (for_loop_inv sums_upto); [done| |].
    - split; [|split; [|split; [|split]]]; simpl.
      + rewrite length_insert. lia.
      + apply list_lookup_insert_eq. lia.
      + intros j Hj. rewrite list_lookup_insert_ne by lia. apply Hnan; lia.
      + apply list_lookup_insert_eq. lia.
      + intros j Hj. lia.
    - intros i [w r] Hi (Hl & Hw & Hn & Hs & Hrec). simpl in *.
      split; [|split; [|split; [|split]]]; simpl.
      + now rewrite length_insert.
      + rewrite Nat.sub_0_r. apply list_lookup_insert_eq. lia.
      + intros j Hj. rewrite list_lookup_insert_ne by lia. now apply Hn.
      + rewrite list_lookup_insert_ne by lia. done.
      + intros j Hj. destruct (decide (j = i)) as [->|Hne].
        * exists w. split.
          -- rewrite list_lookup_insert_ne by lia. done.
          -- rewrite list_lookup_insert_eq by lia. done.
        * destruct (Hrec j) as (p & Hp1 & Hp2); [lia|].
          exists p. rewrite !list_lookup_insert_ne by lia. done. }
  destruct H as (_ & _ & H1 & H2 & H3). auto.
Qed.

End SlidingKernel.

(** The division loop of [slidingMean]: each slot from [lo] on is divided
    in place. *)
Lemma scale_loop (d : Value) (lo hi : nat) (s : list Value) :
  (lo <= hi)%nat -> (hi <= length s)%nat ->
  filled (fun j => simd.rd s j / d)%float lo hi s
         (for_loop lo hi (fun i r => <[i := (simd.rd r i / d)%float]> r) s).
Proof.
  intros Hle Hhi.
  apply (for_loop_inv (fun i r => filled (fun j => simd.rd s j / d)%float lo i s r));
    [done|apply filled_refl|].
  intros i r Hi Hr.
  assert (Hsame : simd.rd r i = simd.rd s i).
  { destruct Hr as [_ Hr]. unfold simd.rd. rewrite !nth_lookup, Hr.
    replace (i <? i)%nat with false by (symmetry; apply Nat.ltb_ge; lia).
    now rewrite andb_false_r. }
  rewrite Hsame. apply filled_store; [lia|lia|done].
Qed.

(** The means are the sums divided in place, from slot [window - 1] on. *)
Lemma slidingMean_filled (lvl : simd.level) (data result : list Value) (window : nat) :
  length result = length data ->
  window <> 0 ->
  let n := length data in
  let s := simd.slidingSum lvl data result n window in
  filled (fun j => simd.rd s j / simd.Value_of_Size window)%float (window - 1) n s
         (simd.slidingMean lvl data result n window).
Proof.
  intros Hlen Hw n s.
  pose proof (slidingSum_length lvl data result window Hlen) as Hsl. fold n s in Hsl.
  unfold simd.slidingMean. fold n s.
  replace (window =? 0)%nat with false by (symmetry; apply Nat.eqb_neq; lia).
  destruct (le_lt_dec (window - 1) n) as [Hle|Hgt].
  - apply scale_loop; [done|lia].
  - unfold for_loop. replace (n - (window - 1)) with 0 by lia. simpl.
    split; [done|]. intros j.
    destruct (Nat.leb_spec (window - 1) j), (Nat.ltb_spec j n); try done; lia.
Qed.

(** [simd::slidingSum] and [simd::slidingMean] on an input of length [n]
    with a result array of the same length.  With [window = 0] the array
    is left as it was; with [window > n] its first [n] slots are NaN.
    With [1 <= window <= n] the slots before [window - 1] are NaN, the
    sum at [window - 1] is the kernel's sum of the first [window] inputs,
    every later sum is the previous one minus the input leaving the window
    plus the input entering it, and the mean at each slot from
    [window - 1] on is the sum of that slot divided by [window]. *)
Theorem simd_slidingMean_kernel (lvl : simd.level) (data result : list Value)
    (window : nat) :
  length result = length data ->
  let n := length data in
  let s := simd.slidingSum lvl data result n window in
  let m := simd.slidingMean lvl data result n window in
  length m = n /\
  (window = 0 -> s = result /\ m = result) /\
  (n < window -> forall j, j < n -> m !! j = Some NaN) /\
  (1 <= window <= n ->
   (forall j, j < window - 1 -> m !! j = Some NaN) /\
   s !! (window - 1) = Some (simd.sum lvl data window) /\
   (forall j, window <= j < n ->
      exists prev,
        s !! (j - 1) = Some prev /\
        s !! j = Some (prev - simd.rd data (j - window) + simd.rd data j)%float) /\
   (forall j, window - 1 <= j < n ->
      exists w, s !! j = Some w /\
                m !! j = Some (w / simd.Value_of_Size window)%float)).
Proof.
  intros Hlen n s m.
  pose proof (slidingSum_length lvl data result window Hlen) as Hsl. fold n s in Hsl.
  pose proof (slidingMean_filled lvl data result window Hlen) as Hm.
  cbv zeta in Hm. fold n s m in Hm.
  assert (H0 : window = 0 -> s = result /\ m = result).
  { intros ->. subst m s. unfold simd.slidingMean, simd.slidingSum. simpl.
    now rewrite orb_true_r. }
  split; [|split; [done|split]].
  - destruct (decide (window = 0)) as [Hw|Hw].
    + destruct (H0 Hw) as [_ ->]. done.
    + destruct (Hm Hw) as [-> _]. done.
  - intros Hshort j Hj. destruct (Hm ltac:(lia)) as [_ ->].
    replace (window - 1 <=? j)%nat with false by (symmetry; apply Nat.leb_gt; lia).
    simpl. now apply slidingSum_short.
  - intros [Hw1 Hwn].
    destruct (slidingSum_full lvl data result window Hlen Hw1 Hwn) as (Hnan & Hseed & Hrec).
    fold n s in Hnan, Hseed, Hrec.
    destruct (Hm ltac:(lia)) as [_ Hmj].
    split; [|split; [done|split; [done|]]].
    + intros j Hj. rewrite Hmj.
      replace (window - 1 <=? j)%nat with false by (symmetry; apply Nat.leb_gt; lia).
      simpl. now apply Hnan.
    + intros j Hj. destruct (lookup_lt_is_Some_2 s j) as [w Hw]; [lia|].
      exists w. split; [done|]. rewrite Hmj.
      replace (window - 1 <=? j)%nat with true by (symmetry; apply Nat.leb_le; lia).
      replace (j <? n)%nat with true by (symmetry; apply Nat.ltb_lt; lia).
      simpl. now rewrite (rd_lookup _ _ _ Hw).
Qed.

(** Window 2 over four prices at the SSE2 level. *)
Lemma simd_slidingMean_kernel_witness :
  let data := [1; 2; 4; 8]%float in
  let m := simd.slidingMean simd.SSE2 data (simd.zeros 4) 4 2 in
  length m = 4 /\ m !! 0 = Some NaN /\
  exists w, simd.slidingSum simd.SSE2 data (simd.zeros 4) 4 2 !! 3 = Some w /\
            m !! 3 = Some (w / simd.Value_of_Size 2)%float.
Proof.
  intros data m.
  destruct (simd_slidingMean_kernel simd.SSE2 data (simd.zeros 4) 2) as (Hl & _ & _ & H);
    [reflexivity|].
  destruct H as (Hnan & _ & _ & Hmean); [simpl; lia|].
  split; [exact Hl|]. split; [apply (Hnan 0); lia|].
  apply (Hmean 3). simpl. lia.
Defined.

(** ** NaN in the sliding sum *)

Section NanArithmetic.

Local Open Scope float_scope.

Lemma is_nan_of_spec (x : float) : Prim2SF x = S754_nan -> is_nan x = true.
Proof.
  intros H. unfold is_nan. rewrite FloatAxioms.eqb_spec, H. reflexivity.
Qed.

Lemma add_nan_l (x y : float) : is_nan x = true -> is_nan (x + y) = true.
Proof.
  intros H. apply is_nan_of_spec.
  rewrite FloatAxioms.add_spec, (is_nan_true_spec x H). reflexivity.
Qed.

Lemma add_nan_r (x y : float) : is_nan y = true -> is_nan (x + y) = true.
Proof.
  intros H. apply is_nan_of_spec.
  rewrite FloatAxioms.add_spec, (is_nan_true_spec y H).
  now destruct (Prim2SF x).
Qed.

Lemma sub_nan_l (x y : float) : is_nan x = true -> is_nan (x - y) = true.
Proof.
  intros H. apply is_nan_of_spec.
  rewrite FloatAxioms.sub_spec, (is_nan_true_spec x H). reflexivity.
Qed.

Lemma div_nan_l (x y : float) : is_nan x = true -> is_nan (x / y) = true.
Proof.
  intros H. apply is_nan_of_spec.
  rewrite FloatAxioms.div_spec, (is_nan_true_spec x H). reflexivity.
Qed.

End NanArithmetic.

Section SumNan.

Import simd.
Local Open Scope float_scope.

Variable data : list Value.
Variable j0 : nat.
Hypothesis nan_at : is_nan (rd data j0) = true.

Lemma tail_sum_nan (lo hi : nat) (acc : Value) :
  (lo <= hi)%nat ->
  is_nan acc = true \/ (lo <= j0 < hi)%nat ->
  is_nan (for_loop lo hi (fun i result => result + rd data i) acc) = true.
Proof using nan_at.
  intros Hle H0.
  apply (for_loop_inv
    (fun i acc' => is_nan acc' = true \/ (i <= j0 < hi)%nat)
    (fun i result => result + rd data i) lo hi acc Hle) in H0.
  - destruct H0 as [H|H]; [done|lia].
  - intros i acc' Hi [H|H].
    + left. now apply add_nan_l.
    + destruct (decide (i = j0)) as [->|Hne]; [left; now apply add_nan_r|right; lia].
Qed.

Lemma sum_nan (lvl : level) (count : nat) :
  (j0 < count)%nat -> is_nan (sum lvl data count) = true.
Proof using nan_at.
  intros Hj. destruct lvl; unfold sum.
  - unfold sumScalar. apply tail_sum_nan; [lia|right; lia].
  - unfold sumSSE.
    pose proof (Nat.div_mod_eq count 2) as Hdm.
    pose proof (Nat.mod_upper_bound count 2 ltac:(lia)) as Hm.
    set (vec := (count - count mod 2)%nat).
    assert (Hq : (vec / 2 = count / 2)%nat).
    { replace vec with (count / 2 * 2)%nat by (unfold vec; lia). apply Nat.div_mul. lia. }
    rewrite Hq.
    assert (Hv : (j0 < 2 * (count / 2))%nat ->
                 let vsum := for_range 0 (count / 2)
                   (fun j '(v0, v1) =>
                      let i := (2 * j)%nat in (v0 + rd data i, v1 + rd data (i + 1)))
                   (0, 0) in
                 is_nan (fst vsum) = true \/ is_nan (snd vsum) = true).
    { intros Hlt vsum.
      assert (H : (fun j (v : float * float) =>
                     (j0 < 2 * j)%nat -> is_nan (fst v) = true \/ is_nan (snd v) = true)
                    (0 + count / 2)%nat vsum).
      { apply for_range_inv; [intros; lia|].
        intros j [v0 v1] _ IH Hjj. simpl in *.
        destruct (decide (j0 < 2 * j)%nat) as [Hold|Hnew].
        - destruct (IH Hold) as [H|H]; [left|right]; now apply add_nan_l.
        - destruct (decide (j0 = 2 * j)%nat) as [->|Hodd].
          + left. now apply add_nan_r.
          + right. apply add_nan_r. now replace (j + (j + 0) + 1)%nat with j0 by lia. }
      apply H. rewrite Nat.add_0_l. exact Hlt. }
    apply tail_sum_nan; [unfold vec; lia|].
    destruct (decide (j0 < 2 * (count / 2))%nat) as [Hin|Hout].
    + left. destruct (Hv Hin) as [H|H]; [now apply add_nan_l|now apply add_nan_r].
    + right. unfold vec. lia.
  - unfold sumAVX.
    pose proof (Nat.div_mod_eq count 4) as Hdm.
    pose proof (Nat.mod_upper_bound count 4 ltac:(lia)) as Hm.
    set (vec := (count - count mod 4)%nat).
    assert (Hq : (vec / 4 = count / 4)%nat).
    { replace vec with (count / 4 * 4)%nat by (unfold vec; lia). apply Nat.div_mul. lia. }
    rewrite Hq.
    set (vsum := for_range 0 (count / 4) _ (0, 0, 0, 0)).
    assert (Hv : (j0 < 4 * (count / 4))%nat ->
                 let '(v0, v1, v2, v3) := vsum in
                 is_nan v0 = true \/ is_nan v1 = true \/
                 is_nan v2 = true \/ is_nan v3 = true).
    { intros Hlt.
      assert (H : (fun j (v : float * float * float * float) =>
                     (j0 < 4 * j)%nat ->
                     let '(v0, v1, v2, v3) := v in
                     is_nan v0 = true \/ is_nan v1 = true \/
                     is_nan v2 = true \/ is_nan v3 = true)
                    (0 + count / 4)%nat vsum).
      { apply for_range_inv; [intros; lia|].
        intros j [[[v0 v1] v2] v3] _ IH Hjj. simpl in *.
        destruct (decide (j0 < 4 * j)%nat) as [Hold|Hnew].
        - destruct (IH Hold) as [H|[H|[H|H]]];
            [left|right; left|right; right; left|right; right; right];
            now apply add_nan_l.
        - assert (Hcase : (j0 = 4 * j \/ j0 = 4 * j + 1 \/ j0 = 4 * j + 2
                           \/ j0 = 4 * j + 3)%nat) by lia.
          destruct Hcase as [E|[E|[E|E]]];
            [left|right; left|right; right; left|right; right; right];
            apply add_nan_r;
            match goal with |- is_nan (rd data ?k) = true =>
              replace k with j0 by lia end; done. }
      apply H. rewrite Nat.add_0_l. exact Hlt. }
    destruct vsum as [[[v0 v1] v2] v3].
    apply tail_sum_nan; [unfold vec; lia|].
    destruct (decide (j0 < 4 * (count / 4))%nat) as [Hin|Hout].
    + left. simpl. destruct (Hv Hin) as [H|[H|[H|H]]].
      * apply add_nan_l. now apply add_nan_l.
      * apply add_nan_r. now apply add_nan_l.
      * apply add_nan_l. now apply add_nan_r.
      * apply add_nan_r. now apply add_nan_r.
    + right. unfold vec. lia.
Qed.

End SumNan.

(** A NaN input never leaves the sliding sum.  The kernel keeps one
    running sum, so once the input at [j0] is NaN every sum and every mean
    from slot [max(j0, window - 1)] to the end of the array is NaN, also
    for the windows that no longer contain [j0]. *)
Theorem simd_sliding_nan_persists (lvl : simd.level) (data result : list Value)
    (window j0 : nat) :
  length result = length data ->
  1 <= window -> window <= length data ->
  j0 < length data ->
  is_nan (simd.rd data j0) = true ->
  forall j, j0 <= j -> window - 1 <= j -> j < length data ->
    exists w m,
      simd.slidingSum lvl data result (length data) window !! j = Some w /\
      simd.slidingMean lvl data result (length data) window !! j = Some m /\
      is_nan w = true /\ is_nan m = true.
Proof.
  intros Hlen Hw1 Hwn Hj0 Hnan.
  destruct (slidingSum_full lvl data result window Hlen Hw1 Hwn) as (_ & Hseed & Hrec).
  pose proof (slidingMean_filled lvl data result window Hlen ltac:(lia)) as [_ Hmean].
  cbv zeta in Hmean.
  set (n := length data) in *.
  set (s := simd.slidingSum lvl data result n window) in *.
  assert (Hs : forall j, j0 <= j -> window - 1 <= j -> j < n ->
                 exists w, s !! j = Some w /\ is_nan w = true).
  { induction j as [|j IH]; intros Hj Hwj Hjn.
    - assert (window = 1) as Hw by lia. assert (j0 = 0) as Hz by lia.
      exists (simd.sum lvl data window). split; [now rewrite Hw in *|].
      apply sum_nan with (j0 := j0); [done|lia].
    - destruct (decide (S j = window - 1)) as [E|NE].
      + exists (simd.sum lvl data window). split; [now rewrite E|].
        apply sum_nan with (j0 := j0); [done|lia].
      + destruct (Hrec (S j)) as (prev & Hprev & Hcur); [lia|].
        eexists; split; [exact Hcur|].
        destruct (decide (S j = j0)) as [E0|NE0].
        * apply add_nan_r. now rewrite E0.
        * apply add_nan_l, sub_nan_l.
          destruct IH as (w & Hw & Hwn'); [lia|lia|lia|].
          replace (S j - 1) with j in Hprev by lia. congruence. }
  intros j Hj Hwj Hjn. destruct (Hs j Hj Hwj Hjn) as (w & Hw & Hwnan).
  exists w, (w / simd.Value_of_Size window)%float.
  split; [done|]. split.
  - rewrite Hmean.
    replace (window - 1 <=? j)%nat with true by (symmetry; apply Nat.leb_le; lia).
    replace (j <? n)%nat with true by (symmetry; apply Nat.ltb_lt; lia).
    simpl. now rewrite (rd_lookup _ _ _ Hw).
  - split; [done|now apply div_nan_l].
Qed.

(** One NaN at index 1 of six inputs, window 2: the mean at index 5, whose
    window holds the inputs 4 and 5, is NaN. *)
Lemma simd_sliding_nan_persists_witness :
  exists m,
    simd.slidingMean simd.Scalar [1; NaN; 3; 4; 5; 6]%float (simd.zeros 6) 6 2 !! 5
      = Some m /\
    is_nan m = true.
Proof.
  pose proof (simd_sliding_nan_persists simd.Scalar [1; NaN; 3; 4; 5; 6]%float
                (simd.zeros 6) 2 1 eq_refl) as H.
  destruct (H ltac:(lia) ltac:(simpl; lia) ltac:(simpl; lia) eq_refl 5
              ltac:(lia) ltac:(lia) ltac:(simpl; lia)) as (w & m & _ & Hm & _ & Hn).
  exists m. split; [exact Hm|exact Hn].
Defined.

(** ** SMA: the event-driven step and the bulk pass *)

Section SmaNext.

Local Open Scope float_scope.

Variable b : LineBuffer.t.

(** The body of the summing loop of [SMA::next]. *)
Definition sma_body (i : nat) (acc : outcome Value) : outcome Value :=
  match acc with
  | Returns sum =>
      match SMA.dataValue b (Z.of_nat i) with
      | Returns v => Returns (sum + v)
      | Throws e => Throws e
      end
  | Throws e => Throws e
  end.

Lemma sma_next_unfold (period : Z) (lines0 : UnboundedStorage.t) :
  SMA.next period b lines0 =
    match for_range 0 (Z.to_nat period) sma_body (Returns 0) with
    | Returns sum =>
        Returns (UnboundedStorage.push_back (sum / Value_of_int period) lines0)
    | Throws e => Throws e
    end.
Proof. reflexivity. Qed.

Lemma sma_body_thrown (e : exception) (k : nat) : forall lo,
  for_range lo k sma_body (Throws e) = Throws e.
Proof. induction k as [|k IH]; intros lo; simpl; [done|apply IH]. Qed.

Lemma sma_body_reads (f : nat -> Value) (k : nat) : forall lo acc,
  (forall i, (lo <= i < lo + k)%nat -> SMA.dataValue b (Z.of_nat i) = Returns (f i)) ->
  for_range lo k sma_body (Returns acc)
    = Returns (foldl (fun a i => a + f i) acc (seq lo k)).
Proof.
  induction k as [|k IH]; intros lo acc H; simpl; [done|].
  rewrite (H lo) by lia. apply IH. intros i Hi. apply H. lia.
Qed.

Lemma sma_body_throws (f : nat -> Value) (e : exception) (k i0 : nat) : forall lo acc,
  (lo <= i0 < lo + k)%nat ->
  (forall i, (lo <= i < i0)%nat -> SMA.dataValue b (Z.of_nat i) = Returns (f i)) ->
  SMA.dataValue b (Z.of_nat i0) = Throws e ->
  for_range lo k sma_body (Returns acc) = Throws e.
Proof.
  induction k as [|k IH]; intros lo acc Hi0 Hr Ht; [lia|]. simpl.
  destruct (decide (lo = i0)) as [->|Hne].
  - rewrite Ht. apply sma_body_thrown.
  - rewrite (Hr lo) by lia. apply IH; [lia| |done]. intros i Hi. apply Hr. lia.
Qed.

End SmaNext.

(** [SMA::next] needs a full window behind the cursor.  With period
    [n >= 1] on an unbounded input whose cursor [p] is on an element, it
    throws [std::out_of_range] when [p < n - 1] and otherwise pushes one
    value: the inputs at [p], [p - 1], ..., [p - n + 1] added in that
    order to 0, divided by [n].  On a bounded input the window is counted
    from the tail: it throws when fewer than [n] values are held. *)
Theorem SMA_next_needs_full_window (period : Z) (b : LineBuffer.t)
    (lines0 : UnboundedStorage.t) :
  (1 <= period)%Z ->
  match LineBuffer.storage_ b with
  | LineBuffer.Unbounded s =>
      (0 <= UnboundedStorage.pos_ s < Z.of_nat (UnboundedStorage.size s))%Z ->
      SMA.next period b lines0 =
        if (UnboundedStorage.pos_ s <? period - 1)%Z
        then Throws (out_of_range "LineBuffer index out of range")
        else Returns (UnboundedStorage.push_back
               (foldl (fun a i =>
                         a + nth (Z.to_nat (UnboundedStorage.pos_ s) - i)
                                 (UnboundedStorage.data_ s) NaN)%float
                      0%float (seq 0 (Z.to_nat period))
                / Value_of_int period)%float lines0)
  | LineBuffer.QBuffer q =>
      SMA.next period b lines0 =
        if (Z.of_nat (QBufferStorage.size q) <? period)%Z
        then Throws (out_of_range "QBuffer index out of range")
        else Returns (UnboundedStorage.push_back
               (foldl (fun a i =>
                         a + nth (QBufferStorage.size q - 1 - i)
                                 (QBufferStorage.data_ q) NaN)%float
                      0%float (seq 0 (Z.to_nat period))
                / Value_of_int period)%float lines0)
  end.
Proof.
  intros Hp. rewrite sma_next_unfold.
  destruct (LineBuffer.storage_ b) as [s|q] eqn:Hst.
  - intros Hpos. unfold UnboundedStorage.size in Hpos.
    set (f := fun i => nth (Z.to_nat (UnboundedStorage.pos_ s) - i)
                           (UnboundedStorage.data_ s) NaN).
    assert (Hin : forall i, (Z.of_nat i <= UnboundedStorage.pos_ s)%Z ->
                    SMA.dataValue b (Z.of_nat i) = Returns (f i)).
    { intros i Hi. unfold SMA.dataValue, LineBuffer.index_mut. rewrite Hst.
      destruct (lookup_lt_is_Some_2 (UnboundedStorage.data_ s)
                  (Z.to_nat (UnboundedStorage.pos_ s - Z.of_nat i))) as [v Hv]; [lia|].
      destruct (unbounded_at_in s (Z.of_nat i) v) as [_ ->]; [lia|done|].
      f_equal. unfold f.
      replace (Z.to_nat (UnboundedStorage.pos_ s) - i)
        with (Z.to_nat (UnboundedStorage.pos_ s - Z.of_nat i)) by lia.
      symmetry. now apply nth_lookup_Some. }
    destruct (Z.ltb_spec (UnboundedStorage.pos_ s) (period - 1)) as [Hlt|Hge].
    + rewrite (sma_body_throws b f (out_of_range "LineBuffer index out of range")
                 (Z.to_nat period) (Z.to_nat (UnboundedStorage.pos_ s + 1)));
        [done|lia| |].
      * intros i Hi. apply Hin. lia.
      * unfold SMA.dataValue, LineBuffer.index_mut. rewrite Hst.
        destruct (unbounded_at_out s (Z.of_nat (Z.to_nat (UnboundedStorage.pos_ s + 1))))
          as [_ ->]; [left; lia|done].
    + rewrite (sma_body_reads b f); [done|]. intros i Hi. apply Hin. lia.
  - set (f := fun i => nth (QBufferStorage.size q - 1 - i) (QBufferStorage.data_ q) NaN).
    assert (Hin : forall i, (i < QBufferStorage.size q)%nat ->
                    SMA.dataValue b (Z.of_nat i) = Returns (f i)).
    { intros i Hi. unfold SMA.dataValue, LineBuffer.index_mut. rewrite Hst.
      unfold QBufferStorage.size in *.
      destruct (lookup_lt_is_Some_2 (QBufferStorage.data_ q)
                  (Z.to_nat (Z.of_nat (length (QBufferStorage.data_ q)) - 1 - Z.of_nat i)))
        as [v Hv]; [lia|].
      destruct (qbuffer_at_in q (Z.of_nat i) v) as [_ ->]; [lia|done|].
      f_equal. unfold f, QBufferStorage.size.
      replace (length (QBufferStorage.data_ q) - 1 - i)
        with (Z.to_nat (Z.of_nat (length (QBufferStorage.data_ q)) - 1 - Z.of_nat i))
        by lia.
      symmetry. now apply nth_lookup_Some. }
    destruct (Z.ltb_spec (Z.of_nat (QBufferStorage.size q)) period) as [Hlt|Hge].
    + rewrite (sma_body_throws b f (out_of_range "QBuffer index out of range")
                 (Z.to_nat period) (QBufferStorage.size q));
        [done|lia| |].
      * intros i Hi. apply Hin. lia.
      * unfold SMA.dataValue, LineBuffer.index_mut. rewrite Hst.
        destruct (qbuffer_at_out q (Z.of_nat (QBufferStorage.size q)))
          as [_ ->]; [left; unfold QBufferStorage.size; lia|done].
    + rewrite (sma_body_reads b f); [done|]. intros i Hi. apply Hin. lia.
Qed.

(** Period 3 on the input 1, 2, 4: with the cursor on the second element
    the call throws, on the third it pushes (4 + 2 + 1) / 3. *)
Lemma SMA_next_needs_full_window_witness :
  let at_ p := LineBuffer.mk (LineBuffer.Unbounded
                 (UnboundedStorage.mk [1; 2; 4]%float p)) 1 in
  SMA.next 3 (at_ 1%Z) UnboundedStorage.init
    = Throws (out_of_range "LineBuffer index out of range") /\
  SMA.next 3 (at_ 2%Z) UnboundedStorage.init
    = Returns (UnboundedStorage.mk [(0 + 4 + 2 + 1) / 3]%float 0).
Proof.
  intros at_. split.
  - apply (SMA_next_needs_full_window 3 (at_ 1%Z) UnboundedStorage.init); [lia|].
    vm_compute. split; [discriminate|reflexivity].
  - apply (SMA_next_needs_full_window 3 (at_ 2%Z) UnboundedStorage.init); [lia|].
    vm_compute. split; [discriminate|reflexivity].
Defined.

Lemma push_loop (temp : list Value) (lo hi : nat) (l : UnboundedStorage.t) :
  lo <= hi -> hi <= length temp ->
  for_loop lo hi (fun i l => UnboundedStorage.push_back (simd.rd temp i) l) l
    = UnboundedStorage.mk (UnboundedStorage.data_ l ++ take (hi - lo) (drop lo temp))
                          (UnboundedStorage.pos_ l).
Proof.
  intros Hle Hhi.
  apply (for_loop_inv
    (fun i l' => l' = UnboundedStorage.mk
                        (UnboundedStorage.data_ l ++ take (i - lo) (drop lo temp))
                        (UnboundedStorage.pos_ l))); [done| |].
  - rewrite Nat.sub_diag. simpl. rewrite app_nil_r. now destruct l.
  - intros i l' Hi ->. unfold UnboundedStorage.push_back. simpl. f_equal.
    rewrite <- app_assoc. f_equal.
    replace (S i - lo) with (S (i - lo)) by lia.
    destruct (lookup_lt_is_Some_2 temp i) as [v Hv]; [lia|].
    rewrite (take_S_r _ _ v).
    + now rewrite (rd_lookup _ _ _ Hv).
    + rewrite lookup_drop. now replace (lo + (i - lo)) with i by lia.
Qed.

Lemma slidingMean_length (lvl : simd.level) (data result : list Value) (window : nat) :
  length result = length data ->
  length (simd.slidingMean lvl data result (length data) window) = length data.
Proof.
  intros Hlen. destruct (decide (window = 0)) as [->|Hw].
  - unfold simd.slidingMean, simd.slidingSum. simpl. now rewrite orb_true_r.
  - destruct (slidingMean_filled lvl data result window Hlen Hw) as [-> _].
    now apply slidingSum_length.
Qed.

(** [SMA::once] on an unbounded input that holds data ignores its [start]
    and [end] arguments.  With [1 <= period <= len] it appends to the
    output line the kernel's means from index [period - 1] on, which are
    [len - period + 1] values and no NaN prefix; with a period above [len]
    or below 1 it appends nothing.  What the line held before stays, so a
    second call appends the same values again. *)
Theorem SMA_once_appends_valid_suffix (lvl : simd.level) (period : Z)
    (s : UnboundedStorage.t) (mp : nat) (lines0 : UnboundedStorage.t)
    (start end_ : nat) :
  UnboundedStorage.data_ s <> [] ->
  let input := LineBuffer.mk (LineBuffer.Unbounded s) mp in
  let len := length (UnboundedStorage.data_ s) in
  let kernel :=
    simd.slidingMean lvl (UnboundedStorage.data_ s) (simd.zeros len) len
      (Z.to_nat period) in
  SMA.once lvl period input lines0 start end_ =
    (if (period <? 1)%Z || (Z.of_nat len <? period)%Z then Returns lines0
     else Returns (UnboundedStorage.mk
            (UnboundedStorage.data_ lines0 ++ drop (Z.to_nat period - 1) kernel)
            (UnboundedStorage.pos_ lines0))) /\
  ((1 <= period <= Z.of_nat len)%Z ->
   length (drop (Z.to_nat period - 1) kernel) = len - Z.to_nat period + 1).
Proof.
  intros Hne input len kernel.
  assert (Hk : length kernel = len).
  { apply slidingMean_length. apply length_replicate. }
  split.
  - unfold SMA.once.
    change (LineBuffer.rawData input) with (Some (UnboundedStorage.data_ s)).
    destruct (UnboundedStorage.data_ s) as [|x d] eqn:Hd; [done|].
    fold len. cbv zeta.
    destruct (Z.ltb_spec period 0) as [Hneg|Hnn].
    { now replace (period <? 1)%Z with true by lia. }
    destruct (Nat.ltb_spec len (Z.to_nat period)) as [Hshort|Hfit].
    { replace (Z.of_nat len <? period)%Z with true by lia. now rewrite orb_true_r. }
    replace (Z.of_nat len <? period)%Z with false by lia. rewrite orb_false_r.
    destruct (Z.eqb_spec period 0) as [->|Hnz]; [done|].
    replace (period <? 1)%Z with false by lia.
    fold kernel. rewrite push_loop by lia. do 3 f_equal.
    apply take_ge. rewrite length_drop. lia.
  - intros Hp. rewrite length_drop. lia.
Qed.

(** Period 2 on three prices, at two different [start] and [end]: the same
    two means are appended to a line that already holds one value. *)
Lemma SMA_once_appends_valid_suffix_witness :
  let s := UnboundedStorage.mk [1; 2; 4]%float 0 in
  let input := LineBuffer.mk (LineBuffer.Unbounded s) 1 in
  let line := UnboundedStorage.mk [9]%float 0 in
  SMA.once simd.Scalar 2 input line 0 3
    = Returns (UnboundedStorage.mk [9; 1.5; 3]%float 0) /\
  SMA.once simd.Scalar 2 input line 7 7
    = Returns (UnboundedStorage.mk [9; 1.5; 3]%float 0).
Proof.
  intros s input line.
  destruct (SMA_once_appends_valid_suffix simd.Scalar 2 s 1 line 0 3) as [H1 _];
    [discriminate|].
  destruct (SMA_once_appends_valid_suffix simd.Scalar 2 s 1 line 7 7) as [H2 _];
    [discriminate|].
  split; [exact H1|exact H2].
Defined.

(** ** RSI: the warm-up of the event-driven step *)

Section RsiNext.

Local Open Scope float_scope.

Variable period : Z.
Hypothesis period_pos : (1 <= period)%Z.
Variable data : list Value.
Variable mp : nat.

Let at_ (p : Z) : LineBuffer.t :=
  LineBuffer.mk (LineBuffer.Unbounded (UnboundedStorage.mk data p)) mp.

Lemma rsi_reads (p : Z) (idx : Z) :
  (0 <= p - idx < Z.of_nat (length data))%Z ->
  exists v, LineBuffer.index_mut (at_ p) idx = Returns v.
Proof.
  intros H. unfold LineBuffer.index_mut. simpl.
  destruct (lookup_lt_is_Some_2 data (Z.to_nat (p - idx))) as [v Hv]; [lia|].
  exists v. now apply (unbounded_at_in (UnboundedStorage.mk data p) idx v); [simpl; lia|].
Qed.

(** One call with both reads in range: one value is pushed, the bar is
    counted, and the value is NaN while fewer than [period] bars were
    seen. *)
Lemma rsi_next_step (p : Z) (r : RSI.t) (l : UnboundedStorage.t) (k : nat) :
  (1 <= p < Z.of_nat (length data))%Z ->
  RSI.barCount_ r = k ->
  RSI.initialized_ r = (period <=? Z.of_nat k)%Z ->
  exists r' v,
    RSI.next period (at_ p) r l = Returns (r', UnboundedStorage.push_back v l) /\
    RSI.barCount_ r' = S k /\
    RSI.initialized_ r' = (period <=? Z.of_nat (S k))%Z /\
    ((Z.of_nat k < period - 1)%Z -> v = NaN).
Proof using period_pos.
  intros Hp Hk Hi. unfold RSI.next.
  destruct (rsi_reads p 0) as [cur ->]; [lia|].
  destruct (rsi_reads p 1) as [prev ->]; [lia|].
  cbv zeta. rewrite Hi, Hk.
  destruct (Z.leb_spec period (Z.of_nat k)) as [Hinit|Hwarm]; simpl negb; cbv iota.
  - eexists _, _. split; [reflexivity|]. simpl.
    split; [done|]. split; [symmetry; apply Z.leb_le; lia|lia].
  - replace (0 <=? period)%Z with true by (symmetry; apply Z.leb_le; lia).
    rewrite andb_true_r.
    destruct (Nat.leb_spec (Z.to_nat period) (S k)) as [Hfull|Hnot].
    + eexists _, _. split; [reflexivity|]. simpl.
      split; [done|]. split; [symmetry; apply Z.leb_le; lia|lia].
    + eexists _, _. split; [reflexivity|]. simpl.
      split; [done|]. split; [symmetry; apply Z.leb_gt; lia|done].
Qed.

Lemma rsi_first_bar (r : RSI.t) (l : UnboundedStorage.t) :
  RSI.next period (at_ 0) r l = Throws (out_of_range "LineBuffer index out of range").
Proof.
  unfold RSI.next, LineBuffer.index_mut. simpl.
  destruct data as [|x d].
  - reflexivity.
  - reflexivity.
Qed.

Lemma rsi_run (p0 : Z) (calls : nat) :
  (1 <= p0)%Z -> (p0 + Z.of_nat calls <= Z.of_nat (length data))%Z ->
  exists r l,
    RSI.run_next period calls (at_ p0) = Returns (r, l) /\
    length (UnboundedStorage.data_ l) = calls /\
    RSI.barCount_ r = calls /\
    RSI.initialized_ r = (period <=? Z.of_nat calls)%Z /\
    (forall j, (j < calls)%nat -> (Z.of_nat j < period - 1)%Z ->
               UnboundedStorage.data_ l !! j = Some NaN).
Proof using period_pos.
  intros Hp0 Hfit. unfold RSI.run_next.
  set (body := fun (_ : nat) '(b, acc) =>
                 (LineBuffer.advance b,
                  match acc with
                  | Returns (r, l) => RSI.next period b r l
                  | Throws e => Throws e
                  end)).
  assert (H : (fun k (st : LineBuffer.t * outcome (RSI.t * UnboundedStorage.t)) =>
                 ((k < calls)%nat -> fst st = at_ (p0 + Z.of_nat k)) /\
                 exists r l,
                   snd st = Returns (r, l) /\
                   length (UnboundedStorage.data_ l) = k /\
                   RSI.barCount_ r = k /\
                   RSI.initialized_ r = (period <=? Z.of_nat k)%Z /\
                   (forall j, (j < k)%nat -> (Z.of_nat j < period - 1)%Z ->
                              UnboundedStorage.data_ l !! j = Some NaN))
                (0 + calls)%nat
                (for_range 0 calls body
                   (at_ p0, Returns (RSI.init period RSI.fresh, UnboundedStorage.init)))).
  { apply for_range_inv.
    - simpl. split; [intros _; now rewrite Z.add_0_r|].
      eexists _, _. split; [reflexivity|]. simpl.
      split; [done|]. split; [done|]. split; [symmetry; apply Z.leb_gt; lia|].
      intros j Hj. lia.
    - intros k [b acc] Hk (Hb & r & l & Hacc & Hlen & Hcnt & Hini & Hnan).
      simpl in Hb, Hacc. rewrite (Hb ltac:(lia)). subst acc. simpl.
      destruct (rsi_next_step (p0 + Z.of_nat k) r l k) as (r' & v & -> & Hc' & Hi' & Hv);
        [lia|done|done|].
      split.
      + intros Hlt. unfold LineBuffer.advance, UnboundedStorage.advance. simpl.
        unfold UnboundedStorage.size. simpl.
        replace (p0 + Z.of_nat k <? Z.of_nat (length data) - 1)%Z with true
          by (symmetry; apply Z.ltb_lt; lia).
        unfold at_. do 3 f_equal. lia.
      + exists r', (UnboundedStorage.push_back v l). split; [done|].
        unfold UnboundedStorage.push_back. simpl. rewrite length_app. simpl.
        split; [lia|]. split; [done|]. split; [done|].
        intros j Hj Hjp. destruct (decide (j = k)) as [->|Hne].
        * rewrite lookup_app_r by lia. rewrite Hlen, Nat.sub_diag. simpl.
          now rewrite Hv.
        * rewrite lookup_app_l by lia. apply Hnan; [lia|done]. }
  destruct H as (_ & r & l & Hs & H). exists r, l. split; [|exact H].
  exact Hs.
Qed.

End RsiNext.

(** [RSI::next] with period [n >= 1] on an unbounded input.  On the first
    bar there is no previous value and the call throws.  Driven from a
    cursor [p0 >= 1] once per bar over bars that exist, every call pushes
    one value and counts one bar; the first [n - 1] values pushed are NaN,
    and the indicator is initialised exactly when [n] bars were counted. *)
Theorem RSI_next_warms_up (period : Z) (data : list Value) (mp : nat) :
  (1 <= period)%Z ->
  let at_ p := LineBuffer.mk (LineBuffer.Unbounded (UnboundedStorage.mk data p)) mp in
  (forall r l,
      RSI.next period (at_ 0%Z) r l
        = Throws (out_of_range "LineBuffer index out of range")) /\
  (forall (p0 : Z) (calls : nat),
      (1 <= p0)%Z -> (p0 + Z.of_nat calls <= Z.of_nat (length data))%Z ->
      exists r l,
        RSI.run_next period calls (at_ p0) = Returns (r, l) /\
        length (UnboundedStorage.data_ l) = calls /\
        RSI.barCount_ r = calls /\
        RSI.initialized_ r = (period <=? Z.of_nat calls)%Z /\
        (forall j, j < calls -> (Z.of_nat j < period - 1)%Z ->
                   UnboundedStorage.data_ l !! j = Some NaN)).
Proof.
  intros Hp at_. split.
  - intros r l. apply rsi_first_bar.
  - intros p0 calls H1 H2. now apply rsi_run.
Qed.

(** Period 3 over five prices, driven from the second bar: four values,
    the first two NaN. *)
Lemma RSI_next_warms_up_witness :
  exists r l,
    RSI.run_next 3 4 (LineBuffer.mk (LineBuffer.Unbounded
        (UnboundedStorage.mk [10; 11; 10; 12; 13]%float 1)) 1) = Returns (r, l) /\
    length (UnboundedStorage.data_ l) = 4 /\
    RSI.initialized_ r = true /\
    UnboundedStorage.data_ l !! 1 = Some NaN.
Proof.
  destruct (RSI_next_warms_up 3 [10; 11; 10; 12; 13]%float 1) as [_ H]; [lia|].
  destruct (H 1%Z 4) as (r & l & Hrun & Hlen & _ & Hini & Hnan); [lia|simpl; lia|].
  exists r, l. split; [exact Hrun|]. split; [exact Hlen|]. split; [exact Hini|].
  apply (Hnan 1); lia.
Defined.

(** ** RSI: the bulk pass *)

Lemma for_range_length {A : Type} (body : nat -> list A -> list A) (n : nat) :
  (forall i r, length (body i r) = length r) ->
  forall lo r, length (for_range lo n body r) = length r.
Proof.
  intros Hb. induction n as [|n IH]; intros lo r; simpl; [done|].
  now rewrite IH, Hb.
Qed.

Lemma rsi_kernel_length (lvl : simd.level) (data result : list Value)
    (dataLen period : nat) :
  length (simd.rsi lvl data result dataLen period) = length result.
Proof.
  unfold simd.rsi, for_loop.
  destruct ((dataLen <? 2)%nat || (period =? 0)%nat).
  - apply for_range_length. intros i r. apply length_insert.
  - destruct (for_range 0 (dataLen - 1 - 0) _ (simd.zeros (dataLen - 1), simd.zeros (dataLen - 1)))
      as [gains losses].
    rewrite for_range_length.
    + apply for_range_length. intros i r. apply length_insert.
    + intros i r. cbv zeta.
      repeat match goal with |- context [if ?c then _ else _] => destruct c end;
        apply length_insert.
Qed.

(** [RSI::once] on an unbounded input of [len] values with
    [1 <= period <= len] leaves the kernel's array without its first
    [period] slots: [len - period] values, output [j] being the kernel's
    slot [period + j].  Driven by [next] over the same input the line gets
    one value per bar from the second bar on: [len - 1] values, of which
    the first [period - 1] are NaN.  So the event-driven line is longer by
    [period - 1] values, and the two have the same length only for
    [period = 1]. *)
Theorem RSI_once_drops_warm_up (lvl : simd.level) (period : nat)
    (rawInput : list Value) :
  1 <= period -> period <= length rawInput ->
  let len := length rawInput in
  let kernel := simd.rsi lvl rawInput (simd.zeros len) len period in
  let bulk := RSI.once lvl period rawInput in
  bulk = drop period kernel /\
  length bulk = len - period /\
  (forall j, j < len - period -> bulk !! j = kernel !! (period + j)) /\
  exists r l,
    RSI.run_next (Z.of_nat period) (len - 1)
      (LineBuffer.mk (LineBuffer.Unbounded (UnboundedStorage.mk rawInput 1)) 1)
      = Returns (r, l) /\
    length (UnboundedStorage.data_ l) = len - 1 /\
    (forall j, j < period - 1 -> j < len - 1 ->
               UnboundedStorage.data_ l !! j = Some NaN) /\
    length (UnboundedStorage.data_ l) = length bulk + (period - 1) /\
    (length (UnboundedStorage.data_ l) = length bulk <-> period = 1).
Proof.
  intros H1 Hle len kernel bulk.
  assert (Hk : length kernel = len).
  { unfold kernel. rewrite rsi_kernel_length. apply length_replicate. }
  assert (Ho : bulk = drop period kernel).
  { unfold bulk, RSI.once. fold len. cbv zeta. fold kernel. rewrite Hk.
    replace (0 <? period)%nat with true by (symmetry; apply Nat.ltb_lt; lia).
    replace (period <=? len)%nat with true by (symmetry; apply Nat.leb_le; lia).
    replace (len - period <? len)%nat with true by (symmetry; apply Nat.ltb_lt; lia).
    reflexivity. }
  assert (Hb : length bulk = len - period) by (rewrite Ho, length_drop, Hk; reflexivity).
  split; [exact Ho|]. split; [exact Hb|]. split.
  - intros j _. rewrite Ho. apply lookup_drop.
  - destruct (rsi_run (Z.of_nat period) ltac:(lia) rawInput 1 1%Z (len - 1))
      as (r & l & Hrun & Hlen & _ & _ & Hnan); [lia|fold len; lia|].
    exists r, l. split; [exact Hrun|]. split; [exact Hlen|]. split.
    + intros j Hj Hjl. apply Hnan; lia.
    + rewrite Hlen, Hb. split; lia.
Qed.

(** Period 2 over four prices: two values in bulk, three when driven, of
    which the first is NaN. *)
Lemma RSI_once_drops_warm_up_witness :
  RSI.once simd.Scalar 2 [10; 11; 10; 12]%float = [50; 90]%float /\
  exists r l,
    RSI.run_next 2 3
      (LineBuffer.mk (LineBuffer.Unbounded
         (UnboundedStorage.mk [10; 11; 10; 12]%float 1)) 1) = Returns (r, l) /\
    length (UnboundedStorage.data_ l) = 3 /\
    UnboundedStorage.data_ l !! 0 = Some NaN.
Proof.
  destruct (RSI_once_drops_warm_up simd.Scalar 2 [10; 11; 10; 12]%float)
    as (_ & _ & _ & r & l & Hrun & Hlen & Hnan & _); [lia|simpl; lia|].
  split; [vm_compute; reflexivity|].
  exists r, l. split; [exact Hrun|]. split; [exact Hlen|].
  apply (Hnan 0); simpl; lia.
Defined.

(** ** The broker over several calls and bars *)

Section BrokerRun.

Import Broker.

(** The loop of [Broker::next]. *)
Definition next_step : t * list Order.t -> Order.t -> t * list Order.t :=
  fun '(b, done) order =>
    if OrderStatus_eqb (Order.status_ order) Submitted
    then let '(_, (b', order')) := tryExecute b order in (b', done ++ [order'])
    else (b, done ++ [order]).

Lemma next_unfold (b : t) :
  next b =
    let r := foldl next_step (b, []) (orders_ b) in
    mk (slip r.1) (cash_ r.1) (orderId_ r.1) (dataFeeds_ r.1) (positions_ r.1) r.2
       (trades_ r.1) (commInfo_ r.1) (filler_ r.1).
Proof. unfold next, next_step. now destruct (foldl _ _ _). Qed.

Lemma tryExecute_false (b : t) (o : Order.t) :
  (tryExecute b o).1 = false -> tryExecute b o = (false, (b, o)).
Proof.
  unfold tryExecute. destruct (dataFeeds_ b !! Order.data_ o); [|done].
  now destruct (matchPrice o b0).
Qed.

Lemma tryExecute_true (b : t) (o : Order.t) :
  (tryExecute b o).1 = true ->
  Order.status_ (tryExecute b o).2.2 = Completed.
Proof.
  unfold tryExecute. destruct (dataFeeds_ b !! Order.data_ o); [|done].
  now destruct (matchPrice o b0).
Qed.

Lemma tryExecute_fst (b b' : t) (o : Order.t) :
  market b = market b' -> (tryExecute b o).1 = (tryExecute b' o).1.
Proof.
  unfold market. intros [= Hs Hd Hc Hf]. unfold tryExecute. rewrite Hd.
  destruct (dataFeeds_ b' !! Order.data_ o); [|done].
  now destruct (matchPrice o b0).
Qed.

Lemma tryExecute_ref (b : t) (o : Order.t) :
  Order.ref_ (tryExecute b o).2.2 = Order.ref_ o.
Proof.
  unfold tryExecute. destruct (dataFeeds_ b !! Order.data_ o); [|done].
  now destruct (matchPrice o b0).
Qed.

Lemma processed_ref (b : t) (o : Order.t) :
  Order.ref_ (processed b o) = Order.ref_ o.
Proof.
  unfold processed. destruct (OrderStatus_eqb _ _); [apply tryExecute_ref|done].
Qed.

(** An order that [next] passes over or tries without executing. *)
Definition inert (b : t) (o : Order.t) : Prop :=
  OrderStatus_eqb (Order.status_ o) Submitted = false \/ (tryExecute b o).1 = false.

Lemma next_step_inert (os : list Order.t) : forall (b : t) (done : list Order.t),
  Forall (inert b) os -> foldl next_step (b, done) os = (b, done ++ os).
Proof.
  induction os as [|o os IH]; intros b done H; cbn [foldl].
  - now rewrite app_nil_r.
  - inversion H as [|? ? Ho Hos]; subst.
    assert (Hstep : next_step (b, done) o = (b, done ++ [o])).
    { unfold next_step. destruct Ho as [Hs|Ht]; [now rewrite Hs|].
      rewrite (tryExecute_false b o Ht). now destruct (OrderStatus_eqb _ _). }
    rewrite Hstep, IH by done. now rewrite <- app_assoc.
Qed.

Lemma next_inert (b : t) : Forall (inert b) (orders_ b) -> next b = b.
Proof.
  intros H. rewrite next_unfold, next_step_inert by done. simpl. now destruct b.
Qed.

Lemma next_market (b : t) : market (next b) = market b.
Proof.
  rewrite next_unfold.
  pose proof (next_fold b (orders_ b) b [] eq_refl) as [_ H2].
  unfold next_step. simpl in *. exact H2.
Qed.

Lemma processed_inert (b b' : t) (o : Order.t) :
  market b' = market b -> inert b' (processed b o).
Proof.
  intros Hm. unfold processed, inert.
  destruct (OrderStatus_eqb (Order.status_ o) Submitted) eqn:Hs; [|now left].
  destruct (tryExecute b o).1 eqn:Hex.
  - left. now rewrite (tryExecute_true b o Hex).
  - right. rewrite (tryExecute_false b o Hex). simpl.
    now rewrite (tryExecute_fst b' b o Hm).
Qed.

(** A property of the broker that every execution keeps holds after the
    loop of [next]. *)
Lemma next_step_keeps (Q : t -> Prop) :
  (forall b o, Q b -> Q (tryExecute b o).2.1) ->
  forall os b acc, Q b -> Q (foldl next_step (b, acc) os).1.
Proof.
  intros HQ. induction os as [|o os IH]; intros b acc Hb; cbn [foldl]; [done|].
  assert (H : exists b' acc', next_step (b, acc) o = (b', acc') /\ Q b').
  { unfold next_step. destruct (OrderStatus_eqb (Order.status_ o) Submitted).
    - pose proof (HQ b o Hb) as H. destruct (tryExecute b o) as [e [b' o']]. eauto.
    - eauto. }
  destruct H as (b' & acc' & -> & Hb'). now apply IH.
Qed.

(** Reference numbers count from 1 without gaps. *)
Definition refs_in_order (b : t) : Prop :=
  map Order.ref_ (orders_ b) = seq 1 (length (orders_ b)) /\
  orderId_ b = length (orders_ b) /\
  map Trade.ref (trades_ b) = seq 1 (length (trades_ b)).

Definition trade_refs (n : nat) (b : t) : Prop :=
  orderId_ b = n /\ map Trade.ref (trades_ b) = seq 1 (length (trades_ b)).

Lemma tryExecute_trade_refs (n : nat) (b : t) (o : Order.t) :
  trade_refs n b -> trade_refs n (tryExecute b o).2.1.
Proof.
  intros [Hn Ht]. unfold tryExecute.
  destruct (dataFeeds_ b !! Order.data_ o) as [feed|]; [|done].
  destruct (matchPrice o feed); [|done].
  unfold executeOrder, trade_refs. simpl. split; [done|].
  rewrite map_app, length_app, Ht. simpl. rewrite seq_app. simpl. do 2 f_equal.
  unfold tradeRecord.
  destruct (negb _ && _); simpl; lia.
Qed.

Lemma refs_in_order_exec (o : op) (b : t) : refs_in_order b -> refs_in_order (exec o b).
Proof.
  intros (Ho & Hn & Ht). destruct o as [d sz p ty|d sz p ty|id| |d f]; simpl.
  - unfold buy, submit, refs_in_order. simpl.
    rewrite map_app, length_app, Ho, Hn. simpl. rewrite seq_app. simpl.
    split; [done|]. split; [lia|done].
  - unfold sell, submit, refs_in_order. simpl.
    rewrite map_app, length_app, Ho, Hn. simpl. rewrite seq_app. simpl.
    split; [done|]. split; [lia|done].
  - unfold cancel, refs_in_order. simpl. rewrite length_map, map_map.
    repeat split; [|done|done]. rewrite <- Ho. apply map_ext. intros o.
    now destruct (_ && _).
  - assert (Hk : trade_refs (length (orders_ b))
                   (foldl next_step (b, []) (orders_ b)).1).
    { apply next_step_keeps; [intros; now apply tryExecute_trade_refs|]. now split. }
    destruct Hk as [Hk1 Hk2].
    unfold refs_in_order. rewrite next_orders. rewrite next_unfold. simpl.
    rewrite length_map, map_map. repeat split; [|done|done].
    rewrite <- Ho. apply map_ext. intros o. apply processed_ref.
  - unfold feedMovesTo, refs_in_order. now simpl.
Qed.

Lemma refs_in_order_run (os : list op) : forall b,
  refs_in_order b -> refs_in_order (run os b).
Proof.
  unfold run. induction os as [|o os IH]; intros b Hb; simpl; [done|].
  apply IH, refs_in_order_exec, Hb.
Qed.

End BrokerRun.

(** [Broker::next] is idempotent on a bar: an order that was executed is
    [Completed] and is passed over, an order that did not trigger does not
    trigger when tried again, since an execution changes neither the feeds
    nor the slippage.  The orders keep their places. *)
Theorem Broker_next_idempotent (b : Broker.t) :
  Broker.next (Broker.next b) = Broker.next b /\
  length (Broker.orders_ (Broker.next b)) = length (Broker.orders_ b) /\
  Broker.dataFeeds_ (Broker.next b) = Broker.dataFeeds_ b /\
  Broker.slip (Broker.next b) = Broker.slip b.
Proof.
  pose proof (next_market b) as Hm.
  split; [|split; [|split]].
  - apply next_inert. rewrite next_orders. apply Forall_forall.
    intros o' Ho'. apply list_elem_of_fmap in Ho' as (o & -> & _).
    now apply processed_inert.
  - now rewrite next_orders, length_map.
  - unfold market in Hm. congruence.
  - unfold market in Hm. congruence.
Qed.

(** Order references are 1, 2, 3, ... in the order of submission, and
    trade references likewise in the order of execution, after any
    sequence of buy, sell, cancel and next calls and feed moves on a new
    broker.  So no two orders share a reference, and [cancel] addresses at
    most one order. *)
Theorem Broker_refs_count_from_one (cash : Value)
    (commInfo : option (Value -> Value -> Value)) (data : string) (feed : Broker.Bar)
    (os : list Broker.op) :
  let b := Broker.run os (Broker.new cash commInfo data feed) in
  map Order.ref_ (Broker.orders_ b) = seq 1 (length (Broker.orders_ b)) /\
  Broker.orderId_ b = length (Broker.orders_ b) /\
  map Trade.ref (Broker.trades_ b) = seq 1 (length (Broker.trades_ b)) /\
  NoDup (map Order.ref_ (Broker.orders_ b)).
Proof.
  intros b.
  assert (H : refs_in_order b) by (apply refs_in_order_run; now repeat split).
  destruct H as (Ho & Hn & Ht). split; [done|]. split; [done|]. split; [done|].
  rewrite Ho. apply NoDup_ListNoDup, List.seq_NoDup.
Qed.

Section NeverExecuted.

Import Broker.

Variable order : Order.t.
Hypothesis other_type : Order.type_ order <> Market /\ Order.type_ order <> Limit.

(** The order as submitted, or cancelled since. *)
Definition still_pending (o : Order.t) : Prop :=
  o = order \/ o = Order.setStatus Canceled order.

Lemma still_pending_tryExecute (b : t) (o : Order.t) :
  still_pending o -> (tryExecute b o).1 = false.
Proof using other_type.
  intros Ho. unfold tryExecute.
  destruct (dataFeeds_ b !! Order.data_ o) as [feed|]; [|done].
  assert (Hty : Order.type_ o = Order.type_ order) by (destruct Ho as [->| ->]; done).
  unfold matchPrice. rewrite Hty. destruct other_type as [H1 H2].
  now destruct (Order.type_ order).
Qed.

Lemma still_pending_exec (op : Broker.op) (b : t) (i : nat) (o : Order.t) :
  orders_ b !! i = Some o -> still_pending o ->
  exists o', orders_ (exec op b) !! i = Some o' /\ still_pending o'.
Proof using other_type.
  intros Hi Ho. destruct op as [d sz p ty|d sz p ty|id| |d f]; simpl.
  - exists o. split; [|done]. unfold buy, submit. simpl.
    now apply lookup_app_l_Some.
  - exists o. split; [|done]. unfold sell, submit. simpl.
    now apply lookup_app_l_Some.
  - unfold cancel. simpl. rewrite list_lookup_fmap, Hi. simpl.
    eexists; split; [reflexivity|].
    destruct (_ && _); [|done]. right. now destruct Ho as [->| ->].
  - exists o. split; [|done]. rewrite next_orders, list_lookup_fmap, Hi. simpl.
    f_equal. unfold processed. destruct (OrderStatus_eqb _ _); [|done].
    now rewrite (tryExecute_false b o (still_pending_tryExecute b o Ho)).
  - exists o. split; [|done]. unfold feedMovesTo. now simpl.
Qed.

Lemma still_pending_run (os : list Broker.op) : forall (b : t) (i : nat) (o : Order.t),
  orders_ b !! i = Some o -> still_pending o ->
  exists o', orders_ (run os b) !! i = Some o' /\ still_pending o'.
Proof using other_type.
  unfold run. induction os as [|op os IH]; intros b i o Hi Ho; simpl; [eauto|].
  destruct (still_pending_exec op b i o Hi Ho) as (o1 & H1 & Hp1).
  now apply (IH _ i o1).
Qed.

End NeverExecuted.

(** Only Market and Limit orders are ever executed.  An order of another
    type (Close, Stop, StopLimit, StopTrail, StopTrailLimit, Historical)
    stays in its place as submitted, through any sequence of broker calls
    and bars, until it is cancelled; it is never completed and produces no
    execution data. *)
Theorem Broker_executes_only_market_and_limit (b : Broker.t) (i : nat)
    (order : Order.t) (os : list Broker.op) :
  Broker.orders_ b !! i = Some order ->
  Order.type_ order <> Market ->
  Order.type_ order <> Limit ->
  Broker.orders_ (Broker.run os b) !! i = Some order \/
  Broker.orders_ (Broker.run os b) !! i = Some (Order.setStatus Canceled order).
Proof.
  intros Hi H1 H2.
  destruct (still_pending_run order (conj H1 H2) os b i order Hi) as (o' & Ho' & Hp);
    [now left|].
  destruct Hp as [->| ->]; auto.
Qed.

(** A buy stop at 105 while the bar trades between 90 and 110: still
    submitted after the bar. *)
Lemma Broker_executes_only_market_and_limit_witness :
  let b := Broker.buy "DATA" 10 105 Stop broker_100_idle in
  exists o,
    Broker.orders_ (Broker.run [Broker.OpNext; Broker.OpNext] b) !! 0 = Some o /\
    Order.status_ o = Submitted.
Proof.
  intros b.
  destruct (lookup_lt_is_Some_2 (Broker.orders_ b) 0) as [order Ho]; [simpl; lia|].
  assert (Hty : Order.type_ order = Stop) by (injection Ho as <-; reflexivity).
  assert (Hst : Order.status_ order = Submitted) by (injection Ho as <-; reflexivity).
  destruct (Broker_executes_only_market_and_limit b 0 order
              [Broker.OpNext; Broker.OpNext] Ho) as [H|H];
    [rewrite Hty; discriminate|rewrite Hty; discriminate| |].
  - exists order. split; [exact H|exact Hst].
  - exfalso. vm_compute in H. injection Ho as <-. discriminate H.
Defined.

(** [Broker::cancel(ref)] marks the orders with that reference that are
    still alive (created, submitted, accepted or partly filled) as
    [Canceled] and leaves every other order, the cash, the positions and
    the trades as they are.  A cancelled order is passed over by [next]:
    it keeps its state on the following bars. *)
Theorem Broker_cancel_stops_execution (b : Broker.t) (orderId i : nat)
    (order : Order.t) :
  Broker.orders_ b !! i = Some order ->
  let c := Broker.cancel orderId b in
  Broker.orders_ c !! i
    = Some (if (Order.ref_ order =? orderId)%nat && Order.isAlive order
            then Order.setStatus Canceled order else order) /\
  (Order.ref_ order = orderId -> Order.isAlive order = true ->
   Broker.orders_ (Broker.next c) !! i = Some (Order.setStatus Canceled order)) /\
  Broker.cash_ c = Broker.cash_ b /\
  Broker.positions_ c = Broker.positions_ b /\
  Broker.trades_ c = Broker.trades_ b.
Proof.
  intros Hi c.
  assert (Hc : Broker.orders_ c !! i
               = Some (if (Order.ref_ order =? orderId)%nat && Order.isAlive order
                       then Order.setStatus Canceled order else order)).
  { unfold c, Broker.cancel. simpl. now rewrite list_lookup_fmap, Hi. }
  split; [exact Hc|]. split; [|done].
  intros Href Halive. rewrite next_orders, list_lookup_fmap, Hc. simpl.
  rewrite Href, Nat.eqb_refl, Halive. reflexivity.
Qed.

(** The limit order of [broker_100], which the bar would fill, cancelled
    before the bar. *)
Lemma Broker_cancel_stops_execution_witness :
  Broker.orders_ (Broker.next (Broker.cancel 1 broker_100)) !! 0
    = Some (Order.setStatus Canceled buy_limit_95) /\
  Broker.trades_ (Broker.next (Broker.cancel 1 broker_100)) = [].
Proof.
  destruct (Broker_cancel_stops_execution broker_100 1 0 buy_limit_95 eq_refl)
    as (_ & H & _).
  split; [apply H; reflexivity|reflexivity].
Defined.

(** ** The parameter store: writes, merges and overrides *)

Section ParamsStore.

Import Params.

Lemma merge_lookup (other p : gmap string ParamValue) (k : string) :
  merge other p !! k = match p !! k with Some v => Some v | None => other !! k end.
Proof.
  revert k. unfold merge.
  apply (map_fold_weak_ind
    (fun r m => forall k, r !! k = match p !! k with Some v => Some v | None => m !! k end)).
  - intros k. rewrite lookup_empty. now destruct (p !! k).
  - intros i x m r Hi IH k.
    pose proof (IH i) as Hri. rewrite Hi in Hri.
    destruct (decide (k = i)) as [->|Hne].
    + rewrite lookup_insert_eq. destruct (p !! i) as [v|] eqn:Hp.
      * now rewrite Hri.
      * rewrite Hri. apply lookup_insert_eq.
    + rewrite lookup_insert_ne by done.
      destruct (r !! i); [apply IH|]. rewrite lookup_insert_ne by done. apply IH.
Qed.

Lemma override_lookup (other p : gmap string ParamValue) (k : string) :
  override other p !! k = match other !! k with Some v => Some v | None => p !! k end.
Proof.
  revert k. unfold override.
  apply (map_fold_weak_ind
    (fun r m => forall k, r !! k = match m !! k with Some v => Some v | None => p !! k end)).
  - intros k. now rewrite lookup_empty.
  - intros i x m r Hi IH k. destruct (decide (k = i)) as [->|Hne].
    + now rewrite !lookup_insert_eq.
    + rewrite !lookup_insert_ne by done. apply IH.
Qed.

End ParamsStore.

(** A value written with [set<T>] is read back by [get<T>] under the same
    name, and only by that [T]: asking for another alternative of the
    variant, [long] for a stored [int] included, throws
    [std::bad_variant_access].  Other names are not affected. *)
Theorem Params_set_then_get (T T' : Params.alt) (name name' : string)
    (v : Params.alt_type T) (p : gmap string Params.ParamValue) :
  Params.get T name (Params.set T name v p) = Returns v /\
  Params.has name (Params.set T name v p) = true /\
  (T' <> T ->
   Params.get T' name (Params.set T name v p) = Throws bad_variant_access) /\
  (name' <> name ->
   Params.get T' name' (Params.set T name v p) = Params.get T' name' p /\
   Params.has name' (Params.set T name v p) = Params.has name' p).
Proof.
  unfold Params.get, Params.has, Params.set. rewrite lookup_insert_eq.
  split; [|split; [done|split]].
  - destruct T; try done. now destruct v.
  - intros Hne. destruct T, T'; try done.
  - intros Hne. now rewrite lookup_insert_ne by done.
Qed.

(** [merge] fills in the names that are missing and keeps the values of
    the names already present; [override] takes every value of the other
    store.  Either way the result has the names of both. *)
Theorem Params_merge_keeps_override_replaces (T : Params.alt) (name : string)
    (other p : gmap string Params.ParamValue) :
  Params.get T name (Params.merge other p)
    = (if Params.has name p then Params.get T name p else Params.get T name other) /\
  Params.get T name (Params.override other p)
    = (if Params.has name other then Params.get T name other else Params.get T name p) /\
  Params.has name (Params.merge other p) = Params.has name p || Params.has name other /\
  Params.has name (Params.override other p) = Params.has name p || Params.has name other.
Proof.
  unfold Params.get, Params.has. rewrite merge_lookup, override_lookup.
  destruct (p !! name), (other !! name); done.
Qed.

(** ** The parameter grid: integer ranges and empty grids *)

Section IntRange.

Import Params ParameterGrid.

Variables end_ step : Z.

(** The number of values from [v] on. *)
Definition range_count (v : Z) : nat :=
  if (end_ <? v)%Z then 0 else Z.to_nat ((end_ - v) / step + 1).

Definition range_values (v : Z) : list ParamValue :=
  map (fun k => PInt (v + Z.of_nat k * step)) (seq 0 (range_count v)).

Lemma range_count_step (v : Z) :
  (1 <= step)%Z -> (v <= end_)%Z -> range_count v = S (range_count (v + step)).
Proof.
  intros Hs Hv. unfold range_count.
  replace (end_ <? v)%Z with false by lia.
  destruct (Z.ltb_spec end_ (v + step)) as [Hlast|Hmore].
  - rewrite Z.div_small by lia. reflexivity.
  - replace (end_ - v)%Z with ((end_ - (v + step)) + 1 * step)%Z by lia.
    rewrite Z.div_add by lia.
    pose proof (Z.div_pos (end_ - (v + step)) step ltac:(lia) ltac:(lia)). lia.
Qed.

Lemma addParamInt_loop_runs (fuel : nat) : forall (v : Z) (values : list ParamValue),
  (1 <= step)%Z -> (INT_MIN <= v)%Z -> (end_ + step <= INT_MAX)%Z ->
  range_count v <= fuel ->
  addParamInt_loop fuel v end_ step values = Some (values ++ range_values v).
Proof.
  induction fuel as [|fuel IH]; intros v values Hs Hv He Hf.
  - simpl. destruct (Z.leb_spec v end_) as [Hle|Hgt].
    + rewrite (range_count_step v Hs Hle) in Hf. lia.
    + unfold range_values, range_count.
      replace (end_ <? v)%Z with true by lia. simpl. now rewrite app_nil_r.
  - simpl. destruct (Z.leb_spec v end_) as [Hle|Hgt].
    + replace ((INT_MIN <=? v + step)%Z && (v + step <=? INT_MAX)%Z) with true
        by (symmetry; apply andb_true_iff; split; lia).
      rewrite IH; [|done|lia|done|rewrite (range_count_step v Hs Hle) in Hf; lia].
      rewrite <- app_assoc. do 2 f_equal.
      unfold range_values. rewrite (range_count_step v Hs Hle).
      cbn [seq map]. rewrite Z.mul_0_l, Z.add_0_r. f_equal.
      rewrite <- seq_shift, map_map. apply map_ext. intros k. f_equal. lia.
    + unfold range_values, range_count.
      replace (end_ <? v)%Z with true by lia. simpl. now rewrite app_nil_r.
Qed.

Lemma addParamInt_loop_hangs (fuel : nat) : forall (v : Z) (values : list ParamValue),
  (step <= 0)%Z -> (v <= end_)%Z ->
  addParamInt_loop fuel v end_ step values = None.
Proof.
  induction fuel as [|fuel IH]; intros v values Hs Hv; simpl.
  - now replace (v <=? end_)%Z with true by lia.
  - replace (v <=? end_)%Z with true by lia.
    destruct (_ && _); [|done]. apply IH; lia.
Qed.

End IntRange.

(** [addParamInt(name, start, end, step)] with [step >= 1], as long as
    [end + step] is an [int]: the loop ends and declares the values
    [start], [start + step], ... up to [end], which are
    [(end - start) / step + 1] values, or none when [start > end].  With
    [step <= 0] and [start <= end] the loop does not end within the
    [int] range. *)
Theorem addParamInt_declares_progression (name : string) (start end_ step : Z)
    (g : ParameterGrid.t) :
  (ParameterGrid.INT_MIN <= start)%Z ->
  (end_ + step <= ParameterGrid.INT_MAX)%Z ->
  let n := if (end_ <? start)%Z then 0 else Z.to_nat ((end_ - start) / step + 1) in
  ((1 <= step)%Z ->
   forall fuel, n <= fuel ->
     ParameterGrid.addParamInt fuel name start end_ step g
       = Some (ParameterGrid.addParam name
                 (map (fun k => Params.PInt (start + Z.of_nat k * step)) (seq 0 n)) g)) /\
  ((step <= 0)%Z -> (start <= end_)%Z ->
   forall fuel, ParameterGrid.addParamInt fuel name start end_ step g = None).
Proof.
  intros Hs He n. split.
  - intros Hstep fuel Hf. unfold ParameterGrid.addParamInt.
    now rewrite (addParamInt_loop_runs end_ step fuel start [] Hstep Hs He Hf).
  - intros Hstep Hle fuel. unfold ParameterGrid.addParamInt.
    now rewrite (addParamInt_loop_hangs end_ step fuel start [] Hstep Hle).
Qed.

(** [addParamInt("period", 10, 15)] declares 10, ..., 15, and with step 2
    declares 10, 12, 14. *)
Lemma addParamInt_declares_progression_witness :
  ParameterGrid.addParamInt 6 "period" 10 15 1 ParameterGrid.init
    = Some (ParameterGrid.mk ["period"]
              [map Params.PInt [10; 11; 12; 13; 14; 15]%Z]) /\
  ParameterGrid.addParamInt 3 "period" 10 15 2 ParameterGrid.init
    = Some (ParameterGrid.mk ["period"] [map Params.PInt [10; 12; 14]%Z]).
Proof.
  destruct (addParamInt_declares_progression "period" 10 15 1 ParameterGrid.init)
    as [H1 _]; [vm_compute; discriminate|vm_compute; discriminate|].
  destruct (addParamInt_declares_progression "period" 10 15 2 ParameterGrid.init)
    as [H2 _]; [vm_compute; discriminate|vm_compute; discriminate|].
  split; [apply (H1 ltac:(lia) 6); vm_compute; lia|apply (H2 ltac:(lia) 3); vm_compute; lia].
Defined.

Lemma product_zero_iff (ks : list nat) : product ks = 0 <-> Exists (fun k => k = 0) ks.
Proof.
  induction ks as [|k ks IH]; simpl.
  - split; [discriminate|]. intros H. inversion H.
  - rewrite Exists_cons, <- IH. unfold product in *. simpl. nia.
Qed.

(** [totalCombinations] is the product of the numbers of values modulo
    2^64, and [generate] returns that many parameter sets, or none when no
    parameter was declared.  When the product fits [Size], [generate]
    returns no parameter set exactly when no parameter was declared or
    some declared parameter has no value, and [totalCombinations] is 0
    exactly in the second case (it is 1 for the grid without parameters).
    When the product is 2^64, as for four parameters of 65536 values each,
    the count wraps to 0 and [generate] returns nothing although every
    parameter has values. *)
Theorem ParameterGrid_generate_empty_iff (decls : list (string * list Params.ParamValue)) :
  let g := grid_of decls in
  let P := product (map length (map snd decls)) in
  ParameterGrid.totalCombinations g = Size_wrap (Z.of_nat P) /\
  length (ParameterGrid.generate g)
  = match decls with [] => 0 | _ :: _ => ParameterGrid.totalCombinations g end /\
  (ParameterGrid.generate g = [] <->
   decls = [] \/ ParameterGrid.totalCombinations g = 0) /\
  ((Z.of_nat P <= SIZE_MAX)%Z ->
   (ParameterGrid.generate g = [] <->
    decls = [] \/ Exists (fun d => d.2 = []) decls) /\
   (ParameterGrid.totalCombinations g = 0 <-> Exists (fun d => d.2 = []) decls)) /\
  (Z.of_nat P = (SIZE_MAX + 1)%Z ->
   ParameterGrid.totalCombinations g = 0 /\
   (decls <> [] -> Forall (fun d => d.2 <> []) decls /\ ParameterGrid.generate g = [])).
Proof.
  intros g P.
  destruct (grid_of_members decls) as [Hn Hv]. fold g in Hn, Hv.
  assert (Hz : P = 0
               <-> Exists (fun d : string * list Params.ParamValue => d.2 = []) decls).
  { unfold P. rewrite product_zero_iff, map_map, Exists_fmap. apply Exists_proper; [|done].
    intros d. simpl. split; [apply length_zero_iff_nil|now intros ->]. }
  assert (Ht : ParameterGrid.totalCombinations g = Size_wrap (Z.of_nat P)).
  { rewrite totalCombinations_wrap. now rewrite Hv. }
  assert (Hlen : length (ParameterGrid.generate g)
                 = match decls with
                   | [] => 0
                   | _ :: _ => ParameterGrid.totalCombinations g
                   end).
  { destruct decls as [|d decls]; [reflexivity|]. apply length_generate.
    - now rewrite Hn, Hv, !length_map.
    - now rewrite Hn. }
  assert (Hiff : ParameterGrid.generate g = [] <->
                 decls = [] \/ ParameterGrid.totalCombinations g = 0).
  { rewrite <- length_zero_iff_nil, Hlen. destruct decls as [|d decls].
    - split; [now left|done].
    - split; [now right|]. now intros [|]. }
  split; [exact Ht|]. split; [exact Hlen|]. split; [exact Hiff|]. split.
  - intros Hfit. rewrite Hiff, Ht, Size_wrap_fits by done. now rewrite Hz.
  - intros Hwrap.
    assert (H0 : ParameterGrid.totalCombinations g = 0).
    { rewrite Ht. unfold Size_wrap. rewrite Hwrap. reflexivity. }
    split; [exact H0|]. intros Hne. split.
    + apply Forall_forall. intros d Hd Hnil.
      assert (HP : P = 0).
      { apply Hz. apply Exists_exists. now exists d. }
      rewrite HP in Hwrap. discriminate Hwrap.
    + apply Hiff. now right.
Qed.

(** Four parameters of 65536 values each: the product of the numbers of
    values is 2^64, the count wraps to 0 and no parameter set is
    generated. *)
Lemma ParameterGrid_generate_empty_iff_witness :
  let values := replicate 65536 (Params.PInt 0) in
  let decls := [("a", values); ("b", values); ("c", values); ("d", values)] in
  ParameterGrid.totalCombinations (grid_of decls) = 0 /\
  ParameterGrid.generate (grid_of decls) = [] /\
  Forall (fun d => d.2 <> []) decls.
Proof.
  intros values decls.
  destruct (ParameterGrid_generate_empty_iff decls) as (_ & _ & _ & _ & Hwrap).
  destruct Hwrap as [H0 Hg].
  { unfold decls, values, product. cbn [map snd foldr].
    rewrite !length_replicate, !Nat2Z.inj_mul. vm_compute. reflexivity. }
  destruct Hg as [Hall Hgen]; [discriminate|].
  split; [exact H0|]. split; [exact Hgen|exact Hall].
Defined.

(** ** The chunked parallel loop *)

Section Chunks.

Variables end_ chunkSize : nat.
Hypothesis chunk_pos : 1 <= chunkSize.
Hypothesis no_wrap : (Z.of_nat end_ + Z.of_nat chunkSize <= SIZE_MAX + 1)%Z.

(** The indices a list of chunks covers, in order. *)
Definition covered (cs : list (nat * nat)) : list nat :=
  flat_map (fun c => seq c.1 (c.2 - c.1)) cs.

Lemma covered_app (cs ds : list (nat * nat)) : covered (cs ++ ds) = covered cs ++ covered ds.
Proof. unfold covered. apply flat_map_app. Qed.

Lemma chunks_run (fuel : nat) : forall (i : nat) (futures : list (nat * nat)),
  end_ - i <= fuel ->
  exists cs,
    parallelForChunked fuel i end_ chunkSize futures = Some (futures ++ cs) /\
    covered cs = seq i (end_ - i) /\
    Forall (fun c => c.1 < c.2 /\ c.2 <= c.1 + chunkSize /\ c.2 <= end_) cs /\
    length cs * chunkSize < (end_ - i) + chunkSize /\
    end_ - i <= length cs * chunkSize.
Proof using chunk_pos no_wrap.
  induction fuel as [|fuel IH]; intros i futures Hf; cbn [parallelForChunked].
  - replace (i <? end_) with false by (symmetry; apply Nat.ltb_ge; lia).
    exists []. rewrite app_nil_r. replace (end_ - i) with 0 by lia.
    repeat split; simpl; try done; lia.
  - destruct (Nat.ltb_spec i end_) as [Hlt|Hge].
    + rewrite (Size_add_fits i chunkSize) by lia.
      destruct (IH (i + chunkSize) (futures ++ [(i, Nat.min (i + chunkSize) end_)]))
        as (cs & Hrun & Hcov & Hall & Hlo & Hhi); [lia|].
      exists ((i, Nat.min (i + chunkSize) end_) :: cs).
      split; [now rewrite Hrun, <- app_assoc|].
      split; [|split; [|split]].
      * unfold covered in *. simpl. rewrite Hcov.
        destruct (Nat.le_ge_cases (i + chunkSize) end_) as [Hfull|Hlast].
        -- replace (Nat.min (i + chunkSize) end_ - i) with chunkSize by lia.
           replace (end_ - i) with (chunkSize + (end_ - (i + chunkSize))) by lia.
           now rewrite seq_app.
        -- replace (Nat.min (i + chunkSize) end_ - i) with (end_ - i) by lia.
           replace (end_ - (i + chunkSize)) with 0 by lia. simpl.
           now rewrite app_nil_r.
      * constructor; [simpl; lia|done].
      * cbn [length]. rewrite Nat.mul_succ_l.
        assert (length cs * chunkSize = 0 \/ chunkSize <= length cs * chunkSize)
          by (destruct (length cs); [left; reflexivity|right; simpl; lia]).
        lia.
      * cbn [length]. rewrite Nat.mul_succ_l. lia.
    + exists []. rewrite app_nil_r. replace (end_ - i) with 0 by lia.
      repeat split; simpl; try done; lia.
Qed.

End Chunks.

Lemma chunks_hang (end_ : nat) (fuel : nat) : forall (i : nat) (futures : list (nat * nat)),
  (Z.of_nat end_ <= SIZE_MAX)%Z ->
  i < end_ -> parallelForChunked fuel i end_ 0 futures = None.
Proof.
  induction fuel as [|fuel IH]; intros i futures He Hi; cbn [parallelForChunked].
  - now replace (i <? end_) with true by (symmetry; apply Nat.ltb_lt; lia).
  - replace (i <? end_) with true by (symmetry; apply Nat.ltb_lt; lia).
    rewrite (Size_add_fits i 0) by lia. rewrite Nat.add_0_r. now apply IH.
Qed.

(** A chunk size of [SIZE_MAX] on the range from 1 to 2: [1 + SIZE_MAX]
    wraps to 0, so the first chunk is [f(1, 0)] and the loop goes on at 0
    with the chunk [f(0, 2)]. *)
Lemma chunks_wrap (chunkSize : nat) :
  Z.of_nat chunkSize = SIZE_MAX ->
  parallelForChunked 2 1 2 chunkSize [] = Some [(1, 0); (0, 2)].
Proof.
  unfold SIZE_MAX. intros Hc.
  assert (H1 : Size_add 1 chunkSize = 0).
  { unfold Size_add, Size_wrap. rewrite Hc. reflexivity. }
  assert (H0 : Size_add 0 chunkSize = chunkSize).
  { unfold Size_add, Size_wrap. change (Z.of_nat 0) with 0%Z.
    rewrite Z.add_0_l, Z.mod_small by lia. apply Nat2Z.id. }
  cbn [parallelForChunked]. change (1 <? 2) with true. cbv iota.
  rewrite H1. change (0 <? 2) with true. cbv iota. rewrite H0.
  replace (chunkSize <? 2) with false by (symmetry; apply Nat.ltb_ge; lia).
  replace (Nat.min chunkSize 2) with 2 by lia. reflexivity.
Qed.

(** [parallelForChunked] with [chunkSize >= 1] and [end + chunkSize] at
    most 2^64 submits consecutive chunks that tile [start, end): every
    index is in exactly one chunk, in order, each chunk is not empty and
    holds at most [chunkSize] indices, and the number of chunks is the
    quotient of [end - start] by [chunkSize] rounded up.  With
    [chunkSize = 0] and [start < end] the loop does not end.  When
    [i + chunkSize] passes 2^64 the index wraps and the chunks do not tile
    the range: from 1 to 2 with [chunkSize = SIZE_MAX] the calls are
    [f(1, 0)] and [f(0, 2)]. *)
Theorem parallelForChunked_tiles_the_range (start end_ chunkSize : nat) :
  (1 <= chunkSize ->
   (Z.of_nat end_ + Z.of_nat chunkSize <= SIZE_MAX + 1)%Z ->
   forall fuel, end_ - start <= fuel ->
     exists cs,
       parallelForChunked fuel start end_ chunkSize [] = Some cs /\
       covered cs = seq start (end_ - start) /\
       Forall (fun c => c.1 < c.2 /\ c.2 <= c.1 + chunkSize /\ c.2 <= end_) cs /\
       length cs = (end_ - start + chunkSize - 1) / chunkSize) /\
  (chunkSize = 0 -> start < end_ -> (Z.of_nat end_ <= SIZE_MAX)%Z ->
   forall fuel, parallelForChunked fuel start end_ chunkSize [] = None) /\
  (Z.of_nat chunkSize = SIZE_MAX ->
   parallelForChunked 2 1 2 chunkSize [] = Some [(1, 0); (0, 2)]).
Proof.
  split; [|split].
  - intros Hc Hw fuel Hf.
    destruct (chunks_run end_ chunkSize Hc Hw fuel start [] Hf)
      as (cs & Hrun & Hcov & Hall & Hlo & Hhi).
    exists cs. split; [done|]. split; [done|]. split; [done|].
    apply Nat.div_unique with (r := end_ - start + chunkSize - 1 - length cs * chunkSize);
      try rewrite (Nat.mul_comm chunkSize); lia.
  - intros -> Hlt He fuel. now apply chunks_hang.
  - apply chunks_wrap.
Qed.

(** ** EMA: the event-driven step *)

Section EmaNext.

Local Open Scope float_scope.

Variable period : Z.
Hypothesis period_pos : (1 <= period)%Z.
Variable data : list Value.
Variable mp : nat.

Let at_ (p : Z) : LineBuffer.t :=
  LineBuffer.mk (LineBuffer.Unbounded (UnboundedStorage.mk data p)) mp.

Let alpha : Value := 2 / Value_of_int (period + 1).

(** The mean that seeds the first value: the window read from the cursor
    backwards. *)
Definition ema_seed (p : Z) : Value :=
  foldl (fun a i => a + nth (Z.to_nat p - i)%nat data NaN) 0 (seq 0 (Z.to_nat period))
  / Value_of_int period.

Lemma ema_read (p : Z) (i : nat) :
  (0 <= p - Z.of_nat i < Z.of_nat (length data))%Z ->
  EMA.dataValue (at_ p) (Z.of_nat i) = Returns (nth (Z.to_nat p - i)%nat data NaN).
Proof.
  intros H. unfold EMA.dataValue, LineBuffer.index_mut. simpl.
  destruct (lookup_lt_is_Some_2 data (Z.to_nat (p - Z.of_nat i))) as [v Hv]; [lia|].
  destruct (unbounded_at_in (UnboundedStorage.mk data p) (Z.of_nat i) v) as [_ ->];
    [simpl; lia|done|].
  f_equal. replace (Z.to_nat p - i)%nat with (Z.to_nat (p - Z.of_nat i)) by lia.
  symmetry. now apply nth_lookup_Some.
Qed.

Lemma ema_first (p : Z) (r : EMA.t) (l : UnboundedStorage.t) :
  (period - 1 <= p < Z.of_nat (length data))%Z ->
  EMA.initialized_ r = false ->
  let ema := EMA.alpha_ r * nth (Z.to_nat p) data NaN + (1 - EMA.alpha_ r) * ema_seed p in
  EMA.next period (at_ p) r l
    = Returns (EMA.mk (EMA.alpha_ r) ema true, UnboundedStorage.push_back ema l).
Proof using period_pos.
  intros Hp Hi ema. unfold EMA.next.
  pose proof (ema_read p 0 ltac:(lia)) as H0. change (Z.of_nat 0) with 0%Z in H0.
  rewrite H0, Hi. simpl negb. cbv iota.
  change (for_range 0 (Z.to_nat period) _ (Returns 0))
    with (for_range 0 (Z.to_nat period) (sma_body (at_ p)) (Returns 0)).
  rewrite (sma_body_reads (at_ p) (fun i => nth (Z.to_nat p - i)%nat data NaN)).
  - cbv zeta. subst ema. unfold ema_seed. now rewrite Nat.sub_0_r.
  - intros i Hi'. apply (ema_read p i). lia.
Qed.

Lemma ema_first_throws (p : Z) (r : EMA.t) (l : UnboundedStorage.t) :
  (p < period - 1)%Z ->
  EMA.initialized_ r = false ->
  EMA.next period (at_ p) r l = Throws (out_of_range "LineBuffer index out of range").
Proof using period_pos.
  intros Hp Hi. unfold EMA.next.
  destruct (Z.lt_ge_cases p 0) as [Hneg|Hnn];
    [|destruct (Z.lt_ge_cases p (Z.of_nat (length data))) as [Hin|Hout]].
  - unfold EMA.dataValue, LineBuffer.index_mut. simpl.
    now destruct (unbounded_at_out (UnboundedStorage.mk data p) 0) as [_ ->];
      [left; simpl; lia|].
  - pose proof (ema_read p 0 ltac:(lia)) as H0. change (Z.of_nat 0) with 0%Z in H0.
    rewrite H0, Hi. simpl negb. cbv iota.
    change (for_range 0 (Z.to_nat period) _ (Returns 0))
      with (for_range 0 (Z.to_nat period) (sma_body (at_ p)) (Returns 0)).
    rewrite (sma_body_throws (at_ p) (fun i => nth (Z.to_nat p - i)%nat data NaN)
               (out_of_range "LineBuffer index out of range")
               (Z.to_nat period) (Z.to_nat (p + 1))); [done|lia| |].
    + intros i Hi'. apply (ema_read p i). lia.
    + unfold SMA.dataValue, LineBuffer.index_mut. simpl.
      now destruct (unbounded_at_out (UnboundedStorage.mk data p)
                      (Z.of_nat (Z.to_nat (p + 1)))) as [_ ->]; [left; simpl; lia|].
  - unfold EMA.dataValue, LineBuffer.index_mut. simpl.
    now destruct (unbounded_at_out (UnboundedStorage.mk data p) 0) as [_ ->];
      [right; simpl; lia|].
Qed.

Lemma ema_later (p : Z) (r : EMA.t) (l : UnboundedStorage.t) :
  (0 <= p < Z.of_nat (length data))%Z ->
  EMA.initialized_ r = true ->
  let ema := EMA.alpha_ r * nth (Z.to_nat p) data NaN + (1 - EMA.alpha_ r) * EMA.prevEma_ r in
  EMA.next period (at_ p) r l
    = Returns (EMA.mk (EMA.alpha_ r) ema true, UnboundedStorage.push_back ema l).
Proof.
  intros Hp Hi ema. unfold EMA.next.
  pose proof (ema_read p 0 ltac:(lia)) as H0. change (Z.of_nat 0) with 0%Z in H0.
  rewrite H0, Hi. simpl. subst ema. now rewrite Nat.sub_0_r.
Qed.

(** What holds after [k] calls from the cursor [p0]. *)
Definition ema_after (p0 : Z) (k : nat) (r : EMA.t) (l : UnboundedStorage.t) : Prop :=
  length (UnboundedStorage.data_ l) = k /\
  EMA.alpha_ r = alpha /\
  EMA.initialized_ r = negb (k =? 0)%nat /\
  ((1 <= k)%nat ->
   UnboundedStorage.data_ l !! 0%nat
     = Some (alpha * nth (Z.to_nat p0) data NaN + (1 - alpha) * ema_seed p0) /\
   last (UnboundedStorage.data_ l) = Some (EMA.prevEma_ r)) /\
  (forall j, (S j < k)%nat ->
     exists prev,
       UnboundedStorage.data_ l !! j = Some prev /\
       UnboundedStorage.data_ l !! S j
         = Some (alpha * nth (Z.to_nat p0 + S j)%nat data NaN + (1 - alpha) * prev)).

Lemma ema_run (p0 : Z) (calls : nat) :
  (period - 1 <= p0)%Z -> (p0 + Z.of_nat calls <= Z.of_nat (length data))%Z ->
  exists r l, EMA.run_next period calls (at_ p0) = Returns (r, l) /\ ema_after p0 calls r l.
Proof using period_pos.
  intros Hp0 Hfit. unfold EMA.run_next.
  assert (H : (fun k (st : LineBuffer.t * outcome (EMA.t * UnboundedStorage.t)) =>
                 ((k < calls)%nat -> fst st = at_ (p0 + Z.of_nat k)) /\
                 exists r l, snd st = Returns (r, l) /\ ema_after p0 k r l)
                (0 + calls)%nat
                (for_range 0 calls
                   (fun (_ : nat) '(b, acc) =>
                      (LineBuffer.advance b,
                       match acc with
                       | Returns (r, l) => EMA.next period b r l
                       | Throws e => Throws e
                       end))
                   (at_ p0, Returns (EMA.init period EMA.fresh, UnboundedStorage.init)))).
  { apply for_range_inv.
    - simpl. split; [intros _; now rewrite Z.add_0_r|].
      eexists _, _. split; [reflexivity|]. unfold ema_after. simpl.
      split; [done|]. split; [done|]. split; [done|]. split; [lia|]. intros j Hj. lia.
    - intros k [b acc] Hk (Hb & r & l & Hacc & Hlen & Ha & Hi & Hfirst & Hrec).
      simpl in Hb, Hacc. rewrite (Hb ltac:(lia)). subst acc. simpl.
      split.
      { intros Hlt. unfold LineBuffer.advance, UnboundedStorage.advance. simpl.
        unfold UnboundedStorage.size. simpl.
        replace (p0 + Z.of_nat k <? Z.of_nat (length data) - 1)%Z with true
          by (symmetry; apply Z.ltb_lt; lia).
        unfold at_. do 3 f_equal. lia. }
      destruct k as [|k].
      + rewrite Z.add_0_r, ema_first by (try done; lia). cbv zeta.
        eexists _, _. split; [reflexivity|]. unfold ema_after. simpl.
        destruct (UnboundedStorage.data_ l) as [|x d] eqn:Hd; [|discriminate].
        simpl. rewrite Ha.
        split; [done|]. split; [done|]. split; [done|]. split; [done|].
        intros j Hj. lia.
      + destruct (Hfirst ltac:(lia)) as [Hf0 Hlast].
        rewrite ema_later by (try done; lia). cbv zeta.
        eexists _, _. split; [reflexivity|]. unfold ema_after. simpl.
        rewrite length_app, Hlen, Ha. simpl.
        split; [lia|]. split; [done|]. split; [done|]. split.
        * intros _. split.
          -- rewrite lookup_app_l by lia. exact Hf0.
          -- now rewrite last_snoc.
        * intros j Hj. destruct (decide (j = k)) as [->|Hne].
          -- exists (EMA.prevEma_ r). split.
             ++ rewrite lookup_app_l by lia. rewrite <- Hlast, last_lookup.
                f_equal. lia.
             ++ rewrite lookup_app_r by lia. rewrite Hlen, Nat.sub_diag. simpl.
                replace (Z.to_nat (p0 + Z.of_nat (S k))) with (Z.to_nat p0 + S k)%nat
                  by lia.
                reflexivity.
          -- destruct (Hrec j ltac:(lia)) as (prev & H1 & H2).
             exists prev. rewrite !lookup_app_l by lia. done. }
  destruct H as (_ & r & l & Hs & H). exists r, l. split; [exact Hs|exact H].
Qed.

End EmaNext.

(** [EMA::next] with period [n >= 1] on an unbounded input, driven once
    per bar from a cursor [p0 >= n - 1] over bars that exist.  Every call
    pushes one value.  The first is not the mean [m] of the window behind
    [p0] but [alpha * x[p0] + (1 - alpha) * m], with
    [alpha = 2 / (n + 1)]; each later one is
    [alpha * x + (1 - alpha) * previous].  Called first with fewer than
    [n] bars behind the cursor, it throws. *)
Theorem EMA_next_recurrence (period : Z) (data : list Value) (mp : nat) :
  (1 <= period)%Z ->
  let at_ p := LineBuffer.mk (LineBuffer.Unbounded (UnboundedStorage.mk data p)) mp in
  let alpha := (2 / Value_of_int (period + 1))%float in
  (forall (p0 : Z) (calls : nat),
      (period - 1 <= p0)%Z -> (p0 + Z.of_nat calls <= Z.of_nat (length data))%Z ->
      exists r l,
        EMA.run_next period calls (at_ p0) = Returns (r, l) /\
        length (UnboundedStorage.data_ l) = calls /\
        (1 <= calls ->
         UnboundedStorage.data_ l !! 0
           = Some (alpha * nth (Z.to_nat p0) data NaN
                   + (1 - alpha) * ema_seed period data p0)%float) /\
        (forall j, S j < calls ->
           exists prev,
             UnboundedStorage.data_ l !! j = Some prev /\
             UnboundedStorage.data_ l !! S j
               = Some (alpha * nth (Z.to_nat p0 + S j) data NaN
                       + (1 - alpha) * prev)%float)) /\
  (forall (p0 : Z) r l,
      (p0 < period - 1)%Z -> EMA.initialized_ r = false ->
      EMA.next period (at_ p0) r l
        = Throws (out_of_range "LineBuffer index out of range")).
Proof.
  intros Hp at_ alpha. split.
  - intros p0 calls H1 H2.
    destruct (ema_run period Hp data mp p0 calls H1 H2)
      as (r & l & Hrun & Hlen & _ & _ & Hfirst & Hrec).
    exists r, l. split; [exact Hrun|]. split; [exact Hlen|]. split; [|exact Hrec].
    intros Hc. now destruct (Hfirst Hc).
  - intros p0 r l H1 H2. now apply ema_first_throws.
Qed.

(** Period 2 over the prices 1, 2, 4 from the second bar: the mean of the
    first window is 1.5, the first value pushed is 2/3 * 2 + 1/3 * 1.5. *)
Lemma EMA_next_recurrence_witness :
  exists r l,
    EMA.run_next 2 2 (LineBuffer.mk (LineBuffer.Unbounded
        (UnboundedStorage.mk [1; 2; 4]%float 1)) 1) = Returns (r, l) /\
    UnboundedStorage.data_ l !! 0
      = Some (2 / 3 * 2 + (1 - 2 / 3) * ((0 + 2 + 1) / 2))%float /\
    length (UnboundedStorage.data_ l) = 2.
Proof.
  destruct (EMA_next_recurrence 2 [1; 2; 4]%float 1) as [H _]; [lia|].
  destruct (H 1%Z 2) as (r & l & Hrun & Hlen & Hfirst & _); [lia|simpl; lia|].
  exists r, l. split; [exact Hrun|]. split; [apply Hfirst; lia|exact Hlen].
Defined.

(** ** The optimiser: the order on parameter values *)

Section StrictOrders.

Local Open Scope float_scope.

Lemma string_compare_refl (s : string) : String.compare s s = Eq.
Proof.
  induction s as [|a s IH]; simpl; [done|].
  unfold Ascii.compare. now rewrite N.compare_refl.
Qed.

Lemma string_compare_lt_trans (s1 : string) : forall s2 s3,
  String.compare s1 s2 = Lt -> String.compare s2 s3 = Lt -> String.compare s1 s3 = Lt.
Proof.
  induction s1 as [|a1 s1 IH]; intros [|a2 s2] [|a3 s3]; simpl; try done.
  unfold Ascii.compare.
  destruct (N.compare_spec (Ascii.N_of_ascii a1) (Ascii.N_of_ascii a2)) as [E12|L12|G12];
    try done;
    destruct (N.compare_spec (Ascii.N_of_ascii a2) (Ascii.N_of_ascii a3)) as [E23|L23|G23];
    try done; intros H12 H23.
  - rewrite E12, E23, N.compare_refl. now apply (IH s2).
  - rewrite E12. now apply N.compare_lt_iff in L23 as ->.
  - rewrite <- E23. now apply N.compare_lt_iff in L12 as ->.
  - assert (H : (Ascii.N_of_ascii a1 < Ascii.N_of_ascii a3)%N) by lia.
    now apply N.compare_lt_iff in H as ->.
Qed.

Lemma string_ltb_irrefl (s : string) : String.ltb s s = false.
Proof. unfold String.ltb. now rewrite string_compare_refl. Qed.

Lemma string_ltb_trans (s1 s2 s3 : string) :
  String.ltb s1 s2 = true -> String.ltb s2 s3 = true -> String.ltb s1 s3 = true.
Proof.
  unfold String.ltb. intros H12 H23.
  destruct (String.compare s1 s2) eqn:E12; try done.
  destruct (String.compare s2 s3) eqn:E23; try done.
  now rewrite (string_compare_lt_trans s1 s2 s3 E12 E23).
Qed.

End StrictOrders.

(** [ParamValueComparator] is a strict order on parameter values: no value
    is before itself, and the relation is transitive, so that it can order
    the keys of a [std::map].  Values of different alternatives are
    ordered by the alternative.  A NaN is neither before nor after any
    [double], so as a key it is equivalent to each of them. *)
Theorem ParamValueComparator_strict_order :
  (forall a, Optimizer.ParamValueComparator a a = false) /\
  (forall a b c,
      Optimizer.ParamValueComparator a b = true ->
      Optimizer.ParamValueComparator b c = true ->
      Optimizer.ParamValueComparator a c = true) /\
  (forall a b,
      Optimizer.ParamValueComparator a b = true ->
      Optimizer.ParamValueComparator b a = false) /\
  (forall a b,
      Optimizer.index a < Optimizer.index b ->
      Optimizer.ParamValueComparator a b = true) /\
  (forall x,
      Optimizer.ParamValueComparator (Params.PDouble NaN) (Params.PDouble x) = false /\
      Optimizer.ParamValueComparator (Params.PDouble x) (Params.PDouble NaN) = false).
Proof.
  assert (Hirr : forall a, Optimizer.ParamValueComparator a a = false).
  { intros [b|n|n|x|s|]; unfold Optimizer.ParamValueComparator; simpl.
    - now destruct b.
    - apply Z.ltb_irrefl.
    - apply Z.ltb_irrefl.
    - apply ltb_irrefl.
    - apply string_ltb_irrefl.
    - done. }
  assert (Htr : forall a b c,
             Optimizer.ParamValueComparator a b = true ->
             Optimizer.ParamValueComparator b c = true ->
             Optimizer.ParamValueComparator a c = true).
  { intros [b1|n1|n1|x1|s1|] [b2|n2|n2|x2|s2|] [b3|n3|n3|x3|s3|];
      unfold Optimizer.ParamValueComparator; simpl; try done.
    - now destruct b1, b2, b3.
    - intros H1 H2. apply Z.ltb_lt in H1, H2. apply Z.ltb_lt. lia.
    - intros H1 H2. apply Z.ltb_lt in H1, H2. apply Z.ltb_lt. lia.
    - apply ltb_trans.
    - apply string_ltb_trans. }
  split; [exact Hirr|]. split; [exact Htr|]. split; [|split].
  - intros a b Hab. destruct (Optimizer.ParamValueComparator b a) eqn:Hba; [|done].
    pose proof (Htr a b a Hab Hba) as H. now rewrite Hirr in H.
  - intros [b1|n1|n1|x1|s1|] [b2|n2|n2|x2|s2|];
      unfold Optimizer.ParamValueComparator; simpl; intros H; try done; lia.
  - intros x. unfold Optimizer.ParamValueComparator. simpl.
    split; [apply ltb_nan_l|apply ltb_nan_r]; reflexivity.
Qed.

(** ** The optimiser: the summary of the results *)

Section Summary.

Import Optimizer.
Local Open Scope float_scope.

Lemma ltb_true_not_nan (x y : float) :
  (x <? y) = true -> is_nan x = false /\ is_nan y = false.
Proof. intros H. apply leb_not_nan. now apply ltb_leb. Qed.

Lemma summary_max (l : list Cerebro.OptResult) : forall a,
  is_nan (maxSeen a) = false ->
  let a' := foldl summary_step a l in
  is_nan (maxSeen a') = false /\
  (maxSeen a <=? maxSeen a') = true /\
  (forall r, r ∈ l -> is_nan (Cerebro.pnlPct r) = false ->
             (Cerebro.pnlPct r <=? maxSeen a') = true).
Proof.
  induction l as [|r l IH]; intros a Ha; simpl.
  - split; [done|]. split; [now apply leb_refl|]. intros r Hr. inversion Hr.
  - set (a1 := summary_step a r).
    assert (H1 : is_nan (maxSeen a1) = false /\ (maxSeen a <=? maxSeen a1) = true /\
                 (is_nan (Cerebro.pnlPct r) = false ->
                  (Cerebro.pnlPct r <=? maxSeen a1) = true)).
    { unfold a1, summary_step. simpl.
      destruct (maxSeen a <? Cerebro.pnlPct r) eqn:E.
      - destruct (ltb_true_not_nan _ _ E) as [_ Hp].
        split; [done|]. split; [now apply ltb_leb|]. intros _. now apply leb_refl.
      - split; [done|]. split; [now apply leb_refl|]. intros Hp. now apply not_ltb_leb. }
    destruct H1 as (Hn1 & Hle1 & Hr1).
    destruct (IH a1 Hn1) as (Hn & Hle & Hall).
    split; [done|]. split; [now apply (leb_trans _ (maxSeen a1))|].
    intros r' Hr' Hp. apply elem_of_cons in Hr' as [->|Hin].
    + apply (leb_trans _ (maxSeen a1)); [now apply Hr1|done].
    + now apply Hall.
Qed.

Lemma summary_min (l : list Cerebro.OptResult) : forall a,
  is_nan (minSeen a) = false ->
  let a' := foldl summary_step a l in
  is_nan (minSeen a') = false /\
  (minSeen a' <=? minSeen a) = true /\
  (forall r, r ∈ l -> is_nan (Cerebro.pnlPct r) = false ->
             (minSeen a' <=? Cerebro.pnlPct r) = true).
Proof.
  induction l as [|r l IH]; intros a Ha; simpl.
  - split; [done|]. split; [now apply leb_refl|]. intros r Hr. inversion Hr.
  - set (a1 := summary_step a r).
    assert (H1 : is_nan (minSeen a1) = false /\ (minSeen a1 <=? minSeen a) = true /\
                 (is_nan (Cerebro.pnlPct r) = false ->
                  (minSeen a1 <=? Cerebro.pnlPct r) = true)).
    { unfold a1, summary_step. simpl.
      destruct (Cerebro.pnlPct r <? minSeen a) eqn:E.
      - destruct (ltb_true_not_nan _ _ E) as [Hp _].
        split; [done|]. split; [now apply ltb_leb|]. intros _. now apply leb_refl.
      - split; [done|]. split; [now apply leb_refl|]. intros Hp. now apply not_ltb_leb. }
    destruct H1 as (Hn1 & Hle1 & Hr1).
    destruct (IH a1 Hn1) as (Hn & Hle & Hall).
    split; [done|]. split; [now apply (leb_trans _ (minSeen a1))|].
    intros r' Hr' Hp. apply elem_of_cons in Hr' as [->|Hin].
    + apply (leb_trans _ (minSeen a1)); [done|now apply Hr1].
    + now apply Hall.
Qed.

Lemma summary_profitable (l : list Cerebro.OptResult) : forall a,
  profitable (foldl summary_step a l)
    = (profitable a + length (List.filter (fun r => (0 <? Cerebro.pnlPct r)%float) l))%nat.
Proof.
  induction l as [|r l IH]; intros a; simpl; [lia|].
  rewrite IH. unfold summary_step. simpl.
  destruct (0 <? Cerebro.pnlPct r); simpl; lia.
Qed.

End Summary.

(** [OptResultAnalyzer::summary]: the number of runs is the number of
    results, the profitable runs are those with a percent P&L above 0, and
    the maximum and minimum are never NaN: results with a NaN percent P&L
    are skipped, every other result lies between the two, and the maximum
    is at least -1e10 and the minimum at most 1e10, the values both keep
    when there is no result. *)
Theorem Optimizer_summary_bounds (results : list Cerebro.OptResult) :
  let s := Optimizer.summary results in
  Optimizer.totalRuns s = length results /\
  Optimizer.profitableRuns s
    = length (List.filter (fun r => 0 <? Cerebro.pnlPct r)%float results) /\
  Optimizer.profitableRuns s <= Optimizer.totalRuns s /\
  is_nan (Optimizer.maxPnlPct s) = false /\
  is_nan (Optimizer.minPnlPct s) = false /\
  (-1e10 <=? Optimizer.maxPnlPct s)%float = true /\
  (Optimizer.minPnlPct s <=? 1e10)%float = true /\
  (forall r, r ∈ results -> is_nan (Cerebro.pnlPct r) = false ->
     (Cerebro.pnlPct r <=? Optimizer.maxPnlPct s)%float = true /\
     (Optimizer.minPnlPct s <=? Cerebro.pnlPct r)%float = true) /\
  (results = [] -> s = Optimizer.Summary_init).
Proof.
  intros s.
  destruct results as [|r0 results].
  - split; [done|]. split; [done|]. split; [done|]. split; [done|]. split; [done|].
    split; [done|]. split; [done|]. split; [|done]. intros r Hr. inversion Hr.
  - set (l := r0 :: results) in *.
    set (a' := foldl Optimizer.summary_step (Optimizer.mkSums 0 0 0 0 (-1e10) 1e10) l).
    assert (H1 : Optimizer.totalRuns s = length l) by reflexivity.
    assert (H2 : Optimizer.profitableRuns s = Optimizer.profitable a') by reflexivity.
    assert (H3 : Optimizer.maxPnlPct s = Optimizer.maxSeen a') by reflexivity.
    assert (H4 : Optimizer.minPnlPct s = Optimizer.minSeen a') by reflexivity.
    rewrite H1, H2, H3, H4. clearbody s.
    destruct (summary_max l (Optimizer.mkSums 0 0 0 0 (-1e10) 1e10) eq_refl)
      as (Hxn & Hxle & Hxall).
    destruct (summary_min l (Optimizer.mkSums 0 0 0 0 (-1e10) 1e10) eq_refl)
      as (Hmn & Hmle & Hmall).
    pose proof (summary_profitable l (Optimizer.mkSums 0 0 0 0 (-1e10) 1e10)) as Hp.
    fold a' in Hxn, Hxle, Hxall, Hmn, Hmle, Hmall, Hp.
    split; [done|]. split; [exact Hp|]. split.
    { rewrite Hp. apply List.filter_length_le. }
    split; [done|]. split; [done|]. split; [exact Hxle|]. split; [exact Hmle|].
    split; [|done]. intros r Hr Hnan. split; [now apply Hxall|now apply Hmall].
Qed.

(** ** Orders: the first fill and the trailing stop *)

Section ZeroArithmetic.

Local Open Scope float_scope.

Lemma Prim2SF_zero : Prim2SF 0 = S754_zero false.
Proof. reflexivity. Qed.

Lemma eqb_zero_spec (x : float) :
  (x =? 0) = false -> forall s, Prim2SF x <> S754_zero s.
Proof.
  rewrite FloatAxioms.eqb_spec, Prim2SF_zero. intros H s E. rewrite E in H.
  now destruct s.
Qed.

Lemma abs_zero_sub (x : float) : abs (0 - x) = abs x.
Proof.
  apply FloatAxioms.Prim2SF_inj.
  rewrite !FloatAxioms.abs_spec, FloatAxioms.sub_spec, Prim2SF_zero.
  destruct (Prim2SF x) as [s|s| |s m e]; try reflexivity. now destruct s.
Qed.

Lemma add_zero_l (x : float) : (x =? 0) = false -> 0 + x = x.
Proof.
  intros H. apply FloatAxioms.Prim2SF_inj.
  rewrite FloatAxioms.add_spec, Prim2SF_zero.
  pose proof (eqb_zero_spec x H) as Hz.
  destruct (Prim2SF x) as [s|s| |s m e]; try reflexivity. now destruct (Hz s).
Qed.

Lemma zero_lt_abs (x : float) :
  (x =? 0) = false -> (0 <? abs x) = negb (is_nan x).
Proof.
  intros H. pose proof (eqb_zero_spec x H) as Hz.
  unfold is_nan.
  rewrite FloatAxioms.ltb_spec, FloatAxioms.abs_spec, FloatAxioms.eqb_spec, Prim2SF_zero.
  destruct (Prim2SF x) as [s|s| |s m e] eqn:E.
  - now destruct (Hz s).
  - now destruct s.
  - reflexivity.
  - unfold SFeqb. rewrite SFcompare_refl by done. reflexivity.
Qed.

End ZeroArithmetic.

(** The first fill of an order.  [execute] keeps the size still to be
    filled in [executed_.remsize], which starts at 0 and not at the
    order's size: after a first fill of a size [sz] that is neither zero
    nor NaN it is [|sz|], above 0, so the order is marked [Partial]
    whatever its size, with executed size [sz] at the fill's price.  A
    fill of size zero changes nothing; a fill of size NaN marks the order
    [Completed]. *)
Theorem Order_execute_first_fill (bit : OrderData.OrderExecutionBit)
    (marginUsed : Value) (o : OrderExecution.t) :
  OrderExecution.executed_ o = OrderData.init ->
  let sz := OrderData.bit_size bit in
  let o' := OrderExecution.execute bit marginUsed o in
  ((sz =? 0)%float = true -> o' = o) /\
  ((sz =? 0)%float = false -> is_nan sz = false ->
   OrderExecution.status_ o' = Partial /\
   OrderData.remsize (OrderExecution.executed_ o') = abs sz /\
   OrderData.size (OrderExecution.executed_ o') = sz /\
   OrderData.price (OrderExecution.executed_ o') = OrderData.bit_price bit /\
   Order.exec_size (OrderExecution.execInfo_ o') = sz /\
   Order.exec_price (OrderExecution.execInfo_ o') = OrderData.bit_price bit /\
   OrderData.exbits (OrderExecution.executed_ o') = [bit]) /\
  (is_nan sz = true ->
   OrderExecution.status_ o' = Completed /\
   OrderData.size (OrderExecution.executed_ o') = 0%float /\
   is_nan (OrderData.remsize (OrderExecution.executed_ o')) = true).
Proof.
  intros He sz o'. subst o'. unfold OrderExecution.execute. fold sz.
  split; [|split].
  - now intros ->.
  - intros Hz Hn. rewrite Hz, He. unfold OrderData.add. fold sz. simpl.
    rewrite Hn, Hz. simpl. rewrite abs_zero_sub, (add_zero_l sz Hz).
    rewrite (zero_lt_abs sz Hz), Hn. simpl. done.
  - intros Hn.
    assert (Hz : (sz =? 0)%float = false).
    { rewrite FloatAxioms.eqb_spec, (is_nan_true_spec sz Hn). reflexivity. }
    rewrite Hz, He. unfold OrderData.add. fold sz. simpl.
    rewrite Hn. simpl. rewrite abs_zero_sub, (zero_lt_abs sz Hz), Hn. simpl.
    split; [done|]. split; [done|].
    apply is_nan_of_spec. rewrite FloatAxioms.abs_spec, (is_nan_true_spec sz Hn).
    reflexivity.
Qed.

(** A new order filled in full, 100 at 50: it is [Partial] with 100 still
    counted as remaining. *)
Lemma Order_execute_first_fill_witness :
  let bit := OrderData.mkBit 1 100 50 0 0 0 100 5000 5 0 100 50 in
  let o' := OrderExecution.execute bit 0 OrderExecution.init in
  OrderExecution.status_ o' = Partial /\
  OrderData.remsize (OrderExecution.executed_ o') = 100%float.
Proof.
  intros bit o'.
  destruct (Order_execute_first_fill bit 0 OrderExecution.init eq_refl) as (_ & H & _).
  destruct H as (Hs & Hr & _); [reflexivity|reflexivity|].
  split; [exact Hs|exact Hr].
Defined.

(** [Order::trailAdjust] moves a trailing stop one way only.  Once the
    stop price is set (not 0, not NaN), an adjustment never raises the
    stop of a buy order and never lowers the stop of a sell order, and
    the new stop is either the old one or the current price plus (buy) or
    minus (sell) the trail amount; a positive [trailAmount_] takes
    precedence over [trailPercent_].  Side, type and trail parameters are
    not changed. *)
Theorem Order_trailAdjust_ratchets (currentPrice : Value) (o : OrderExecution.trail) :
  is_nan (OrderExecution.created_price o) = false ->
  (OrderExecution.created_price o =? 0)%float = false ->
  let o' := OrderExecution.trailAdjust currentPrice o in
  let pamount :=
    (if 0 <? OrderExecution.trailAmount_ o then OrderExecution.trailAmount_ o
     else if 0 <? OrderExecution.trailPercent_ o
     then currentPrice * OrderExecution.trailPercent_ o else 0)%float in
  match OrderExecution.side_ o with
  | Buy =>
      (OrderExecution.created_price o' <=? OrderExecution.created_price o)%float = true /\
      (OrderExecution.created_price o' = OrderExecution.created_price o \/
       OrderExecution.created_price o' = (currentPrice + pamount)%float)
  | Sell =>
      (OrderExecution.created_price o <=? OrderExecution.created_price o')%float = true /\
      (OrderExecution.created_price o' = OrderExecution.created_price o \/
       OrderExecution.created_price o' = (currentPrice - pamount)%float)
  end /\
  OrderExecution.side_ o' = OrderExecution.side_ o /\
  OrderExecution.type_ o' = OrderExecution.type_ o /\
  OrderExecution.trailAmount_ o' = OrderExecution.trailAmount_ o /\
  OrderExecution.trailPercent_ o' = OrderExecution.trailPercent_ o.
Proof.
  intros Hn Hz o' pamount. subst o'. unfold OrderExecution.trailAdjust. fold pamount.
  rewrite Hz. simpl orb.
  pose proof (leb_refl _ Hn) as Hrefl.
  destruct (pamount =? 0)%float; [destruct (OrderExecution.side_ o); auto 10|].
  destruct (OrderExecution.side_ o) eqn:Hside.
  - destruct (currentPrice + pamount <? OrderExecution.created_price o)%float eqn:E;
      simpl; [|rewrite Hside; auto 10].
    split; [|done]. split; [now apply ltb_leb|now right].
  - destruct (OrderExecution.created_price o <? currentPrice - pamount)%float eqn:E;
      simpl; [|rewrite Hside; auto 10].
    split; [|done]. split; [now apply ltb_leb|now right].
Qed.

(** A sell trailing stop at 95 with trail amount 5: the price rising to
    103 lifts the stop to 98, the price falling to 99 leaves it at 95. *)
Lemma Order_trailAdjust_ratchets_witness :
  let o := OrderExecution.mkTrail Sell StopTrail 5 0 0 0 95 in
  OrderExecution.created_price (OrderExecution.trailAdjust 103 o) = 98%float /\
  OrderExecution.created_price (OrderExecution.trailAdjust 99 o) = 95%float /\
  (95 <=? OrderExecution.created_price (OrderExecution.trailAdjust 103 o))%float = true.
Proof.
  intros o.
  destruct (Order_trailAdjust_ratchets 103 o eq_refl eq_refl) as [[H _] _].
  split; [reflexivity|]. split; [reflexivity|exact H].
Defined.

(** ** Operations on lines: NaN and zero *)

Section NanComparisons.

Local Open Scope float_scope.

Lemma nan_compares_false (x y : float) :
  is_nan x = true ->
  (x <? y) = false /\ (y <? x) = false /\ (x <=? y) = false /\ (y <=? x) = false /\
  (x =? y) = false /\ (y =? x) = false.
Proof.
  intros H. pose proof (is_nan_true_spec x H) as E.
  rewrite !FloatAxioms.ltb_spec, !FloatAxioms.leb_spec, !FloatAxioms.eqb_spec, E.
  unfold SFltb, SFleb, SFeqb.
  destruct (Prim2SF y) as [[]|[]| |[] ? ?]; simpl; auto 10.
Qed.

End NanComparisons.

(** [LineOp::compute] at its edges.  The six comparisons and the two
    connectives give 0 or 1.  When an operand is NaN every comparison but
    [Ne] gives 0 and [Ne] gives 1, and [Max] and [Min] both return the
    left operand: NaN when the NaN is on the left, the other value when it
    is on the right.  A division by zero gives NaN, not an infinity.  The
    unary operations give NaN in [LineOp], and the binary ones in
    [LineUnaryOp]. *)
Theorem LineOp_compute_edge_values (l r : Value) :
  (forall op,
      In op [LineOp.Gt; LineOp.Lt; LineOp.Ge; LineOp.Le; LineOp.Eq; LineOp.Ne;
             LineOp.And; LineOp.Or] ->
      LineOp.compute op l r = 0%float \/ LineOp.compute op l r = 1%float) /\
  (is_nan l = true \/ is_nan r = true ->
   LineOp.compute LineOp.Gt l r = 0%float /\ LineOp.compute LineOp.Lt l r = 0%float /\
   LineOp.compute LineOp.Ge l r = 0%float /\ LineOp.compute LineOp.Le l r = 0%float /\
   LineOp.compute LineOp.Eq l r = 0%float /\ LineOp.compute LineOp.Ne l r = 1%float /\
   LineOp.compute LineOp.Max l r = l /\ LineOp.compute LineOp.Min l r = l) /\
  ((r =? 0)%float = true -> LineOp.compute LineOp.Div l r = NaN) /\
  (forall op, In op [LineOp.Not; LineOp.Abs; LineOp.Neg] -> LineOp.compute op l r = NaN) /\
  (forall op,
      ~ In op [LineOp.Not; LineOp.Abs; LineOp.Neg] -> LineOp.unary op l = NaN).
Proof.
  split; [|split; [|split; [|split]]].
  - intros op Hop. simpl in Hop.
    repeat (destruct Hop as [<-|Hop]; [unfold LineOp.compute;
      match goal with |- context [if ?c then _ else _] => destruct c end; auto|]).
    done.
  - intros [H|H].
    + destruct (nan_compares_false l r H) as (H1 & H2 & H3 & H4 & H5 & H6).
      unfold LineOp.compute. now rewrite H1, H2, H3, H4, H5.
    + destruct (nan_compares_false r l H) as (H1 & H2 & H3 & H4 & H5 & H6).
      unfold LineOp.compute. now rewrite H1, H2, H3, H4, H6.
  - intros H. unfold LineOp.compute. now rewrite H.
  - intros op Hop. simpl in Hop. now destruct Hop as [<-|[<-|[<-|[]]]].
  - intros op Hop. destruct op; try reflexivity; exfalso; apply Hop; simpl; auto.
Qed.

(** ** Commissions *)

Lemma abs_opp (x : float) : abs (- x) = abs x.
Proof.
  apply FloatAxioms.Prim2SF_inj.
  rewrite !FloatAxioms.abs_spec, FloatAxioms.opp_spec.
  now destruct (Prim2SF x).
Qed.

Lemma abs_abs (x : float) : abs (abs x) = abs x.
Proof.
  apply FloatAxioms.Prim2SF_inj. rewrite !FloatAxioms.abs_spec.
  now destruct (Prim2SF x).
Qed.

(** [CommInfo::getCommission] reads only the magnitude of the size: a
    sale of [size] is charged as a purchase of [size].  A per-trade
    commission does not depend on size or price, a fixed one is the
    magnitude of the size times the commission and does not depend on
    the price, and only a percentage scheme has a rate other than 0. *)
Theorem CommInfo_getCommission_by_magnitude (params_ : CommInfo.Params)
    (size price : Value) :
  CommInfo.getCommission params_ (- size) price = CommInfo.getCommission params_ size price /\
  CommInfo.getCommission params_ (abs size) price
    = CommInfo.getCommission params_ size price /\
  match CommInfo.commtype params_ with
  | CommInfo.PerTrade =>
      CommInfo.getCommission params_ size price = CommInfo.commission params_ /\
      CommInfo.getCommissionRate params_ = 0%float
  | CommInfo.Fixed =>
      CommInfo.getCommission params_ size price
        = (abs size * CommInfo.commission params_)%float /\
      CommInfo.getCommissionRate params_ = 0%float
  | CommInfo.Percentage =>
      CommInfo.getCommission params_ size price
        = (abs size * price * CommInfo.mult params_
           * (if CommInfo.percabs params_ then CommInfo.commission params_
              else CommInfo.commission params_ / 100))%float
  end.
Proof.
  unfold CommInfo.getCommission, CommInfo.getCommissionRate.
  rewrite abs_opp, abs_abs. now destruct (CommInfo.commtype params_).
Qed.

(** ** The parameter grid: the k-th combination *)

Section MixedRadix.

(** The index into the [j]-th value list for the combination number [k]:
    the digit of [k] at position [j] when the last list varies fastest. *)
Definition digit (ks : list nat) (k j : nat) : nat :=
  (k / product (drop (S j) ks)) mod nth j ks 1.

Definition digits (ks : list nat) (k : nat) : list nat :=
  map (digit ks k) (seq 0 (length ks)).

Lemma digits_snoc (ks : list nat) (m k : nat) :
  digits (ks ++ [m]) k = digits ks (k / m) ++ [k mod m].
Proof.
  unfold digits. rewrite length_app. simpl. rewrite seq_app, map_app. simpl. f_equal.
  - apply map_ext_in. intros j Hj. apply in_seq in Hj. unfold digit.
    rewrite drop_app_le by lia. rewrite product_snoc.
    rewrite app_nth1 by lia. f_equal.
    rewrite Nat.Div0.div_div. f_equal. lia.
  - unfold digit. rewrite drop_ge by (rewrite length_app; simpl; lia).
    rewrite app_nth2 by lia. rewrite Nat.sub_diag.
    change (product []) with 1. change (nth 0 [m] 1) with m.
    now rewrite Nat.div_1_r.
Qed.

Lemma flat_map_block_lookup {A B : Type} (f : A -> list B) (m : nat) (l : list A) :
  0 < m -> Forall (fun t => length (f t) = m) l ->
  forall k, k < length l * m ->
    exists t, l !! (k / m) = Some t /\ flat_map f l !! k = f t !! (k mod m).
Proof.
  intros Hm Hall. induction Hall as [|t l Ht Hall IH]; intros k Hk; simpl in *; [lia|].
  destruct (Nat.lt_ge_cases k m) as [Hlt|Hge].
  - exists t. rewrite Nat.div_small, Nat.mod_small by done. split; [done|].
    apply lookup_app_l. lia.
  - destruct (IH (k - m)) as (t' & Ht' & Hl'); [lia|].
    assert (Hd : k / m = S ((k - m) / m)).
    { replace k with ((k - m) + 1 * m) at 1 by lia. rewrite Nat.div_add by lia. lia. }
    assert (Hr : k mod m = (k - m) mod m).
    { replace k with ((k - m) + 1 * m) at 1 by lia. now rewrite Nat.Div0.mod_add. }
    exists t'. rewrite Hd, Hr. simpl. split; [done|].
    rewrite lookup_app_r by lia. now rewrite Ht.
Qed.

Lemma cart_lookup (vss : list (list Params.ParamValue)) : forall k,
  k < product (map length vss) ->
  cart vss !! k = Some (pick vss (digits (map length vss) k)).
Proof.
  induction vss as [|vs vss IH] using rev_ind; intros k Hk.
  - simpl in Hk. now replace k with 0 by (unfold product in Hk; simpl in Hk; lia).
  - rewrite map_app in Hk. simpl map in Hk. rewrite product_snoc in Hk.
    assert (Hm : 0 < length vs) by (destruct (length vs); [lia|lia]).
    rewrite cart_snoc. unfold cart_step.
    destruct (flat_map_block_lookup (fun t => map (fun v => t ++ [v]) vs) (length vs)
                (cart vss) Hm) with (k := k) as (t & Ht & ->).
    + apply Forall_forall. intros t _. apply length_map.
    + now rewrite length_cart.
    + assert (Hq : k / length vs < product (map length vss)).
      { apply Nat.Div0.div_lt_upper_bound. lia. }
      rewrite (IH _ Hq) in Ht. injection Ht as <-.
      rewrite map_app. simpl map. rewrite digits_snoc. unfold pick.
      rewrite zip_with_app by (unfold digits; now rewrite !length_map, length_seq).
      simpl. rewrite list_lookup_fmap.
      destruct (lookup_lt_is_Some_2 vs (k mod length vs)) as [v Hv];
        [now apply Nat.mod_upper_bound; lia|].
      rewrite Hv. simpl. do 3 f_equal. symmetry. now apply nth_lookup_Some.
Qed.

Lemma pick_lookup (vss : list (list Params.ParamValue)) (idxs : list nat) (j : nat)
    (vs : list Params.ParamValue) (i : nat) :
  vss !! j = Some vs -> idxs !! j = Some i ->
  pick vss idxs !! j = Some (nth i vs Params.PNull).
Proof.
  intros Hv Hi. unfold pick. rewrite lookup_zip_with, Hv. simpl. now rewrite Hi.
Qed.

End MixedRadix.

(** [generate] lists the combinations in lexicographic order of their
    indices, the parameter declared last varying fastest.  For [k] below
    [totalCombinations], which is the product [k_0 * ... * k_(n-1)] of the
    numbers of values modulo 2^64, the [k]-th parameter set is the
    assignment of a tuple whose [j]-th component is the value of parameter
    [j] at index [(k / (k_(j+1) * ... * k_(n-1))) mod k_j]. *)
Theorem ParameterGrid_generate_kth (decls : list (string * list Params.ParamValue))
    (k : nat) :
  decls <> [] ->
  k < ParameterGrid.totalCombinations (grid_of decls) ->
  exists tuple,
    ParameterGrid.generate (grid_of decls) !! k = Some (assign (map fst decls) tuple) /\
    length tuple = length decls /\
    forall j d,
      decls !! j = Some d ->
      tuple !! j
        = Some (nth ((k / product (drop (S j) (map length (map snd decls))))
                     mod length d.2) d.2 Params.PNull).
Proof.
  intros Hne Hk.
  destruct (grid_of_members decls) as [Hn Hv].
  assert (HP : k < product (map length (map snd decls))).
  { pose proof (Size_wrap_le (product (map length (map snd decls)))) as HW.
    rewrite totalCombinations_wrap, Hv in Hk. lia. }
  exists (pick (map snd decls) (digits (map length (map snd decls)) k)).
  split; [|split].
  - rewrite generate_take.
    + rewrite list_lookup_fmap, lookup_take_lt by done.
      rewrite Hn, Hv, (cart_lookup _ k HP). reflexivity.
    + now rewrite Hn, Hv, !length_map.
    + rewrite Hn. now destruct decls.
  - unfold pick, digits. rewrite length_zip_with, !length_map, length_seq. lia.
  - intros j d Hd.
    assert (Hj : j < length decls) by (now apply lookup_lt_Some in Hd).
    apply pick_lookup.
    + now rewrite list_lookup_fmap, Hd.
    + unfold digits. rewrite list_lookup_fmap, lookup_seq_lt by (now rewrite !length_map).
      simpl. unfold digit. do 2 f_equal.
      rewrite <- (nth_lookup_Some (map length (map snd decls)) j 1 (length d.2)); [done|].
      now rewrite !list_lookup_fmap, Hd.
Qed.

(** [fast] in 10, 20, 30 and [slow] in 1, 2: combination number 3 takes
    the second value of [fast] and the second of [slow]. *)
Lemma ParameterGrid_generate_kth_witness :
  let decls := [("fast", map Params.PInt [10; 20; 30]%Z);
                ("slow", map Params.PInt [1; 2]%Z)] in
  exists tuple,
    ParameterGrid.generate (grid_of decls) !! 3 = Some (assign ["fast"; "slow"] tuple) /\
    tuple !! 0 = Some (Params.PInt 20) /\
    tuple !! 1 = Some (Params.PInt 2).
Proof.
  intros decls.
  destruct (ParameterGrid_generate_kth decls 3) as (tuple & Hg & _ & Ht);
    [discriminate|vm_compute; lia|].
  exists tuple. split; [exact Hg|].
  split; [exact (Ht 0 _ eq_refl)|exact (Ht 1 _ eq_refl)].
Defined.
